(** * The session core of pinata_demo_1: dispatcher, tick loop, join and leave

    A shallow embedding of
      - [src/back/src/game_logic.ts]   (class [GameLogic]),
      - the server's [Game] class and [noThrow] (second part of
        [src/front/src/app/render_system.ts]),
      - class [Colour] (first part of the same file),
    together with the properties the specification states about them.

    Conventions.
      - A method that reads or writes fields, calls a collaborator, prints
        or may throw is a computation in [Eff S A]: it takes the state [S]
        and gives an outcome (a returned value or a thrown error), the state
        it leaves behind and the events it produced.  The state and the
        events survive a throw, as in JavaScript.
      - The collaborators whose code is not part of the sources
        ([EntityManager] with its systems, the player factory, [Pipe]) are
        interfaces (type classes); what the specification promises about
        them is stated as contract classes.
      - JavaScript numbers are exact here: the frame counter and the
        identities are naturals ([N]), colour channels are rationals ([Q]).
        Doubles are exact on integers below 2^53; NaN and the infinities
        are outside the model. *)

From Stdlib Require Import List Arith NArith Bool String QArith Qminmax Qround Lia.
From Stdlib Require Import ZArith Permutation DecimalString.
Import ListNotations.
Close Scope Q_scope.

Set Implicit Arguments.

(* ================================================================== *)
(** ** Values shared by the two server files *)

Definition EntityId := N.

(** [Direction] comes from a file that is not part of the sources; a
    TypeScript numeric enum is a number at run time. *)
Definition Direction := N.

(** A socket is only ever handed to [Pipe]: an opaque handle. *)
Definition WebSocket := N.

(** What a [throw] carries. *)
Definition exn := string.

Inductive ComponentType :=
  SPATIAL | AGENT | PHYSICS | RENDER | BEHAVIOUR | INVENTORY.

Inductive EntityType := PLAYER | ROCK | GEM | SOIL.

(** An entry of the roster: [{ id, type }]. *)
Record Entity := mkEntity { entity_id : EntityId; entity_type : EntityType }.

(** Modelled from the spec: [ComponentPacket] (./common/system) is absent;
    a packet is a component payload, opaque but for the entity and the
    component type it belongs to. *)
Record ComponentPacket := mkPacket {
  packet_entityId : EntityId;
  packet_componentType : ComponentType;
  packet_payload : N
}.

(** Modelled from the spec: [ActionType] and [PlayerAction]
    (./common/action) are absent.  "A tagged variant; every variant carries
    the originating entity identity.  Only a move variant with a direction
    is defined; the taxonomy is open for extension."  [OtherAction] stands
    for every kind the dispatcher's [switch] has no case for. *)
Inductive ActionType := MOVE | UNRECOGNISED (tag : N).

Inductive PlayerAction :=
| MoveAction (playerId : EntityId) (direction : Direction)
| OtherAction (tag : N) (playerId : EntityId).

Definition action_type (a : PlayerAction) : ActionType :=
  match a with
  | MoveAction _ _ => MOVE
  | OtherAction t _ => UNRECOGNISED t
  end.

Definition action_playerId (a : PlayerAction) : EntityId :=
  match a with
  | MoveAction p _ => p
  | OtherAction _ p => p
  end.

(** The three messages of ./common/response, as [Game] builds them. *)
Inductive Response :=
| RGameState (packets : list ComponentPacket) (frameNumber : N)
| RNewEntities (entities : list Entity)
| REntitiesDeleted (entities : list Entity).

Inductive GameResponseType := GAME_STATE | NEW_ENTITIES | ENTITIES_DELETED.

Definition response_type (m : Response) : GameResponseType :=
  match m with
  | RGameState _ _ => GAME_STATE
  | RNewEntities _ => NEW_ENTITIES
  | REntitiesDeleted _ => ENTITIES_DELETED
  end.

(* ================================================================== *)
(** ** Events

    What a run leaves behind for an observer: console lines, the calls
    made to the collaborators in the order they were made, and one ghost
    event, [Attempted], that records how an attempt to apply an action
    ended when [_handlePlayerAction] returned.  Events are only ever
    appended; no computation reads them. *)

(** The texts printed by the two server files. *)
Inductive ConsoleLine :=
| Handling                                      (* "Game logic: Handling player action" *)
| AddingPlayer (id : EntityId)                  (* `Adding player ${id}` *)
| RemovingPlayer (id : EntityId)                (* `Removing player ${id}` *)
| Received (t : ActionType) (id : EntityId)     (* `Received ${type} action from player ${playerId}` *)
| StartingGame (id : N)                         (* `Starting game ${id}` *)
| TerminatingGame (id : N).                     (* `Terminating game ${id}` *)

(** How an attempt ended: [Applied] is [return true] of [_movePlayer],
    [Contended] its [return false], [Unrecognised] the [return false]
    after the [switch] of [_handlePlayerAction]. *)
Inductive Verdict := Applied | Contended | Unrecognised.

Inductive Event :=
| ConsoleLog (line : ConsoleLine)
| ConsoleError (err : exn)                      (* "Error! " + err *)
| EmGetSystem (c : ComponentType)
| SpatialEntityIsMoving (id : EntityId)
| PhysicsMoveEntity (id : EntityId) (d : Direction)
| EmUpdate
| EmGetDirties
| EmEntities
| EmGetState
| EmRemoveEntity (id : EntityId)
| ConstructPlayer (pinataId pinataToken : string)
| PipeAddSocket (id : EntityId) (socket : WebSocket)
| PipeRemoveSocket (id : EntityId)
| PipeSend (id : EntityId) (m : Response)
| PipeSendToAll (m : Response)
| Attempted (a : PlayerAction) (v : Verdict).

(* ================================================================== *)
(** ** Computations with state, exceptions and events *)

Inductive outcome (A : Type) :=
| Returned (a : A)
| Thrown (e : exn).
Arguments Thrown {A} e.

Record Res (S A : Type) := mkRes {
  result : outcome A;
  final : S;
  events : list Event
}.

Definition Eff (S A : Type) := S -> Res S A.

Section Effects.
Context {S : Type}.

Definition ret {A} (a : A) : Eff S A :=
  fun s => mkRes (Returned a) s [].

Definition bind {A B} (m : Eff S A) (f : A -> Eff S B) : Eff S B :=
  fun s =>
    let r := m s in
    match result r with
    | Returned a =>
        let r' := f a (final r) in
        mkRes (result r') (final r') (events r ++ events r')
    | Thrown e => mkRes (Thrown e) (final r) (events r)
    end.

Definition emit (ev : Event) : Eff S unit :=
  fun s => mkRes (Returned tt) s [ev].

Definition gets {A} (f : S -> A) : Eff S A :=
  fun s => mkRes (Returned (f s)) s [].

Definition modify (f : S -> S) : Eff S unit :=
  fun s => mkRes (Returned tt) (f s) [].

(** [xs.forEach(f)]. *)
Fixpoint forEach {A} (f : A -> Eff S unit) (xs : list A) : Eff S unit :=
  match xs with
  | [] => ret tt
  | x :: rest => bind (f x) (fun _ => forEach f rest)
  end.

(** [try { return fn(); } catch (err) { console.error("Error! " + err); }]
    The function falls off its end after the catch: [None] is the
    [undefined] it then returns. *)
Definition noThrow {A} (fn : Eff S A) : Eff S (option A) :=
  fun s =>
    let r := fn s in
    match result r with
    | Returned a => mkRes (Returned (Some a)) (final r) (events r)
    | Thrown err =>
        mkRes (Returned None) (final r) (events r ++ [ConsoleError err])
    end.
End Effects.

Declare Scope eff_scope.
Delimit Scope eff_scope with eff.
Notation "x <- m ;; k" := (bind m (fun x => k))
  (at level 61, m at next level, right associativity) : eff_scope.
Notation "m ;; k" := (bind m (fun _ => k))
  (at level 61, right associativity) : eff_scope.
Open Scope eff_scope.

(* ================================================================== *)
(** ** The collaborators *)

(** Modelled from the spec: the World State Store.  [EntityManager], the
    spatial and physics systems it hands out and the player factory are
    absent from the sources; [W] is the whole store, systems included.
    Queries read the store and may throw; commands may change it and may
    throw.  [em_entities] and [em_getState] give values (a roster, a
    snapshot), as the spec's [roster()] and [snapshot()] do. *)
Class EntityManager (W : Type) := {
  em_getSystem : ComponentType -> W -> outcome unit;
  spatial_entityIsMoving : EntityId -> W -> outcome bool;
  physics_moveEntity : EntityId -> Direction -> W -> outcome unit * W;
  em_update : W -> outcome unit * W;
  em_getDirties : W -> outcome (list ComponentPacket) * W;
  em_entities : W -> list Entity;
  em_getState : W -> list ComponentPacket;
  em_removeEntity : EntityId -> W -> outcome unit * W;
  constructPlayer : string -> string -> W -> outcome EntityId * W
}.

(** Modelled from the spec: the Transport Registry.  [Pipe] (./pipe) is
    absent from the sources; [connections] is the set of identities that
    have a connection, the only thing the spec lets one observe of it. *)
Class Pipe (P : Type) := {
  pipe_addSocket : EntityId -> WebSocket -> P -> outcome unit * P;
  pipe_removeSocket : EntityId -> P -> outcome unit * P;
  pipe_send : EntityId -> Response -> P -> outcome unit * P;
  pipe_sendToAll : Response -> P -> outcome unit * P;
  connections : P -> list EntityId
}.

(* ================================================================== *)
(** ** game_logic.ts *)

Module GameLogic.
Section Dispatcher.
Context {W : Type} `{EntityManager W}.

Record t := mk {
  _entityManager : W;
  _queuedAction : option PlayerAction
}.

(** [new GameLogic(entityManager)]. *)
Definition constructor (entityManager : W) : t :=
  mk entityManager None.

(** A query on the entity manager or one of its systems. *)
Definition query {A} (ev : Event) (q : W -> outcome A) : Eff t A :=
  fun gl => mkRes (q (_entityManager gl)) gl [ev].

(** A command: the store is left as the command leaves it, also when it
    throws. *)
Definition command {A} (ev : Event) (c : W -> outcome A * W) : Eff t A :=
  fun gl =>
    let '(o, w) := c (_entityManager gl) in
    mkRes o (mk w (_queuedAction gl)) [ev].

Definition set_queuedAction (v : option PlayerAction) : Eff t unit :=
  modify (fun gl => mk (_entityManager gl) v).

Definition _movePlayer (playerId : EntityId) (direction : Direction)
  : Eff t bool :=
  let action := MoveAction playerId direction in
  _ <- query (EmGetSystem PHYSICS) (em_getSystem PHYSICS) ;;
  _ <- query (EmGetSystem SPATIAL) (em_getSystem SPATIAL) ;;
  moving <- query (SpatialEntityIsMoving playerId)
                  (spatial_entityIsMoving playerId) ;;
  if (moving : bool) then
    set_queuedAction (Some action) ;;
    emit (Attempted action Contended) ;;
    ret false
  else
    command (PhysicsMoveEntity playerId direction)
            (physics_moveEntity playerId direction) ;;
    emit (Attempted action Applied) ;;
    ret true.

Definition _handlePlayerAction (action : PlayerAction) : Eff t bool :=
  emit (ConsoleLog Handling) ;;
  match action with
  | MoveAction playerId direction => _movePlayer playerId direction
  | OtherAction _ _ =>
      emit (Attempted action Unrecognised) ;;
      ret false
  end.

(** The first statement of [update]: the held action, if there is one,
    is attempted again. *)
Definition retry_queued : Eff t unit :=
  queued <- gets _queuedAction ;;
  match queued with
  | Some a =>
      ok <- _handlePlayerAction a ;;
      if (ok : bool) then set_queuedAction None else ret tt
  | None => ret tt
  end.

(** The body of the [forEach] callback of [update]. *)
Definition resolve_one (action : PlayerAction) : Eff t unit :=
  ok <- _handlePlayerAction action ;;
  if negb ok then set_queuedAction (Some action) else ret tt.

Definition update (actions : list PlayerAction) : Eff t unit :=
  retry_queued ;;
  forEach resolve_one actions.
End Dispatcher.
Arguments t W : clear implicits.
End GameLogic.

(* ================================================================== *)
(** ** Runs of the dispatcher and what they record *)

(** A run of resolve passes, one per tick.  Between two passes the
    dispatcher itself keeps nothing but the slot ([_queuedAction] is
    private to [GameLogic]); the store is whatever the rest of the session
    has made of it by then, so each pass is given the store it starts from
    and the actions that arrived for it.  A pass that throws stops where it
    throws and leaves the slot as it is at that point; the tick boundary
    ([noThrow]) lets the next pass run.  The result is the slot after the
    last pass and the events of each pass. *)
Fixpoint passes {W : Type} `{EntityManager W}
  (slot : option PlayerAction) (ticks : list (W * list PlayerAction))
  : option PlayerAction * list (list Event) :=
  match ticks with
  | [] => (slot, [])
  | (w, actions) :: later =>
      let r := GameLogic.update actions (GameLogic.mk w slot) in
      let '(slot', evs) :=
        passes (GameLogic._queuedAction (final r)) later in
      (slot', events r :: evs)
  end.

(** The attempts recorded in a list of events, oldest first. *)
Fixpoint attempts (evs : list Event) : list (PlayerAction * Verdict) :=
  match evs with
  | [] => []
  | Attempted a v :: rest => (a, v) :: attempts rest
  | _ :: rest => attempts rest
  end.

(** The dispatcher knows one way for an attempt to fail:
    [_handlePlayerAction] returned [false]. *)
Definition failed (v : Verdict) : bool :=
  match v with
  | Applied => false
  | Contended | Unrecognised => true
  end.

Definition applied (av : PlayerAction * Verdict) : Prop := snd av = Applied.

(** The actions whose attempt failed, oldest first. *)
Definition failures (evs : list Event) : list PlayerAction :=
  map fst (filter (fun av => failed (snd av)) (attempts evs)).

(** The slot after a run of [resolve_one], read off the attempts it made:
    every failed attempt puts its action in the slot (lines 24 and 36 of
    game_logic.ts), a successful one leaves the slot alone. *)
Fixpoint settle (slot : option PlayerAction)
  (atts : list (PlayerAction * Verdict)) : option PlayerAction :=
  match atts with
  | [] => slot
  | (a, v) :: rest => settle (if failed v then Some a else slot) rest
  end.

(** The slot after a whole pass.  With an action held, the first attempt
    of the pass is the held action's, and its success empties the slot
    (line 18). *)
Definition pass_slot (slot : option PlayerAction)
  (atts : list (PlayerAction * Verdict)) : option PlayerAction :=
  match slot, atts with
  | Some a, (_, v) :: rest => settle (if failed v then Some a else None) rest
  | _, _ => settle slot atts
  end.

(** With an action held, a pass attempts it first. *)
Definition held_first (s : option PlayerAction)
  (atts : list (PlayerAction * Verdict)) : Prop :=
  forall a, s = Some a -> atts = [] \/ exists v rest, atts = (a, v) :: rest.

(** The calls made to [Pipe] among the events. *)
Definition is_pipe_call (ev : Event) : bool :=
  match ev with
  | PipeAddSocket _ _ | PipeRemoveSocket _ | PipeSend _ _ | PipeSendToAll _ => true
  | _ => false
  end.

Definition pipe_calls (evs : list Event) : list Event :=
  filter is_pipe_call evs.

(** The messages of one kind that were broadcast, oldest first. *)
Definition same_kind (a b : GameResponseType) : bool :=
  match a, b with
  | GAME_STATE, GAME_STATE
  | NEW_ENTITIES, NEW_ENTITIES
  | ENTITIES_DELETED, ENTITIES_DELETED => true
  | _, _ => false
  end.

Fixpoint broadcasts (kind : GameResponseType) (evs : list Event)
  : list Response :=
  match evs with
  | [] => []
  | PipeSendToAll m :: rest =>
      if same_kind (response_type m) kind then m :: broadcasts kind rest
      else broadcasts kind rest
  | _ :: rest => broadcasts kind rest
  end.

(* ================================================================== *)
(** ** The server's Game class *)

Module Game.
Section Session.
Context {W P : Type} `{EntityManager W} `{Pipe P}.

(** [_em] and the [_entityManager] of [_gameLogic] are one object
    ([new GameLogic(this._em)]): the store is kept once, inside
    [_gameLogic], and [_em] reads it there.  [_loopTimeout] is the handle
    of the interval; what matters of it is whether the interval is still
    armed. *)
Record t := mk {
  _id : N;
  _pipe : P;
  _loopTimeout : bool;
  _actionQueue : list PlayerAction;
  _gameLogic : GameLogic.t W;
  _frame : N
}.

Definition _em (g : t) : W := GameLogic._entityManager (_gameLogic g).

Definition with_em (w : W) (g : t) : t :=
  mk (_id g) (_pipe g) (_loopTimeout g) (_actionQueue g)
     (GameLogic.mk w (GameLogic._queuedAction (_gameLogic g))) (_frame g).

Definition with_pipe (p : P) (g : t) : t :=
  mk (_id g) p (_loopTimeout g) (_actionQueue g) (_gameLogic g) (_frame g).

Definition with_gameLogic (gl : GameLogic.t W) (g : t) : t :=
  mk (_id g) (_pipe g) (_loopTimeout g) (_actionQueue g) gl (_frame g).

Definition with_actionQueue (q : list PlayerAction) (g : t) : t :=
  mk (_id g) (_pipe g) (_loopTimeout g) q (_gameLogic g) (_frame g).

Definition with_frame (f : N) (g : t) : t :=
  mk (_id g) (_pipe g) (_loopTimeout g) (_actionQueue g) (_gameLogic g) f.

Definition with_loopTimeout (armed : bool) (g : t) : t :=
  mk (_id g) (_pipe g) armed (_actionQueue g) (_gameLogic g) (_frame g).

(** A method of [_gameLogic]. *)
Definition gameLogic {A} (m : Eff (GameLogic.t W) A) : Eff t A :=
  fun g =>
    let r := m (_gameLogic g) in
    mkRes (result r) (with_gameLogic (final r) g) (events r).

(** A command on [_em]. *)
Definition em {A} (ev : Event) (c : W -> outcome A * W) : Eff t A :=
  fun g =>
    let '(o, w) := c (_em g) in
    mkRes o (with_em w g) [ev].

(** A value read from [_em]. *)
Definition em_read {A} (ev : Event) (f : W -> A) : Eff t A :=
  fun g => mkRes (Returned (f (_em g))) g [ev].

(** A call on [_pipe]. *)
Definition pipe {A} (ev : Event) (c : P -> outcome A * P) : Eff t A :=
  fun g =>
    let '(o, p) := c (_pipe g) in
    mkRes o (with_pipe p g) [ev].

Definition _tick : Eff t unit :=
  actions <- gets _actionQueue ;;
  gameLogic (GameLogic.update actions) ;;
  modify (with_actionQueue []) ;;
  em EmUpdate em_update ;;
  dirties <- em EmGetDirties em_getDirties ;;
  (if (0 <? List.length dirties)%nat then
     frame <- gets _frame ;;
     let response := RGameState dirties frame in
     pipe (PipeSendToAll response) (pipe_sendToAll response)
   else ret tt) ;;
  modify (fun g => with_frame (_frame g + 1)%N g).

(** The object the constructor leaves, the static counter after it and
    the line it prints.  [pipe] is [new Pipe()]; [entityManager] is the
    entity manager once its systems are registered and [_populate] has run
    (both use only absent code and a random shuffle).  The interval is
    armed with [() => noThrow(this._tick.bind(this))]. *)
Definition constructor (nextGameId : N) (pipe : P) (entityManager : W)
  : t * N * list Event :=
  (mk nextGameId pipe true [] (GameLogic.constructor entityManager) 0,
   (nextGameId + 1)%N,
   [ConsoleLog (StartingGame nextGameId)]).

Definition addPlayer (socket : WebSocket) (pinataId pinataToken : string)
  : Eff t EntityId :=
  entities <- em_read EmEntities em_entities ;;
  id <- em (ConstructPlayer pinataId pinataToken)
           (constructPlayer pinataId pinataToken) ;;
  emit (ConsoleLog (AddingPlayer id)) ;;
  pipe (PipeAddSocket id socket) (pipe_addSocket id socket) ;;
  let newEntitiesResp := RNewEntities entities in
  packets <- em_read EmGetState em_getState ;;
  frame <- gets _frame ;;
  let stateUpdateResp := RGameState packets frame in
  let newPlayerResp := RNewEntities [mkEntity id PLAYER] in
  pipe (PipeSend id newEntitiesResp) (pipe_send id newEntitiesResp) ;;
  pipe (PipeSendToAll newPlayerResp) (pipe_sendToAll newPlayerResp) ;;
  pipe (PipeSend id stateUpdateResp) (pipe_send id stateUpdateResp) ;;
  ret id.

Definition removePlayer (id : EntityId) : Eff t unit :=
  emit (ConsoleLog (RemovingPlayer id)) ;;
  em (EmRemoveEntity id) (em_removeEntity id) ;;
  pipe (PipeRemoveSocket id) (pipe_removeSocket id) ;;
  let response := REntitiesDeleted [mkEntity id PLAYER] in
  pipe (PipeSendToAll response) (pipe_sendToAll response).

Definition id (g : t) : N := _id g.

Definition onPlayerAction (action : PlayerAction) : Eff t unit :=
  emit (ConsoleLog (Received (action_type action) (action_playerId action))) ;;
  modify (fun g => with_actionQueue (_actionQueue g ++ [action]) g).

Definition terminate : Eff t unit :=
  gid <- gets _id ;;
  emit (ConsoleLog (TerminatingGame gid)) ;;
  modify (with_loopTimeout false).

(** The interval at work.  Before each firing some actions arrive
    ([onPlayerAction]); the callback runs if the interval is still armed.
    A callback that threw would end the run there (an error that escapes
    a timer callback ends the process), so a run that returns has made
    every firing.  The list gives what each callback returned. *)
Fixpoint run_interval (callback : Eff t (option unit))
  (arrivals : list (list PlayerAction)) : Eff t (list (option unit)) :=
  match arrivals with
  | [] => ret []
  | arrived :: later =>
      forEach onPlayerAction arrived ;;
      armed <- gets _loopTimeout ;;
      if (armed : bool) then
        r <- callback ;;
        rs <- run_interval callback later ;;
        ret (r :: rs)
      else ret []
  end.

(** [() => noThrow(this._tick.bind(this))]. *)
Definition interval_callback : Eff t (option unit) := noThrow _tick.
End Session.
Arguments t W P : clear implicits.
End Game.

(** How many callbacks returned a value, that is, did not end in the
    [catch] of [noThrow]. *)
Definition successes (rs : list (option unit)) : N :=
  N.of_nat (List.length (filter (fun r => match r with Some _ => true | None => false end) rs)).

Section TickScenarios.
Context {W P : Type} `{EntityManager W} `{Pipe P}.

(** Where a tick can fail, and what it leaves behind in each case. *)
Definition failure_point (g : Game.t W P) (e : exn) : Prop :=
  let r1 := GameLogic.update (Game._actionQueue g) (Game._gameLogic g) in
  let g1 := Game.mk (Game._id g) (Game._pipe g) (Game._loopTimeout g) []
                    (final r1) (Game._frame g) in
  (result r1 = Thrown e /\
   final (Game._tick g) = Game.with_gameLogic (final r1) g) \/
  (result r1 = Returned tt /\
   exists w2,
     em_update (GameLogic._entityManager (final r1)) = (Thrown e, w2) /\
     final (Game._tick g) = Game.with_em w2 g1) \/
  (result r1 = Returned tt /\
   exists w2 w3,
     em_update (GameLogic._entityManager (final r1)) = (Returned tt, w2) /\
     em_getDirties w2 = (Thrown e, w3) /\
     final (Game._tick g) = Game.with_em w3 g1) \/
  (result r1 = Returned tt /\
   exists w2 dirties w3 p4,
     em_update (GameLogic._entityManager (final r1)) = (Returned tt, w2) /\
     em_getDirties w2 = (Returned dirties, w3) /\
     dirties <> [] /\
     pipe_sendToAll (RGameState dirties (Game._frame g)) (Game._pipe g)
       = (Thrown e, p4) /\
     final (Game._tick g) = Game.with_pipe p4 (Game.with_em w3 g1)).

End TickScenarios.

(* ================================================================== *)
(** ** What the spec promises of the collaborators *)

(** Modelled from the spec: the World State Store's [createEntity] gives
    an identity that was not in the roster, the new entity is part of the
    next snapshot, and [removeEntity] takes the entity out of the roster. *)
Class EntityManagerContract (W : Type) `{EntityManager W} : Prop := {
  constructPlayer_fresh : forall pinataId pinataToken w id w',
    constructPlayer pinataId pinataToken w = (Returned id, w') ->
    ~ In id (map entity_id (em_entities w));
  constructPlayer_state : forall pinataId pinataToken w id w',
    constructPlayer pinataId pinataToken w = (Returned id, w') ->
    In id (map packet_entityId (em_getState w'));
  removeEntity_roster : forall id w w',
    em_removeEntity id w = (Returned tt, w') ->
    ~ In id (map entity_id (em_entities w'))
}.

(** Modelled from the spec: the Transport Registry's [addConnection] and
    [removeConnection] add and remove the connection of one identity;
    sending changes no registration. *)
Class PipeContract (P : Type) `{Pipe P} : Prop := {
  addSocket_connections : forall id socket p p',
    pipe_addSocket id socket p = (Returned tt, p') ->
    forall i, In i (connections p') <-> i = id \/ In i (connections p);
  removeSocket_connections : forall id p p',
    pipe_removeSocket id p = (Returned tt, p') ->
    forall i, In i (connections p') <-> i <> id /\ In i (connections p);
  send_connections : forall id m p o p',
    pipe_send id m p = (o, p') -> connections p' = connections p;
  sendToAll_connections : forall m p o p',
    pipe_sendToAll m p = (o, p') -> connections p' = connections p
}.

(* ================================================================== *)
(** ** Colour (render_system.ts) *)

Module Colour.
Local Open Scope Q_scope.

Record t := mk { _r : Q; _g : Q; _b : Q; _a : Q }.

Section Channels.
(** [clamp] of ./common/utils, absent from the sources. *)
Variable clamp : Q -> Q -> Q -> Q.

Definition set_r (value : Q) (c : t) : t :=
  mk (clamp value 0 1) (_g c) (_b c) (_a c).

Definition set_g (value : Q) (c : t) : t :=
  mk (_r c) (clamp value 0 1) (_b c) (_a c).

Definition set_b (value : Q) (c : t) : t :=
  mk (_r c) (_g c) (clamp value 0 1) (_a c).

Definition set_a (value : Q) (c : t) : t :=
  mk (_r c) (_g c) (_b c) (clamp value 0 1).

(** The field initialisers, then the four assignments of the constructor
    body; [a] defaults to [1.0]. *)
Definition constructor (r g b : Q) (a : option Q) : t :=
  let a := match a with Some v => v | None => 1 end in
  set_a a (set_b b (set_g g (set_r r (mk 0 0 0 1)))).

(** An assignment [c.r = v], [c.g = v], [c.b = v] or [c.a = v]. *)
Inductive assignment := AssignR (v : Q) | AssignG (v : Q) | AssignB (v : Q) | AssignA (v : Q).

Definition assign (c : t) (s : assignment) : t :=
  match s with
  | AssignR v => set_r v c
  | AssignG v => set_g v c
  | AssignB v => set_b v c
  | AssignA v => set_a v c
  end.
End Channels.

Definition r (c : t) : Q := _r c.
Definition g (c : t) : Q := _g c.
Definition b (c : t) : Q := _b c.
Definition a (c : t) : Q := _a c.

Definition value (c : t) : Z :=
  (Qfloor (r c * 256) * 16 * 16 + Qfloor (g c * 256) * 16 + Qfloor (b c * 256))%Z.

(** The channel an assignment writes, and the value it writes to it. *)
Inductive channel := R | G | B | A.

Definition target (s : assignment) : channel * Q :=
  match s with
  | AssignR v => (R, v)
  | AssignG v => (G, v)
  | AssignB v => (B, v)
  | AssignA v => (A, v)
  end.

Definition same_channel (c1 c2 : channel) : bool :=
  match c1, c2 with
  | R, R | G, G | B, B | A, A => true
  | _, _ => false
  end.

(** The value the assignments [ss] wrote last to the channel [ch], [v]
    if they wrote nothing to it. *)
Definition last_written (ch : channel) (v : Q) (ss : list assignment) : Q :=
  fold_left (fun v s => if same_channel (fst (target s)) ch
                        then snd (target s) else v) ss v.

Definition in_unit (x : Q) : Prop := 0 <= x /\ x <= 1.

Definition channels_in_range (c : t) : Prop :=
  in_unit (r c) /\ in_unit (g c) /\ in_unit (b c) /\ in_unit (a c).

(** Modelled from the spec: what [clamp(value, min, max)] promises,
    "every write path clamps its input to that range". *)
Definition clamps (clamp : Q -> Q -> Q -> Q) : Prop :=
  forall value lo hi, lo <= hi -> lo <= clamp value lo hi /\ clamp value lo hi <= hi.

(** A clamp for the examples: [Math.min(Math.max(value, min), max)]. *)
Definition minmax_clamp (value lo hi : Q) : Q := Qmin (Qmax value lo) hi.
End Colour.

(* ================================================================== *)
(** ** Scenario vocabulary for the dispatcher *)

(** What a verdict says about the action it is recorded for. *)
Definition verdict_fits (a : PlayerAction) (v : Verdict) : Prop :=
  match v with
  | Applied | Contended => exists p d, a = MoveAction p d
  | Unrecognised => exists t p, a = OtherAction t p
  end.

Section Scenarios.
Context {W : Type} `{EntityManager W}.

(** Both systems [_movePlayer] asks for are registered. *)
Definition systems_ready (w : W) : Prop :=
  em_getSystem PHYSICS w = Returned tt /\ em_getSystem SPATIAL w = Returned tt.

(** The spatial system's answer to "is this entity presently in motion". *)
Definition busy (p : EntityId) (w : W) : Prop :=
  spatial_entityIsMoving p w = Returned true.

Definition idle (p : EntityId) (w : W) : Prop :=
  spatial_entityIsMoving p w = Returned false.

(** In the pass that starts from store [w] with [held] in the slot and
    [actions] queued, every attempt after the first one succeeds. *)
Definition no_later_failure (held : PlayerAction) (tick : W * list PlayerAction)
  : Prop :=
  Forall applied
    (tl (attempts (events (GameLogic.update (snd tick)
                             (GameLogic.mk (fst tick) (Some held)))))).

(** How an attempt, [_handlePlayerAction a] run from [gl], can end:
    it returns [true], it returns [false], or it throws. *)
Inductive attempt_ends (a : PlayerAction) (gl : GameLogic.t W)
  (r : Res (GameLogic.t W) bool) : Prop :=
| ends_applied :
    result r = Returned true -> attempts (events r) = [(a, Applied)] ->
    GameLogic._queuedAction (final r) = GameLogic._queuedAction gl ->
    verdict_fits a Applied ->
    attempt_ends a gl r
| ends_failed v :
    result r = Returned false -> attempts (events r) = [(a, v)] ->
    failed v = true -> verdict_fits a v ->
    GameLogic._queuedAction (final r) = GameLogic._queuedAction gl \/
    GameLogic._queuedAction (final r) = Some a ->
    attempt_ends a gl r
| ends_thrown e :
    result r = Thrown e -> attempts (events r) = [] ->
    GameLogic._queuedAction (final r) = GameLogic._queuedAction gl ->
    attempt_ends a gl r.

(** How one turn of the [forEach] of [update] can end. *)
Inductive turn_ends (a : PlayerAction) (gl : GameLogic.t W)
  (r : Res (GameLogic.t W) unit) : Prop :=
| turn_applied :
    result r = Returned tt -> attempts (events r) = [(a, Applied)] ->
    GameLogic._queuedAction (final r) = GameLogic._queuedAction gl ->
    verdict_fits a Applied ->
    turn_ends a gl r
| turn_failed v :
    result r = Returned tt -> attempts (events r) = [(a, v)] ->
    failed v = true -> verdict_fits a v ->
    GameLogic._queuedAction (final r) = Some a ->
    turn_ends a gl r
| turn_thrown e :
    result r = Thrown e -> attempts (events r) = [] ->
    GameLogic._queuedAction (final r) = GameLogic._queuedAction gl ->
    turn_ends a gl r.

(** How the retry of the held action can end. *)
Inductive retry_ends (gl : GameLogic.t W) (r : Res (GameLogic.t W) unit)
  : Prop :=
| retry_none :
    GameLogic._queuedAction gl = None -> r = mkRes (Returned tt) gl [] ->
    retry_ends gl r
| retry_applied a :
    GameLogic._queuedAction gl = Some a ->
    result r = Returned tt -> attempts (events r) = [(a, Applied)] ->
    GameLogic._queuedAction (final r) = None -> verdict_fits a Applied ->
    retry_ends gl r
| retry_failed a v :
    GameLogic._queuedAction gl = Some a ->
    result r = Returned tt -> attempts (events r) = [(a, v)] ->
    failed v = true -> verdict_fits a v ->
    GameLogic._queuedAction (final r) = Some a ->
    retry_ends gl r
| retry_thrown a e :
    GameLogic._queuedAction gl = Some a ->
    result r = Thrown e -> attempts (events r) = [] ->
    GameLogic._queuedAction (final r) = Some a ->
    retry_ends gl r.

(** The first attempt of a pass. *)
Definition first_attempt (evs : list Event) : option (PlayerAction * Verdict) :=
  hd_error (attempts evs).
End Scenarios.

(** Every recorded verdict is one its action can get. *)
Definition well_formed (atts : list (PlayerAction * Verdict)) : Prop :=
  Forall (fun av => verdict_fits (fst av) (snd av)) atts.

(** The slot as the attempts made so far determine it: it holds the action
    of the most recent failed attempt provided every attempt made since
    has succeeded. *)
Definition slot_invariant (slot : option PlayerAction) (history : list Event)
  : Prop :=
  match slot with
  | None => True
  | Some a =>
      exists v before since,
        attempts history = before ++ (a, v) :: since /\
        failed v = true /\ verdict_fits a v /\
        Forall applied since
  end.

(** The invariant as the data model words it: the held action's target
    was busy the last time that action was attempted. *)
Definition slot_holds_contended (slot : option PlayerAction)
  (history : list Event) : Prop :=
  match slot with
  | None => True
  | Some a =>
      exists before since,
        attempts history = before ++ (a, Contended) :: since /\
        forall v, ~ In (a, v) since
  end.

(** The slot as the passes made so far determine it: [a] is held since
    the latest pass that attempted anything.  The most recent failed
    attempt of that pass was an attempt of [a], every attempt made after it
    in that pass succeeded, and no pass since has attempted anything.  A
    later pass that attempts anything begins with the retry of the held
    action, so the action in the slot has not been retried since that
    failed attempt. *)
Definition held_since (a : PlayerAction) (runs : list (list Event)) : Prop :=
  exists earlier evs quiet v before since,
    runs = earlier ++ evs :: quiet /\
    Forall (fun evs' => attempts evs' = []) quiet /\
    attempts evs = before ++ (a, v) :: since /\
    failed v = true /\ verdict_fits a v /\ Forall applied since.

(* ================================================================== *)
(** ** A small world and a small pipe, for examples *)

Module Ref.
Local Open Scope N_scope.

Record World := mkWorld {
  moving : list EntityId;
  roster : list Entity;
  dirty : list ComponentPacket;
  broken : bool
}.

Definition max_id (es : list Entity) : N :=
  fold_right (fun e m => N.max (entity_id e) m) 0%N es.

Definition packet_of (e : Entity) : ComponentPacket :=
  mkPacket (entity_id e) SPATIAL 0.

Definition moveEntity (id : EntityId) (d : Direction) (w : World)
  : outcome unit * World :=
  (Returned tt,
   mkWorld (id :: moving w) (roster w)
           (dirty w ++ [mkPacket id SPATIAL d]) (broken w)).

(** One step of the simulation: every move completes; a broken world
    throws. *)
Definition step (w : World) : outcome unit * World :=
  if broken w then (Thrown "simulation failed"%string, w)
  else (Returned tt, mkWorld [] (roster w) (dirty w) (broken w)).

Definition getDirties (w : World) : outcome (list ComponentPacket) * World :=
  (Returned (dirty w), mkWorld (moving w) (roster w) [] (broken w)).

Definition removeEntity (id : EntityId) (w : World) : outcome unit * World :=
  (Returned tt,
   mkWorld (filter (fun i => negb (i =? id)%N) (moving w))
           (filter (fun e => negb (entity_id e =? id)%N) (roster w))
           (dirty w) (broken w)).

Definition newPlayer (pinataId pinataToken : string) (w : World)
  : outcome EntityId * World :=
  let id := (max_id (roster w) + 1)%N in
  (Returned id,
   mkWorld (moving w) (roster w ++ [mkEntity id PLAYER])
           (dirty w ++ [mkPacket id AGENT 0]) (broken w)).

#[global] Instance world : EntityManager World := {
  em_getSystem := fun _ _ => Returned tt;
  spatial_entityIsMoving := fun id w => Returned (existsb (N.eqb id) (moving w));
  physics_moveEntity := moveEntity;
  em_update := step;
  em_getDirties := getDirties;
  em_entities := roster;
  em_getState := fun w => map packet_of (roster w);
  em_removeEntity := removeEntity;
  constructPlayer := newPlayer
}.

Record Registry := mkRegistry {
  sockets : list (EntityId * WebSocket);
  wire : list (EntityId * Response);
  closed : bool
}.

Definition unregister (id : EntityId) (l : list (EntityId * WebSocket)) :=
  filter (fun c => negb (fst c =? id)%N) l.

Definition addSocket (id : EntityId) (s : WebSocket) (p : Registry)
  : outcome unit * Registry :=
  (Returned tt, mkRegistry ((id, s) :: unregister id (sockets p)) (wire p) (closed p)).

Definition removeSocket (id : EntityId) (p : Registry)
  : outcome unit * Registry :=
  (Returned tt, mkRegistry (unregister id (sockets p)) (wire p) (closed p)).

Definition send (id : EntityId) (m : Response) (p : Registry)
  : outcome unit * Registry :=
  if closed p then (Thrown "socket closed"%string, p)
  else (Returned tt, mkRegistry (sockets p) (wire p ++ [(id, m)]) (closed p)).

Definition sendToAll (m : Response) (p : Registry)
  : outcome unit * Registry :=
  if closed p then (Thrown "socket closed"%string, p)
  else (Returned tt,
        mkRegistry (sockets p)
                   (wire p ++ map (fun c => (fst c, m)) (sockets p)) (closed p)).

#[global] Instance registry : Pipe Registry := {
  pipe_addSocket := addSocket;
  pipe_removeSocket := removeSocket;
  pipe_send := send;
  pipe_sendToAll := sendToAll;
  connections := fun p => map fst (sockets p)
}.

(** Entities 1, 2 and 3 are all in motion; 4 stands still. *)
Definition crowded : World :=
  mkWorld [1; 2; 3]%N
          [mkEntity 1 PLAYER; mkEntity 2 PLAYER; mkEntity 3 PLAYER; mkEntity 4 PLAYER]
          [] false.

(** Nothing moves. *)
Definition still : World :=
  mkWorld []
          [mkEntity 1 PLAYER; mkEntity 2 PLAYER; mkEntity 3 PLAYER; mkEntity 4 PLAYER]
          [] false.

Definition lobby : Registry := mkRegistry [(1, 11); (2, 12)]%N [] false.

Definition session (w : World) (p : Registry) (queue : list PlayerAction)
  (slot : option PlayerAction) (frame : N) : Game.t World Registry :=
  Game.mk 0 p true queue (GameLogic.mk w slot) frame.

(** A session whose simulation is broken: every advance throws. *)
Definition stalled : Game.t World Registry :=
  session (mkWorld [] [mkEntity 1 PLAYER] [] true) lobby [MoveAction 1 0] None 5.

(** A session in which entity 4 has just asked to move. *)
Definition playing : Game.t World Registry :=
  session still lobby [MoveAction 4 0] None 5.
End Ref.

(* ================================================================== *)
(** ** What a pass is given and what it commands *)

(** The moves commanded of the physics system among the events, oldest
    first. *)
Fixpoint moves (evs : list Event) : list (EntityId * Direction) :=
  match evs with
  | [] => []
  | PhysicsMoveEntity p d :: rest => (p, d) :: moves rest
  | _ :: rest => moves rest
  end.

(** The moves among the attempts that were applied. *)
Fixpoint applied_moves (atts : list (PlayerAction * Verdict))
  : list (EntityId * Direction) :=
  match atts with
  | [] => []
  | (MoveAction p d, Applied) :: rest => (p, d) :: applied_moves rest
  | _ :: rest => applied_moves rest
  end.

(** What a pass has before it: the held action, then the actions it is
    given (lines 16 and 22 of game_logic.ts). *)
Definition agenda (slot : option PlayerAction) (actions : list PlayerAction)
  : list PlayerAction :=
  match slot with
  | Some a => a :: actions
  | None => actions
  end.

Section Accounts.
Context {W : Type} `{EntityManager W}.

(** One of the four calls [_movePlayer] makes for a move of [p] in
    direction [d] threw [e] and left the store [w]. *)
Definition store_threw (p : EntityId) (d : Direction) (w : W) (e : exn) : Prop :=
  em_getSystem PHYSICS w = Thrown e \/
  em_getSystem SPATIAL w = Thrown e \/
  spatial_entityIsMoving p w = Thrown e \/
  exists w0, physics_moveEntity p d w0 = (Thrown e, w).

(** The store after the moves [ms] have been commanded of it, in order. *)
Definition commanded (ms : list (EntityId * Direction)) (w : W) : W :=
  fold_left (fun w m => snd (physics_moveEntity (fst m) (snd m) w)) ms w.

(** The account a stretch of the dispatcher's work gives of itself when
    it had [todo] before it and started from [gl]: the store is what the
    commanded moves made of it; if the stretch returned, every action of
    [todo] has one recorded attempt, in order, and the commanded moves are
    the applied ones; if it threw, the throw came from a call made for a
    move, the actions before that move have their attempt and nothing
    after them has. *)
Definition accounted {A} (todo : list PlayerAction) (gl : GameLogic.t W)
  (r : Res (GameLogic.t W) A) : Prop :=
  GameLogic._entityManager (final r)
    = commanded (moves (events r)) (GameLogic._entityManager gl) /\
  match result r with
  | Returned _ =>
      map fst (attempts (events r)) = todo /\
      moves (events r) = applied_moves (attempts (events r))
  | Thrown e =>
      exists p d rest,
        todo = map fst (attempts (events r)) ++ MoveAction p d :: rest /\
        store_threw p d (GameLogic._entityManager (final r)) e /\
        (moves (events r) = applied_moves (attempts (events r)) \/
         moves (events r) = applied_moves (attempts (events r)) ++ [(p, d)])
  end.
End Accounts.

(* ================================================================== *)
(** ** Laying out the world: [Game._populate] and map_loader.ts *)

(** Modelled from the spec: the factory functions [constructRock],
    [constructGem] and [constructSoil] (./factory) and
    [SpatialSystem.positionEntity] are absent from the sources; they
    belong to the World State Store, which "creates entities" and holds
    their positions.  Each is a call on the store that may change it and
    may throw; nothing more is assumed of them. *)
Class Factory (W : Type) := {
  constructRock : W -> outcome EntityId * W;
  constructGem : W -> outcome EntityId * W;
  constructSoil : W -> outcome EntityId * W;
  spatial_positionEntity : EntityId -> N -> N -> W -> outcome unit * W
}.

(** Modelled from the spec: [Span2d] and [Span] (./common/span) are
    absent from the sources and the spec leaves map data out.  A region is
    an interface with the three operations the loader uses, [new Span2d()],
    [addHorizontalSpan(row, new Span(a, b))] and [contains(x, y)]; they are
    taken to return and nothing more is assumed of them. *)
Class Span2d (R : Type) := {
  span2d_new : R;
  span2d_addHorizontalSpan : N -> Z -> Z -> R -> R;
  span2d_contains : N -> N -> R -> bool
}.

Module Layout.

(** [{ a, b }], an entry of a [Span2dDesc]. *)
Record SpanDesc := mkSpanDesc { a : Z; b : Z }.

Definition Span2dDesc := list (list SpanDesc).

(** [{ type, data: { row, col } }]. *)
Record EntityData := mkEntityData { row : N; col : N }.

Record EntityDesc := mkEntityDesc { type : EntityType; data : EntityData }.

Record MapData := mkMapData {
  width : N;
  height : N;
  gravityRegion : Span2dDesc;
  entities : list EntityDesc
}.

(** [xs.slice(start, end)] and [xs.slice(start)], for indices that are
    not negative: the elements from index [start] up to, not including,
    index [end], as far as there are any. *)
Definition slice {A} (start : nat) (stop : option nat) (xs : list A) : list A :=
  match stop with
  | Some e => firstn (e - start) (skipn start xs)
  | None => skipn start xs
  end.

(** The values [0, 1, ..., n-1] a counting loop goes through. *)
Definition upto (n : N) : list N := map N.of_nat (seq 0 (N.to_nat n)).

Record Deal := mkDeal {
  rockCoords : list (N * N);
  gemCoords : list (N * N);
  soilCoords : list (N * N)
}.

(** The three slices ([let idx = 0; ...], the same text in both files). *)
Definition deal (numRocks numGems : nat) (coords : list (N * N)) : Deal :=
  let idx := 0%nat in
  let rockCoords := slice 0 (Some numRocks) coords in
  let idx := (idx + numRocks)%nat in
  let gemCoords := slice idx (Some (idx + numGems)%nat) coords in
  let idx := (idx + numGems)%nat in
  let soilCoords := slice idx None coords in
  mkDeal rockCoords gemCoords soilCoords.

Section Config.
(** [WORLD_W], [WORLD_H] and [BLOCK_SZ] come from files that are not part
    of the sources: natural numbers. *)
Variables WORLD_W WORLD_H BLOCK_SZ : N.

(** [_.shuffle]: what the one call of a run returns for its argument. *)
Variable shuffle : list (N * N) -> list (N * N).

(** The two nested loops that fill [coords]: columns outside, rows
    inside; [skipped c r] is the condition under which the body
    [continue]s. *)
Definition scan (skipped : N -> N -> bool) : list (N * N) :=
  flat_map
    (fun c =>
       flat_map
         (fun r => if skipped c r then []
                   else [(c * BLOCK_SZ, r * BLOCK_SZ)%N])
         (upto WORLD_H))
    (upto WORLD_W).

(** *** [Game._populate] (render_system.ts, lines 584 to 620) *)

Section Populate.
Context {W : Type} `{EntityManager W} `{Factory W}.

(** A call on the store for which the event log has no entry. *)
Definition call {A} (c : W -> outcome A * W) : Eff W A :=
  fun w => let '(o, w') := c w in mkRes o w' [].

(** The body of the three [forEach] callbacks. *)
Definition place (construct : W -> outcome EntityId * W) (cr : N * N)
  : Eff W unit :=
  let '(c, r) := cr in
  id <- call construct ;;
  call (spatial_positionEntity id c r).

(** The cells [_populate] hands to the three loops. *)
Definition populate_deal : Deal :=
  let numRocks := 5%nat in
  let numGems := 5%nat in
  let coords := scan (fun _ _ => false) in
  let coords := shuffle coords in
  deal numRocks numGems coords.

(** [_populate] touches nothing of the session but [_em]: a computation
    on the store. *)
Definition _populate : Eff W unit :=
  (fun w => mkRes (em_getSystem SPATIAL w) w [EmGetSystem SPATIAL]) ;;
  forEach (place constructRock) (rockCoords populate_deal) ;;
  forEach (place constructGem) (gemCoords populate_deal) ;;
  forEach (place constructSoil) (soilCoords populate_deal).
End Populate.

(** *** map_loader.ts *)

Section MapLoader.
Context {R : Type} `{Span2d R}.

(** The loop over the rows of [desc], from row [row] on. *)
Fixpoint constructGravRegion_from (row : N) (desc : Span2dDesc)
  (gravRegion : R) : R :=
  match desc with
  | [] => gravRegion
  | spans :: below =>
      constructGravRegion_from (row + 1) below
        (fold_left
           (fun gr spanDesc =>
              span2d_addHorizontalSpan row (a spanDesc) (b spanDesc) gr)
           spans gravRegion)
  end.

Definition constructGravRegion (desc : Span2dDesc) : R :=
  constructGravRegion_from 0 desc span2d_new.

Definition gravRegion : Span2dDesc :=
  [ [mkSpanDesc 0 (Z.of_N WORLD_W - 1)];
    [mkSpanDesc 0 (Z.of_N WORLD_W - 1)];
    [mkSpanDesc 0 (Z.of_N WORLD_W - 1)];
    [mkSpanDesc 0 (Z.of_N WORLD_W - 1)];
    [mkSpanDesc 0 (Z.of_N WORLD_W - 1)];
    [];
    [];
    [];
    [];
    [];
    [];
    [mkSpanDesc 6 18];
    [mkSpanDesc 6 18];
    [mkSpanDesc 6 18];
    [mkSpanDesc 6 18];
    [mkSpanDesc 6 18] ].

(** The two tests of the loop body that [continue]. *)
Definition skipped (gr : R) (c r : N) : bool :=
  ((c =? 0)%N && (Z.of_N r =? Z.of_N WORLD_H - 1)%Z) || span2d_contains c r gr.

(** [{ type, data: { row: r, col: c } }] for a pair [[c, r]]. *)
Definition describe (t : EntityType) (cr : N * N) : EntityDesc :=
  let '(c, r) := cr in mkEntityDesc t (mkEntityData r c).

Definition loadMapData : MapData :=
  let entities := [] in
  let gr := constructGravRegion gravRegion in
  let numRocks := 20%nat in
  let numGems := 10%nat in
  let coords := scan (skipped gr) in
  let coords := shuffle coords in
  let d := deal numRocks numGems coords in
  let entities := entities ++ map (describe ROCK) (rockCoords d) in
  let entities := entities ++ map (describe GEM) (gemCoords d) in
  let entities := entities ++ map (describe SOIL) (soilCoords d) in
  mkMapData WORLD_W WORLD_H gravRegion entities.

(** Where a descriptor puts its entity: [(col, row)]. *)
Definition position (e : EntityDesc) : N * N := (col (data e), row (data e)).
End MapLoader.
End Config.

(** A cell of the grid, in block units, and the coordinates the loops
    push for it. *)
Definition is_cell (WORLD_W WORLD_H BLOCK_SZ : N) (c r : N) (xy : N * N) : Prop :=
  (c < WORLD_W)%N /\ (r < WORLD_H)%N /\ xy = (c * BLOCK_SZ, r * BLOCK_SZ)%N.

End Layout.

(** A store that can be populated, for the examples: the entities of
    [Ref.World], a position being recorded as a dirty packet. *)
Module RefBoard.
Definition construct (t : EntityType) (w : Ref.World)
  : outcome EntityId * Ref.World :=
  let id := (Ref.max_id (Ref.roster w) + 1)%N in
  (Returned id,
   Ref.mkWorld (Ref.moving w) (Ref.roster w ++ [mkEntity id t])
               (Ref.dirty w) (Ref.broken w)).

Definition positionEntity (id : EntityId) (x y : N) (w : Ref.World)
  : outcome unit * Ref.World :=
  (Returned tt,
   Ref.mkWorld (Ref.moving w) (Ref.roster w)
               (Ref.dirty w ++ [mkPacket id SPATIAL (x * 65536 + y)%N])
               (Ref.broken w)).

#[global] Instance factory : Factory Ref.World := {
  constructRock := construct ROCK;
  constructGem := construct GEM;
  constructSoil := construct SOIL;
  spatial_positionEntity := positionEntity
}.

Definition empty : Ref.World := Ref.mkWorld [] [] [] false.
End RefBoard.

(** A region for the examples: the spans that were added, row by row. *)
Module RefRegion.
Definition t := list (N * Z * Z).

Definition contains (x y : N) (gr : t) : bool :=
  existsb (fun s => let '(row, lo, hi) := s in
                    (row =? y)%N && (lo <=? Z.of_N x)%Z && (Z.of_N x <=? hi)%Z) gr.

#[global] Instance region : Span2d t := {
  span2d_new := [];
  span2d_addHorizontalSpan := fun row lo hi gr => gr ++ [(row, lo, hi)];
  span2d_contains := contains
}.
End RefRegion.

(* ================================================================== *)
(** ** The client's render system (render_system.ts, lines 67 to 502) *)

(** A JavaScript [Map] as the list of its entries in insertion order.
    [set] replaces the value of a key that is present and appends a new
    key; [delete] takes the entry of a key out; a map built from the empty
    one with these has no key twice. *)
Module JsMap.
Section Entries.
Variables K V : Type.
Variable eqb : K -> K -> bool.

Definition t := list (K * V).

Fixpoint get (k : K) (m : t) : option V :=
  match m with
  | [] => None
  | (k', v) :: rest => if eqb k k' then Some v else get k rest
  end.

Definition has (k : K) (m : t) : bool :=
  match get k m with
  | Some _ => true
  | None => false
  end.

Fixpoint set (k : K) (v : V) (m : t) : t :=
  match m with
  | [] => [(k, v)]
  | (k', v') :: rest =>
      if eqb k k' then (k, v) :: rest else (k', v') :: set k v rest
  end.

Fixpoint delete (k : K) (m : t) : t :=
  match m with
  | [] => []
  | (k', v') :: rest =>
      if eqb k k' then rest else (k', v') :: delete k rest
  end.

Definition size (m : t) : nat := List.length m.

Definition keys (m : t) : list K := map fst m.
End Entries.
End JsMap.

(** [`${n}`] for a number that is a natural. *)
Definition show (n : N) : string := NilZero.string_of_uint (N.to_uint n).

(** A PIXI display object (a sprite, an animated sprite, a tiling sprite,
    a graphics object) is known by its identity only. *)
Definition DisplayObject := N.

(** A texture of the sprite sheet: an opaque handle. *)
Definition Texture := N.

(** [PIXI.Spritesheet], as far as it is read: its two dictionaries; a
    name that is not in a dictionary gives [undefined]. *)
Module Spritesheet.
Record t := mk {
  textures : string -> option Texture;
  animations : string -> option (list Texture)
}.
End Spritesheet.

(** What the render system does to PIXI, call by call: the objects it
    makes with [new], the properties it sets on display objects, the
    methods it calls on them and on the stage.  These calls are taken to
    return; the one exception is [new PIXI.AnimatedSprite], see
    [Pixi]. *)
Inductive PixiCall :=
| NewAnimatedSprite (sprite : DisplayObject) (frames : option (list Texture))
| NewSprite (sprite : DisplayObject) (texture : option Texture)
| NewTilingSprite (sprite : DisplayObject) (texture : option Texture)
                  (width height : Q)
| SetAnimationSpeed (sprite : DisplayObject) (speed : Q)
| SetLoop (sprite : DisplayObject) (loop : bool)
| GotoAndPlay (sprite : DisplayObject) (frame : N)
| SetOnComplete (sprite : DisplayObject) (entityId : EntityId) (name : string)
                (onFinish : option N)
| PivotSet (object : DisplayObject) (x y : Q)
| PositionSet (object : DisplayObject) (x y : Q)
| SetRotation (object : DisplayObject) (angle : Q)
| BeginFill (graphics : DisplayObject) (colour : Z)
| DrawCircle (graphics : DisplayObject) (x y radius : Q)
| DrawRect (graphics : DisplayObject) (x y width height : Q)
| EndFill (graphics : DisplayObject)
| StageAddChild (child : DisplayObject)
| StageRemoveChild (child : DisplayObject).

(** [new PIXI.AnimatedSprite(textures)] either throws or makes a sprite;
    [pixi_AnimatedSprite textures] is then [sprite.textures.length].  What
    PIXI makes of a missing or an empty array is left to PIXI. *)
Class Pixi := {
  pixi_AnimatedSprite : option (list Texture) -> outcome nat
}.

(** [ClientSpatialComponent] (./client_spatial_component), as far as it
    is read. *)
Module ClientSpatialComponent.
Record t := mk {
  x : Q;
  y : Q;
  angle : Q
}.
End ClientSpatialComponent.

(** Modelled from the spec: the client's [EntityManager] is absent from
    the sources; the render system only asks it for the spatial component
    of an entity, [getComponent(ComponentType.SPATIAL, id)], a query that
    may throw. *)
Class ClientEntityManager (E : Type) := {
  em_getSpatialComponent : EntityId -> E -> outcome ClientSpatialComponent.t
}.

(** Modelled from the spec: [Scheduler] (./scheduler) is absent from the
    sources; [removeFunction(handle)] is a call that may change the
    scheduler and may throw. *)
Class Scheduler (Sch : Type) := {
  scheduler_removeFunction : Z -> Sch -> outcome unit * Sch
}.

Module AnimationDesc.
Record t := mk {
  duration : Q;
  name : string;
  endFrame : option string;
  endFrameDelayMs : option Q
}.
End AnimationDesc.

Module StaticImage.
Record t := mk { name : string }.
End StaticImage.

Module Animation.
Record t := mk {
  sprite : DisplayObject;
  endFrame : option string;
  endFrameDelayMs : option Q;
  setEndFrameFnHandle : Z
}.
End Animation.

Inductive RenderComponentType := SHAPE | SPRITE | TILED_REGION.

(** The numeric value of the enum, as a template string prints it. *)
Definition RenderComponentType_value (t : RenderComponentType) : N :=
  match t with
  | SHAPE => 0
  | SPRITE => 1
  | TILED_REGION => 2
  end.

(** Modelled from the spec: [Shape] (./common/geometry) is absent from
    the sources.  The render system reads [type], the [radius] of a circle
    and the [width] and [height] of a rectangle; [OtherShape] stands for
    the shapes of every other type, [Polygon] among them. *)
Inductive Shape :=
| Circle (radius : Q)
| Rectangle (width height : Q)
| OtherShape (type : N).

(** Modelled from the spec: [Span] and the [spans] of a [Span2d]
    (./common/span) are absent from the sources.  The render system goes
    through [region.spans] as pairs of a row and the spans of that row, and
    reads [a] and [b] of a span. *)
Module Span.
Record t := mk { a : Q; b : Q }.
End Span.

Definition Spans := list (Q * list Span.t).

Module ShapeRenderComponent.
Record t := mk {
  entityId : EntityId;
  shape : Shape;
  colour : Colour.t;
  graphics : DisplayObject
}.

(** [graphics] is the object the field initialiser makes with
    [new PIXI.Graphics()]. *)
Definition constructor (graphics : DisplayObject) (entityId : EntityId)
  (shape : Shape) (colour : Colour.t) : t :=
  mk entityId shape colour graphics.
End ShapeRenderComponent.

Module SpriteRenderComponent.
Record t := mk {
  entityId : EntityId;
  staticImages : list StaticImage.t;
  initialImage : string;
  animDescs : list AnimationDesc.t;
  staticSprites : JsMap.t string DisplayObject;
  animatedSprites : JsMap.t string Animation.t;
  stagedSprite : option DisplayObject;
  activeAnimation : option Animation.t
}.

Definition constructor (entityId : EntityId)
  (staticImages : list StaticImage.t) (animations : list AnimationDesc.t)
  (initialImage : string) : t :=
  mk entityId staticImages initialImage animations [] [] None None.

Definition with_staticSprites (m : JsMap.t string DisplayObject) (c : t) : t :=
  mk (entityId c) (staticImages c) (initialImage c) (animDescs c) m
     (animatedSprites c) (stagedSprite c) (activeAnimation c).

Definition with_animatedSprites (m : JsMap.t string Animation.t) (c : t) : t :=
  mk (entityId c) (staticImages c) (initialImage c) (animDescs c)
     (staticSprites c) m (stagedSprite c) (activeAnimation c).

Definition with_stagedSprite (s : option DisplayObject) (c : t) : t :=
  mk (entityId c) (staticImages c) (initialImage c) (animDescs c)
     (staticSprites c) (animatedSprites c) s (activeAnimation c).

Definition with_activeAnimation (an : option Animation.t) (c : t) : t :=
  mk (entityId c) (staticImages c) (initialImage c) (animDescs c)
     (staticSprites c) (animatedSprites c) (stagedSprite c) an.
End SpriteRenderComponent.

Module TiledRegionRenderComponent.
Record t := mk {
  entityId : EntityId;
  staticImages : list StaticImage.t;
  initialImage : string;
  region : Spans;
  sprites : JsMap.t string (list DisplayObject);
  stagedSprites : option string
}.

Definition constructor (entityId : EntityId) (region : Spans)
  (staticImages : list StaticImage.t) (initialImage : string) : t :=
  mk entityId staticImages initialImage region [] None.

Definition with_sprites (m : JsMap.t string (list DisplayObject)) (c : t) : t :=
  mk (entityId c) (staticImages c) (initialImage c) (region c) m
     (stagedSprites c).

Definition with_stagedSprites (s : option string) (c : t) : t :=
  mk (entityId c) (staticImages c) (initialImage c) (region c) (sprites c) s.
End TiledRegionRenderComponent.

(** A render component is an object of one of the three subclasses;
    [renderComponentType] is the tag its constructor sets. *)
Inductive RenderComponent :=
| ShapeComponent (c : ShapeRenderComponent.t)
| SpriteComponent (c : SpriteRenderComponent.t)
| TiledRegionComponent (c : TiledRegionRenderComponent.t).

Definition component_entityId (c : RenderComponent) : EntityId :=
  match c with
  | ShapeComponent c => ShapeRenderComponent.entityId c
  | SpriteComponent c => SpriteRenderComponent.entityId c
  | TiledRegionComponent c => TiledRegionRenderComponent.entityId c
  end.

Definition renderComponentType (c : RenderComponent) : RenderComponentType :=
  match c with
  | ShapeComponent _ => SHAPE
  | SpriteComponent _ => SPRITE
  | TiledRegionComponent _ => TILED_REGION
  end.

(** Modelled from the spec: [GameEvent] (./common/event) is absent from
    the sources; [EEntityMoved] carries the identity of the entity,
    [OtherEvent] stands for the events of every other type. *)
Inductive GameEvent :=
| EEntityMoved (entityId : EntityId)
| OtherEvent (type : N).

Module RenderSystem.
Local Open Scope Q_scope.

Section System.
Context {E Sch : Type} `{ClientEntityManager E} `{Scheduler Sch} `{Pixi}.

(** [BLOCK_SZ] of ./common/constants, absent from the sources. *)
Variable BLOCK_SZ : Q.

(** The render system and what it has done to PIXI so far: [log] holds
    its calls, oldest first, [made] counts the objects it has made with
    [new]; the [n]-th object made is the display object [n]. *)
Record t := mk {
  _components : JsMap.t EntityId RenderComponent;
  _em : E;
  _scheduler : Sch;
  _spriteSheet : option Spritesheet.t;
  log : list PixiCall;
  made : N
}.

Definition with_components (m : JsMap.t EntityId RenderComponent) (rs : t) : t :=
  mk m (_em rs) (_scheduler rs) (_spriteSheet rs) (log rs) (made rs).

Definition constructor (entityManager : E) (scheduler : Sch) : t :=
  mk [] entityManager scheduler None [] 0%N.

(** [throw new GameError(message)]. *)
Definition throw {A} (message : string) : Eff t A :=
  fun rs => mkRes (Thrown message) rs [].

Definition logged (calls : list PixiCall) (rs : t) : t :=
  mk (_components rs) (_em rs) (_scheduler rs) (_spriteSheet rs)
     (log rs ++ calls) (made rs).

(** A call to PIXI. *)
Definition pixi (c : PixiCall) : Eff t unit := modify (logged [c]).

(** A call on [_scheduler]. *)
Definition scheduler {A} (c : Sch -> outcome A * Sch) : Eff t A :=
  fun rs =>
    let '(o, sch) := c (_scheduler rs) in
    mkRes o (mk (_components rs) (_em rs) sch (_spriteSheet rs)
                (log rs) (made rs)) [].

(** A query on [_em]. *)
Definition em {A} (q : E -> outcome A) : Eff t A :=
  fun rs => mkRes (q (_em rs)) rs [].

(** [new]: the object made. *)
Definition fresh : Eff t DisplayObject :=
  object <- gets made ;;
  modify (fun rs => mk (_components rs) (_em rs) (_scheduler rs)
                       (_spriteSheet rs) (log rs) (made rs + 1)%N) ;;
  ret object.

(** An assignment to a field of the component [c], or a [set] on one of
    its maps: the object registered under the identity of [c] is then
    [c]. *)
Definition store (c : RenderComponent) : Eff t unit :=
  modify (fun rs => with_components
                      (JsMap.set N.eqb (component_entityId c) c (_components rs)) rs).

Definition setSpriteSheet (spriteSheet : Spritesheet.t) : Eff t unit :=
  modify (fun rs => mk (_components rs) (_em rs) (_scheduler rs)
                       (Some spriteSheet) (log rs) (made rs)).

Definition updateComponent (packet : ComponentPacket) : Eff t unit := ret tt.

Definition numComponents : Eff t nat :=
  gets (fun rs => JsMap.size (_components rs)).

Definition hasComponent (id : EntityId) : Eff t bool :=
  gets (fun rs => JsMap.has N.eqb id (_components rs)).

Definition getComponent (id : EntityId) : Eff t RenderComponent :=
  c <- gets (fun rs => JsMap.get N.eqb id (_components rs)) ;;
  match c with
  | None => throw ("No render component for entity " ++ show id)%string
  | Some c => ret c
  end.

Definition getSpriteComponent (id : EntityId) : Eff t SpriteRenderComponent.t :=
  c <- getComponent id ;;
  match c with
  | SpriteComponent c => ret c
  | _ => throw ("Render component (id=" ++ show id ++ ") is not of type SPRITE")%string
  end.

Definition _onEntityMoved (id : EntityId) : Eff t unit :=
  present <- hasComponent id ;;
  if (present : bool) then
    spatialComp <- em (em_getSpatialComponent id) ;;
    c_ <- getComponent id ;;
    match c_ with
    | SpriteComponent c =>
        match SpriteRenderComponent.stagedSprite c with
        | Some stagedSprite =>
            pixi (PivotSet stagedSprite (BLOCK_SZ * (1 # 2)) (BLOCK_SZ * (1 # 2))) ;;
            pixi (PositionSet stagedSprite
                              (ClientSpatialComponent.x spatialComp + BLOCK_SZ * (1 # 2))
                              (ClientSpatialComponent.y spatialComp + BLOCK_SZ * (1 # 2))) ;;
            pixi (SetRotation stagedSprite (ClientSpatialComponent.angle spatialComp))
        | None => ret tt
        end
    | ShapeComponent c =>
        let graphics := ShapeRenderComponent.graphics c in
        pixi (PivotSet graphics (BLOCK_SZ * (1 # 2)) (BLOCK_SZ * (1 # 2))) ;;
        pixi (PositionSet graphics
                          (ClientSpatialComponent.x spatialComp + BLOCK_SZ * (1 # 2))
                          (ClientSpatialComponent.y spatialComp + BLOCK_SZ * (1 # 2))) ;;
        pixi (SetRotation graphics (ClientSpatialComponent.angle spatialComp))
    | TiledRegionComponent _ => ret tt
    end
  else ret tt.

Definition handleEvent (event : GameEvent) : Eff t unit :=
  match event with
  | EEntityMoved entityId => _onEntityMoved entityId
  | OtherEvent _ => ret tt
  end.

Definition update : Eff t unit := ret tt.

Definition _spriteCompSetActiveSprite (c : SpriteRenderComponent.t)
  (name : string) (animated : bool) : Eff t unit :=
  match SpriteRenderComponent.stagedSprite c with
  | Some stagedSprite => pixi (StageRemoveChild stagedSprite)
  | None => ret tt
  end ;;
  match SpriteRenderComponent.activeAnimation c with
  | Some activeAnimation =>
      let endFrameFnHandle := Animation.setEndFrameFnHandle activeAnimation in
      scheduler (scheduler_removeFunction endFrameFnHandle)
  | None => ret tt
  end ;;
  (if animated then
     match JsMap.get String.eqb name (SpriteRenderComponent.animatedSprites c) with
     | None => throw ("Component has no sprite with name " ++ name)%string
     | Some anim =>
         pixi (StageAddChild (Animation.sprite anim)) ;;
         store (SpriteComponent
                  (SpriteRenderComponent.with_activeAnimation (Some anim)
                     (SpriteRenderComponent.with_stagedSprite
                        (Some (Animation.sprite anim)) c)))
     end
   else
     match JsMap.get String.eqb name (SpriteRenderComponent.staticSprites c) with
     | None => throw ("Component has no sprite with name " ++ name)%string
     | Some sprite =>
         pixi (StageAddChild sprite) ;;
         store (SpriteComponent
                  (SpriteRenderComponent.with_stagedSprite (Some sprite) c))
     end) ;;
  _onEntityMoved (SpriteRenderComponent.entityId c).

(** [sprites.forEach(sprite => this._pixi.stage.removeChild(sprite))] for
    the sprites staged under [c.stagedSprites], if there are any. *)
Definition unstage_tiles (c : TiledRegionRenderComponent.t) : Eff t unit :=
  match TiledRegionRenderComponent.stagedSprites c with
  | Some key =>
      match JsMap.get String.eqb key (TiledRegionRenderComponent.sprites c) with
      | Some sprites => forEach (fun sprite => pixi (StageRemoveChild sprite)) sprites
      | None => ret tt
      end
  | None => ret tt
  end.

Definition _tiledRegionCompSetActiveSprite (c : TiledRegionRenderComponent.t)
  (name : string) : Eff t unit :=
  unstage_tiles c ;;
  match JsMap.get String.eqb name (TiledRegionRenderComponent.sprites c) with
  | None => throw ("Component has no sprite with name " ++ name)%string
  | Some sprites =>
      forEach (fun sprite => pixi (StageAddChild sprite)) sprites ;;
      store (TiledRegionComponent
               (TiledRegionRenderComponent.with_stagedSprites (Some name) c))
  end.

(** The [onComplete] callback is installed, not run: what it does when
    PIXI calls it later is not part of this model. *)
Definition playAnimation (entityId : EntityId) (name : string)
  (onFinish : option N) : Eff t bool :=
  c <- getSpriteComponent entityId ;;
  match JsMap.get String.eqb name (SpriteRenderComponent.animatedSprites c) with
  | None =>
      throw ("Entity " ++ show entityId ++ " has no animation '" ++ name ++ "'")%string
  | Some anim =>
      _spriteCompSetActiveSprite c name true ;;
      pixi (SetLoop (Animation.sprite anim) false) ;;
      pixi (GotoAndPlay (Animation.sprite anim) 0) ;;
      pixi (SetOnComplete (Animation.sprite anim) entityId name onFinish) ;;
      ret true
  end.

Definition setCurrentImage (entityId : EntityId) (name : string) : Eff t unit :=
  c <- getComponent entityId ;;
  match c with
  | SpriteComponent c_ => _spriteCompSetActiveSprite c_ name false
  | TiledRegionComponent c_ => _tiledRegionCompSetActiveSprite c_ name
  | ShapeComponent _ =>
      throw ("Cannot set image on component of type "
             ++ show (RenderComponentType_value (renderComponentType c)))%string
  end.

Definition _addShapeComponent (c : ShapeRenderComponent.t) : Eff t unit :=
  let graphics := ShapeRenderComponent.graphics c in
  pixi (BeginFill graphics (Colour.value (ShapeRenderComponent.colour c))) ;;
  match ShapeRenderComponent.shape c with
  | Circle radius => pixi (DrawCircle graphics 0 0 radius)
  | Rectangle width height => pixi (DrawRect graphics 0 0 width height)
  | OtherShape type =>
      throw ("Render system doesn't support shapes of type " ++ show type)%string
  end ;;
  pixi (EndFill graphics) ;;
  pixi (StageAddChild graphics) ;;
  _onEntityMoved (ShapeRenderComponent.entityId c).

Definition _removeShapeComponent (c : ShapeRenderComponent.t) : Eff t unit :=
  pixi (StageRemoveChild (ShapeRenderComponent.graphics c)) ;;
  modify (fun rs => with_components
                      (JsMap.delete N.eqb (ShapeRenderComponent.entityId c)
                                    (_components rs)) rs).

(** A loop whose body changes the component it works on: the component
    is handed from one turn to the next. *)
Fixpoint forEach_on {A C} (body : C -> A -> Eff t C) (xs : list A) (c : C)
  : Eff t C :=
  match xs with
  | [] => ret c
  | x :: rest => c' <- body c x ;; forEach_on body rest c'
  end.

(** The body of the first loop of [_addSpriteComponent]. *)
Definition add_animation (c : SpriteRenderComponent.t) (anim : AnimationDesc.t)
  : Eff t SpriteRenderComponent.t :=
  spriteSheet <- gets _spriteSheet ;;
  match spriteSheet with
  | None => throw "Sprite sheet not set"%string
  | Some spriteSheet =>
      let frames := Spritesheet.animations spriteSheet (AnimationDesc.name anim) in
      match pixi_AnimatedSprite frames with
      | Thrown e => throw e
      | Returned length =>
          sprite <- fresh ;;
          pixi (NewAnimatedSprite sprite frames) ;;
          let defaultDuration := inject_Z (Z.of_nat length) / 60 in
          let speedUp := defaultDuration / AnimationDesc.duration anim in
          pixi (SetAnimationSpeed sprite speedUp) ;;
          let c' :=
            SpriteRenderComponent.with_animatedSprites
              (JsMap.set String.eqb (AnimationDesc.name anim)
                 (Animation.mk sprite (AnimationDesc.endFrame anim)
                               (AnimationDesc.endFrameDelayMs anim) (-1))
                 (SpriteRenderComponent.animatedSprites c)) c in
          store (SpriteComponent c') ;;
          ret c'
      end
  end.

(** The body of the second loop of [_addSpriteComponent]. *)
Definition add_static (c : SpriteRenderComponent.t) (imgDesc : StaticImage.t)
  : Eff t SpriteRenderComponent.t :=
  spriteSheet <- gets _spriteSheet ;;
  match spriteSheet with
  | None => throw "Sprite sheet not set"%string
  | Some spriteSheet =>
      let texture := Spritesheet.textures spriteSheet (StaticImage.name imgDesc) in
      sprite <- fresh ;;
      pixi (NewSprite sprite texture) ;;
      let c' :=
        SpriteRenderComponent.with_staticSprites
          (JsMap.set String.eqb (StaticImage.name imgDesc) sprite
             (SpriteRenderComponent.staticSprites c)) c in
      store (SpriteComponent c') ;;
      ret c'
  end.

Definition _addSpriteComponent (c : SpriteRenderComponent.t) : Eff t unit :=
  c <- forEach_on add_animation (SpriteRenderComponent.animDescs c) c ;;
  c <- forEach_on add_static (SpriteRenderComponent.staticImages c) c ;;
  _spriteCompSetActiveSprite c (SpriteRenderComponent.initialImage c) false.

Definition _removeSpriteComponent (c : SpriteRenderComponent.t) : Eff t unit :=
  match SpriteRenderComponent.stagedSprite c with
  | Some stagedSprite => pixi (StageRemoveChild stagedSprite)
  | None => ret tt
  end ;;
  modify (fun rs => with_components
                      (JsMap.delete N.eqb (SpriteRenderComponent.entityId c)
                                    (_components rs)) rs).

Definition _removeTiledRegionComponent (c : TiledRegionRenderComponent.t)
  : Eff t unit :=
  unstage_tiles c ;;
  modify (fun rs => with_components
                      (JsMap.delete N.eqb (TiledRegionRenderComponent.entityId c)
                                    (_components rs)) rs).

(** The body of the two nested loops over [c.region.spans]: one tiling
    sprite for the span [span] of row [j]. *)
Definition tile (texture : option Texture) (place : Q * Span.t)
  : Eff t DisplayObject :=
  let '(j, span) := place in
  let x := Span.a span * BLOCK_SZ in
  let y := j * BLOCK_SZ in
  let n := Span.b span - Span.a span + 1 in
  sprite <- fresh ;;
  pixi (NewTilingSprite sprite texture (n * BLOCK_SZ) BLOCK_SZ) ;;
  pixi (PositionSet sprite x y) ;;
  ret sprite.

(** A loop that pushes what each turn makes. *)
Fixpoint collect {A B} (body : A -> Eff t B) (xs : list A) : Eff t (list B) :=
  match xs with
  | [] => ret []
  | x :: rest =>
      y <- body x ;;
      ys <- collect body rest ;;
      ret (y :: ys)
  end.

(** The body of the loop of [_addTiledRegionComponent]. *)
Definition add_tiles (c : TiledRegionRenderComponent.t) (imgDesc : StaticImage.t)
  : Eff t TiledRegionRenderComponent.t :=
  spriteSheet <- gets _spriteSheet ;;
  match spriteSheet with
  | None => throw "Sprite sheet not set"%string
  | Some spriteSheet =>
      let texture := Spritesheet.textures spriteSheet (StaticImage.name imgDesc) in
      sprites <- collect (tile texture)
                   (flat_map (fun row => map (pair (fst row)) (snd row))
                             (TiledRegionRenderComponent.region c)) ;;
      let c' :=
        TiledRegionRenderComponent.with_sprites
          (JsMap.set String.eqb (StaticImage.name imgDesc) sprites
             (TiledRegionRenderComponent.sprites c)) c in
      store (TiledRegionComponent c') ;;
      ret c'
  end.

Definition _addTiledRegionComponent (c : TiledRegionRenderComponent.t)
  : Eff t unit :=
  c <- forEach_on add_tiles (TiledRegionRenderComponent.staticImages c) c ;;
  _tiledRegionCompSetActiveSprite c (TiledRegionRenderComponent.initialImage c).

Definition addComponent (component : RenderComponent) : Eff t unit :=
  store component ;;
  match component with
  | SpriteComponent c => _addSpriteComponent c
  | TiledRegionComponent c => _addTiledRegionComponent c
  | ShapeComponent c => _addShapeComponent c
  end.

Definition removeComponent (id : EntityId) : Eff t unit :=
  c <- getComponent id ;;
  match c with
  | SpriteComponent c => _removeSpriteComponent c
  | TiledRegionComponent c => _removeTiledRegionComponent c
  | ShapeComponent c => _removeShapeComponent c
  end.
(** A call of one of the public methods. *)
Inductive Request :=
| SetSpriteSheet (spriteSheet : Spritesheet.t)
| UpdateComponent (packet : ComponentPacket)
| AddComponent (component : RenderComponent)
| RemoveComponent (id : EntityId)
| SetCurrentImage (entityId : EntityId) (name : string)
| PlayAnimation (entityId : EntityId) (name : string) (onFinish : option N)
| HandleEvent (event : GameEvent)
| Update.

Definition perform (request : Request) : Eff t unit :=
  match request with
  | SetSpriteSheet spriteSheet => setSpriteSheet spriteSheet
  | UpdateComponent packet => updateComponent packet
  | AddComponent component => addComponent component
  | RemoveComponent id => removeComponent id
  | SetCurrentImage entityId name => setCurrentImage entityId name
  | PlayAnimation entityId name onFinish =>
      playAnimation entityId name onFinish ;; ret tt
  | HandleEvent event => handleEvent event
  | Update => update
  end.

(** The render system after a sequence of calls, each of which may have
    returned or thrown. *)
Definition serve (requests : list Request) (rs : t) : t :=
  fold_left (fun rs request => final (perform request rs)) requests rs.
End System.
Arguments t E Sch : clear implicits.

(** Every component is registered under its own identity, and no
    identity twice. *)
Definition well_keyed {E Sch : Type} (rs : t E Sch) : Prop :=
  NoDup (JsMap.keys (_components rs)) /\
  forall k c, In (k, c) (_components rs) -> component_entityId c = k.

(** The display objects of a component that the render system has put
    on the stage and not taken off again, as the component records
    them. *)
Definition staged_objects (c : RenderComponent) : list DisplayObject :=
  match c with
  | ShapeComponent c => [ShapeRenderComponent.graphics c]
  | SpriteComponent c =>
      match SpriteRenderComponent.stagedSprite c with
      | Some stagedSprite => [stagedSprite]
      | None => []
      end
  | TiledRegionComponent c =>
      match TiledRegionRenderComponent.stagedSprites c with
      | Some key =>
          match JsMap.get String.eqb key (TiledRegionRenderComponent.sprites c) with
          | Some sprites => sprites
          | None => []
          end
      | None => []
      end
  end.

(** [rs'] is [rs] but for the calls [calls] it has made to PIXI since. *)
Definition only_logged {E Sch : Type} (calls : list PixiCall)
  (rs rs' : t E Sch) : Prop :=
  _components rs' = _components rs /\
  _em rs' = _em rs /\
  _scheduler rs' = _scheduler rs /\
  _spriteSheet rs' = _spriteSheet rs /\
  made rs' = made rs /\
  log rs' = log rs ++ calls.

(** The children of the stage after the calls of [log], when they were
    [stage] before: [addChild] puts the child last, taking it out of the
    place it had, [removeChild] takes it out; the other calls leave the
    stage alone. *)
Definition without (child : DisplayObject) (stage : list DisplayObject)
  : list DisplayObject :=
  filter (fun c => negb (c =? child)%N) stage.

Fixpoint stage_after (log : list PixiCall) (stage : list DisplayObject)
  : list DisplayObject :=
  match log with
  | [] => stage
  | StageAddChild child :: rest => stage_after rest (without child stage ++ [child])
  | StageRemoveChild child :: rest => stage_after rest (without child stage)
  | _ :: rest => stage_after rest stage
  end.

(** [rs'] is [rs] but for [n] display objects it has made since and the
    calls it has made to PIXI for them, none of which touches the stage;
    the components may have changed. *)
Definition built {E Sch : Type} (n : nat) (rs rs' : t E Sch) : Prop :=
  _em rs' = _em rs /\
  _scheduler rs' = _scheduler rs /\
  _spriteSheet rs' = _spriteSheet rs /\
  made rs' = (made rs + N.of_nat n)%N /\
  exists calls, log rs' = log rs ++ calls /\
                forall stage, stage_after calls stage = stage.
End RenderSystem.

(** A client store, a scheduler and a PIXI for the examples: every entity
    is at the origin, every handle can be removed, an animated sprite
    needs at least one frame. *)
Module RefClient.
Definition em : ClientEntityManager unit :=
  Build_ClientEntityManager
    (fun _ _ => Returned (ClientSpatialComponent.mk 0 0 0)).

Definition scheduler : Scheduler unit :=
  Build_Scheduler (fun _ s => (Returned tt, s)).

Definition pixi : Pixi :=
  Build_Pixi (fun frames =>
                match frames with
                | Some (f :: fs) => Returned (List.length (f :: fs))
                | _ => Thrown "TypeError"%string
                end).

Definition sheet : Spritesheet.t :=
  Spritesheet.mk
    (fun name => if String.eqb name "man" then Some 1%N
                 else if String.eqb name "dig" then Some 2%N
                 else None)
    (fun name => if String.eqb name "run" then Some [3; 4]%N else None).

Definition man : SpriteRenderComponent.t :=
  SpriteRenderComponent.constructor 7%N
    [StaticImage.mk "man"; StaticImage.mk "dig"]
    [AnimationDesc.mk 1%Q "run" None None] "man".

(** A render system with blocks of 16 pixels after the sprite sheet was
    set and [man] was added. *)
Definition staged : RenderSystem.t unit unit :=
  @RenderSystem.serve unit unit em scheduler pixi 16%Q
    [RenderSystem.SetSpriteSheet sheet;
     RenderSystem.AddComponent (SpriteComponent man)]
    (RenderSystem.constructor tt tt).

(** [man] as it is registered then: the animated sprite is object 0, the
    two static sprites are objects 1 and 2, "man" is staged. *)
Definition man_staged : SpriteRenderComponent.t :=
  SpriteRenderComponent.mk 7%N
    [StaticImage.mk "man"; StaticImage.mk "dig"] "man"
    [AnimationDesc.mk 1%Q "run" None None]
    [("man"%string, 1%N); ("dig"%string, 2%N)]
    [("run"%string, Animation.mk 0%N None None (-1)%Z)]
    (Some 1%N) None.
(** A tiled region of three spans in two rows, with two images. *)
Definition field : TiledRegionRenderComponent.t :=
  TiledRegionRenderComponent.constructor 9%N
    [(0%Q, [Span.mk 0 3; Span.mk 5 6]); (1%Q, [Span.mk 2 2])]
    [StaticImage.mk "man"; StaticImage.mk "dig"] "man".

(** A render system with blocks of 16 pixels after the sprite sheet was
    set and [field] was added. *)
Definition tiled : RenderSystem.t unit unit :=
  @RenderSystem.serve unit unit em scheduler pixi 16%Q
    [RenderSystem.SetSpriteSheet sheet;
     RenderSystem.AddComponent (TiledRegionComponent field)]
    (RenderSystem.constructor tt tt).

(** [field] as it is registered then: the tiles of "man" are objects 0
    to 2, the tiles of "dig" are objects 3 to 5, "man" is staged. *)
Definition field_staged : TiledRegionRenderComponent.t :=
  TiledRegionRenderComponent.with_stagedSprites (Some "man"%string)
    (TiledRegionRenderComponent.with_sprites
       [("man"%string, [0; 1; 2]%N); ("dig"%string, [3; 4; 5]%N)] field).
End RefClient.

(** [m], run from a state of which [P] holds, ends in a state and with
    an outcome of which [Q] holds, whether it returns or throws. *)
Definition ensures {S A : Type} (P : S -> Prop) (m : Eff S A)
  (Q : outcome A -> S -> Prop) : Prop :=
  forall s, P s -> Q (result (m s)) (final (m s)).

(* ================================================================== *)
(** * Properties *)

Unset Implicit Arguments.

(** ** Computations *)

Section EffectFacts.
Context {S : Type}.

Lemma bind_eq {A B} (m : Eff S A) (f : A -> Eff S B) s a s' evs :
  m s = mkRes (Returned a) s' evs ->
  bind m f s =
  mkRes (result (f a s')) (final (f a s')) (evs ++ events (f a s')).
Proof. intros E. unfold bind. rewrite E. reflexivity. Qed.

Lemma bind_eq_thrown {A B} (m : Eff S A) (f : A -> Eff S B) s e s' evs :
  m s = mkRes (Thrown e) s' evs ->
  bind m f s = mkRes (Thrown e) s' evs.
Proof. intros E. unfold bind. rewrite E. reflexivity. Qed.

Lemma bind_chain {A B} (m : Eff S A) (f : A -> Eff S B)
  s a s' evs r s'' evs' all :
  m s = mkRes (Returned a) s' evs ->
  f a s' = mkRes r s'' evs' ->
  all = evs ++ evs' ->
  bind m f s = mkRes r s'' all.
Proof.
  intros E1 E2 ->. rewrite (bind_eq _ _ _ _ _ _ E1), E2. reflexivity.
Qed.

Lemma noThrow_returns {A} (fn : Eff S A) s :
  exists r, result (noThrow fn s) = Returned r.
Proof.
  unfold noThrow. destruct (result (fn s)); simpl; eauto.
Qed.

End EffectFacts.

(** ** Attempt logs *)

Lemma attempts_app l1 l2 : attempts (l1 ++ l2) = attempts l1 ++ attempts l2.
Proof.
  induction l1 as [|ev l1 IH]; simpl; [reflexivity|].
  destruct ev; simpl; rewrite ?IH; reflexivity.
Qed.

Lemma settle_app s l1 l2 : settle s (l1 ++ l2) = settle (settle s l1) l2.
Proof.
  revert s. induction l1 as [|[a v] l1 IH]; intros s; simpl; [reflexivity|].
  apply IH.
Qed.

Lemma settle_applied s l : Forall applied l -> settle s l = s.
Proof.
  intros F. revert s. induction F as [|[a v] l Hav _ IH]; intros s; simpl.
  - reflexivity.
  - unfold applied in Hav. simpl in Hav. subst v. simpl. apply IH.
Qed.

Lemma settle_failed s before a v since :
  failed v = true -> Forall applied since ->
  settle s (before ++ (a, v) :: since) = Some a.
Proof.
  intros Fv Fs. rewrite settle_app. simpl. rewrite Fv.
  apply settle_applied. exact Fs.
Qed.

(** The attempts split at the last failure, if there is one. *)
Lemma last_failure_split (atts : list (PlayerAction * Verdict)) :
  Forall applied atts \/
  exists before a v since,
    atts = before ++ (a, v) :: since /\ failed v = true /\ Forall applied since.
Proof.
  induction atts as [|[a v] atts IH].
  - left. constructor.
  - destruct IH as [F | (before & b & w & since & E & Fw & Fs)].
    + destruct v eqn:Ev.
      * left. constructor; [reflexivity | exact F].
      * right. exists [], a, Contended, atts. auto.
      * right. exists [], a, Unrecognised, atts. auto.
    + right. exists ((a, v) :: before), b, w, since. subst atts. auto.
Qed.

Lemma failures_applied evs :
  Forall applied (attempts evs) -> failures evs = [].
Proof.
  unfold failures. intros F.
  induction F as [|[a v] l Hav _ IH]; simpl; [reflexivity|].
  unfold applied in Hav. simpl in Hav. subst v. simpl. exact IH.
Qed.

(** When the failed attempts end with [b], the attempts split at an
    attempt of [b] that failed and after which nothing failed. *)
Lemma failures_last_split evs fs b :
  failures evs = fs ++ [b] ->
  exists before v since,
    attempts evs = before ++ (b, v) :: since /\
    failed v = true /\ Forall applied since.
Proof.
  unfold failures.
  destruct (last_failure_split (attempts evs))
    as [F | (before & a & v & since & E & Fv & Fs)]; intros Hf.
  - apply failures_applied in F. unfold failures in F. rewrite F in Hf.
    destruct fs; discriminate.
  - rewrite E in Hf. rewrite filter_app in Hf. simpl in Hf. rewrite Fv in Hf.
    assert (Hs : filter (fun av => failed (snd av)) since = []).
    { clear -Fs. induction Fs as [|[x w] l Hx _ IH]; simpl; [reflexivity|].
      unfold applied in Hx. simpl in Hx. subst w. exact IH. }
    rewrite Hs, map_app in Hf. simpl in Hf.
    apply app_inj_tail in Hf. destruct Hf as [_ Hb]. subst a.
    exists before, v, since. auto.
Qed.

(** ** The dispatcher, attempt by attempt *)

Section DispatcherFacts.
Context {W : Type} `{EntityManager W}.


Lemma handle_unrecognised tag p (gl : GameLogic.t W) :
  GameLogic._handlePlayerAction (OtherAction tag p) gl =
  mkRes (Returned false) gl
        [ConsoleLog Handling; Attempted (OtherAction tag p) Unrecognised].
Proof. reflexivity. Qed.

Lemma handle_move_busy p d (gl : GameLogic.t W) :
  systems_ready (GameLogic._entityManager gl) -> busy p (GameLogic._entityManager gl) ->
  GameLogic._handlePlayerAction (MoveAction p d) gl =
  mkRes (Returned false) (GameLogic.mk (GameLogic._entityManager gl) (Some (MoveAction p d)))
        [ConsoleLog Handling; EmGetSystem PHYSICS; EmGetSystem SPATIAL;
         SpatialEntityIsMoving p; Attempted (MoveAction p d) Contended].
Proof.
  intros [Hp Hs] Hb. unfold busy in Hb.
  unfold GameLogic._handlePlayerAction, GameLogic._movePlayer, bind,
    GameLogic.query, emit, ret, GameLogic.set_queuedAction, modify.
  simpl. rewrite Hp. simpl. rewrite Hs. simpl. rewrite Hb. simpl.
  reflexivity.
Qed.

Lemma handle_move_idle p d (gl : GameLogic.t W) w' :
  systems_ready (GameLogic._entityManager gl) -> idle p (GameLogic._entityManager gl) ->
  physics_moveEntity p d (GameLogic._entityManager gl) = (Returned tt, w') ->
  GameLogic._handlePlayerAction (MoveAction p d) gl =
  mkRes (Returned true) (GameLogic.mk w' (GameLogic._queuedAction gl))
        [ConsoleLog Handling; EmGetSystem PHYSICS; EmGetSystem SPATIAL;
         SpatialEntityIsMoving p; PhysicsMoveEntity p d;
         Attempted (MoveAction p d) Applied].
Proof.
  intros [Hp Hs] Hb Hm. unfold idle in Hb.
  unfold GameLogic._handlePlayerAction, GameLogic._movePlayer, bind,
    GameLogic.query, GameLogic.command, emit, ret.
  simpl. rewrite Hp. simpl. rewrite Hs. simpl. rewrite Hb. simpl.
  rewrite Hm. simpl. reflexivity.
Qed.

(** What the recorded verdict of an attempt stands for: [Contended] is
    recorded exactly when the spatial system answered that the target is
    in motion, [Applied] when it answered that it is not and the move
    command returned, [Unrecognised] when the action is not a move; an
    attempt that records nothing has thrown. *)
Lemma verdict_meaning a (gl : GameLogic.t W) :
  match attempts (events (GameLogic._handlePlayerAction a gl)) with
  | [] => exists e, result (GameLogic._handlePlayerAction a gl) = Thrown e
  | [(a', Contended)] =>
      a' = a /\ exists p d, a = MoveAction p d /\
      systems_ready (GameLogic._entityManager gl) /\
      busy p (GameLogic._entityManager gl)
  | [(a', Applied)] =>
      a' = a /\ exists p d, a = MoveAction p d /\
      systems_ready (GameLogic._entityManager gl) /\
      idle p (GameLogic._entityManager gl) /\
      fst (physics_moveEntity p d (GameLogic._entityManager gl)) = Returned tt
  | [(a', Unrecognised)] => a' = a /\ exists tag p, a = OtherAction tag p
  | _ :: _ :: _ => False
  end.
Proof.
  destruct a as [p d | tag p].
  - unfold systems_ready, busy, idle.
    unfold GameLogic._handlePlayerAction, GameLogic._movePlayer, bind,
      GameLogic.query, GameLogic.command, emit, ret,
      GameLogic.set_queuedAction, modify.
    simpl.
    destruct (em_getSystem PHYSICS (GameLogic._entityManager gl))
      as [[]|e] eqn:Ep; simpl; [|eauto].
    destruct (em_getSystem SPATIAL (GameLogic._entityManager gl))
      as [[]|e] eqn:Es; simpl; [|eauto].
    destruct (spatial_entityIsMoving p (GameLogic._entityManager gl))
      as [[|]|e] eqn:Em; simpl; [| |eauto].
    + split; [reflexivity|]. exists p, d. auto.
    + destruct (physics_moveEntity p d (GameLogic._entityManager gl))
        as [[[]|e] w'] eqn:Ec; simpl; [|eauto].
      split; [reflexivity|]. exists p, d. rewrite Ec. auto.
  - rewrite handle_unrecognised. simpl. split; [reflexivity|]. eauto.
Qed.

Lemma handle_ends a gl :
  attempt_ends a gl (GameLogic._handlePlayerAction a gl).
Proof.
  destruct a as [p d | tag p].
  - unfold GameLogic._handlePlayerAction, GameLogic._movePlayer, bind,
      GameLogic.query, GameLogic.command, emit, ret,
      GameLogic.set_queuedAction, modify.
    simpl.
    destruct (em_getSystem PHYSICS (GameLogic._entityManager gl)) as [[]|e]; simpl;
      [|eapply ends_thrown; reflexivity].
    destruct (em_getSystem SPATIAL (GameLogic._entityManager gl)) as [[]|e]; simpl;
      [|eapply ends_thrown; reflexivity].
    destruct (spatial_entityIsMoving p (GameLogic._entityManager gl)) as [[|]|e]; simpl;
      [| |eapply ends_thrown; reflexivity].
    + eapply ends_failed with (v := Contended); simpl; eauto.
    + destruct (physics_moveEntity p d (GameLogic._entityManager gl)) as [[[]|e] w']; simpl.
      * eapply ends_applied; simpl; eauto.
      * eapply ends_thrown; reflexivity.
  - rewrite handle_unrecognised.
    eapply ends_failed with (v := Unrecognised); simpl; eauto.
Qed.

Opaque GameLogic._handlePlayerAction.

Lemma resolve_one_ends a gl :
  turn_ends a gl (GameLogic.resolve_one a gl).
Proof.
  unfold GameLogic.resolve_one, bind.
  generalize (handle_ends a gl).
  generalize (GameLogic._handlePlayerAction a gl) as r.
  intros [res fin evs] [Hr Ha Hs Hv | v Hr Ha Hf Hv Hs | e Hr Ha Hs];
    simpl in *; subst res; simpl.
  - eapply turn_applied; simpl; rewrite ?app_nil_r; auto.
  - eapply turn_failed with (v := v); simpl; rewrite ?app_nil_r; auto.
  - eapply turn_thrown; simpl; eauto.
Qed.

Opaque GameLogic.resolve_one.

Lemma forEach_resolve actions : forall gl,
  let r := forEach GameLogic.resolve_one actions gl in
  GameLogic._queuedAction (final r) = settle (GameLogic._queuedAction gl) (attempts (events r)) /\
  well_formed (attempts (events r)) /\
  (forall av, In av (attempts (events r)) -> In (fst av) actions).
Proof.
  induction actions as [|a actions IH]; intros gl; simpl.
  - repeat split; [constructor | intros av []].
  - unfold bind.
    generalize (resolve_one_ends a gl).
    generalize (GameLogic.resolve_one a gl) as r1.
    intros [res fin evs] [Hr Ha Hs Hv | v Hr Ha Hf Hv Hs | e Hr Ha Hs];
      simpl in *; subst res; simpl.
    + destruct (IH fin) as (I1 & I2 & I3).
      rewrite attempts_app, Ha. simpl. rewrite I1, Hs.
      repeat split; auto.
      * constructor; auto.
      * intros av [<- | Hin]; simpl; auto.
    + destruct (IH fin) as (I1 & I2 & I3).
      rewrite attempts_app, Ha. simpl. rewrite I1, Hs, Hf.
      repeat split; auto.
      * constructor; auto.
      * intros av [<- | Hin]; simpl; auto.
    + rewrite Ha, Hs.
      repeat split; [constructor | intros av []].
Qed.

Lemma retry_queued_ends gl : retry_ends gl (GameLogic.retry_queued gl).
Proof.
  unfold GameLogic.retry_queued, gets, bind. simpl.
  destruct (GameLogic._queuedAction gl) as [a|] eqn:Es.
  - generalize (handle_ends a gl).
    generalize (GameLogic._handlePlayerAction a gl) as r1.
    intros [res fin evs] [Hr Ha Hs Hv | v Hr Ha Hf Hv Hs | e Hr Ha Hs];
      simpl in *; subst res; simpl.
    + apply retry_applied with (a := a); simpl; rewrite ?app_nil_r; auto.
    + apply retry_failed with (a := a) (v := v); simpl; rewrite ?app_nil_r; auto.
      destruct Hs as [Hs|Hs]; rewrite Hs; auto.
    + apply retry_thrown with (a := a) (e := e); simpl; auto.
      rewrite Hs. exact Es.
  - apply retry_none; [exact Es|]. destruct gl; reflexivity.
Qed.

Opaque GameLogic.retry_queued.

(** The slot after a pass is the one the attempts of the pass determine. *)
Lemma update_resolve actions gl :
  let r := GameLogic.update actions gl in
  GameLogic._queuedAction (final r) = pass_slot (GameLogic._queuedAction gl) (attempts (events r)) /\
  well_formed (attempts (events r)) /\
  (forall av, In av (attempts (events r)) ->
     GameLogic._queuedAction gl = Some (fst av) \/ In (fst av) actions) /\
  (forall a, GameLogic._queuedAction gl = Some a ->
     attempts (events r) = [] \/
     exists v rest, attempts (events r) = (a, v) :: rest).
Proof.
  unfold GameLogic.update, bind.
  generalize (retry_queued_ends gl).
  generalize (GameLogic.retry_queued gl) as r1.
  intros [res fin evs]
    [Es E | a Es Hr Ha Hs Hv | a v Es Hr Ha Hf Hv Hs | a e Es Hr Ha Hs];
    simpl in *.
  - injection E as -> -> ->. simpl.
    destruct (forEach_resolve actions gl) as (I1 & I2 & I3).
    rewrite I1, Es.
    split; [reflexivity|]. split; [exact I2|]. split.
    + intros av Hin. right. apply I3. exact Hin.
    + intros a Ea. discriminate.
  - subst res. simpl.
    destruct (forEach_resolve actions fin) as (I1 & I2 & I3).
    rewrite attempts_app, Ha, Es. simpl. rewrite I1, Hs.
    split; [reflexivity|]. split; [constructor; auto|]. split.
    + intros av [<- | Hin]; simpl; auto.
    + intros b [= <-]. right. eauto.
  - subst res. simpl.
    destruct (forEach_resolve actions fin) as (I1 & I2 & I3).
    rewrite attempts_app, Ha, Es. simpl. rewrite I1, Hs, Hf.
    split; [reflexivity|]. split; [constructor; auto|]. split.
    + intros av [<- | Hin]; simpl; auto.
    + intros b [= <-]. right. eauto.
  - subst res. simpl. rewrite Ha, Hs, Es.
    split; [reflexivity|]. split; [constructor|]. split.
    + intros av [].
    + intros b _. left. reflexivity.
Qed.
(** With collaborators that do not throw, a pass returns. *)
Lemma update_returns actions (gl : GameLogic.t W) :
  (forall c w, em_getSystem c w = Returned tt) ->
  (forall p w, exists b, spatial_entityIsMoving p w = Returned b) ->
  (forall p d w, exists w', physics_moveEntity p d w = (Returned tt, w')) ->
  result (GameLogic.update actions gl) = Returned tt.
Proof.
  intros Hsys Hq Hm.
  assert (Hh : forall a g, exists ok,
             result (GameLogic._handlePlayerAction a g) = Returned ok).
  { Transparent GameLogic._handlePlayerAction.
    intros [p d | tag p] g; [|exists false; reflexivity].
    destruct (Hq p (GameLogic._entityManager g)) as [b Hb].
    destruct (Hm p d (GameLogic._entityManager g)) as [w' Hw'].
    unfold GameLogic._handlePlayerAction, GameLogic._movePlayer, bind,
      GameLogic.query, GameLogic.command, emit, ret,
      GameLogic.set_queuedAction, modify.
    simpl. rewrite !Hsys. simpl. rewrite Hb. simpl.
    destruct b; simpl; [eauto|]. rewrite Hw'. simpl. eauto.
    Opaque GameLogic._handlePlayerAction. }
  assert (Hone : forall a g, result (GameLogic.resolve_one a g) = Returned tt).
  { Transparent GameLogic.resolve_one.
    intros a g. unfold GameLogic.resolve_one, bind.
    destruct (Hh a g) as [ok Hok]. rewrite Hok. destruct ok; reflexivity.
    Opaque GameLogic.resolve_one. }
  assert (Hall : forall l g,
             result (forEach GameLogic.resolve_one l g) = Returned tt).
  { induction l as [|a l IH]; intros g; simpl; [reflexivity|].
    unfold bind. rewrite Hone. simpl. apply IH. }
  unfold GameLogic.update, bind.
  destruct (retry_queued_ends gl)
    as [Es E | a Es Hr _ _ _ | a v Es Hr _ _ _ _ | a e Es Hr _ _].
  - rewrite E. simpl. apply Hall.
  - rewrite Hr. simpl. apply Hall.
  - rewrite Hr. simpl. apply Hall.
  - exfalso. revert Hr.
    Transparent GameLogic.retry_queued.
    unfold GameLogic.retry_queued, gets, bind. simpl. rewrite Es.
    destruct (Hh a gl) as [ok Hok]. rewrite Hok. destruct ok; discriminate.
    Opaque GameLogic.retry_queued.
Qed.
End DispatcherFacts.



(** ** The dispatcher, pass by pass *)

Lemma settle_from s atts x :
  settle s atts = Some x -> s = Some x \/ exists v, In (x, v) atts.
Proof.
  revert s. induction atts as [|[a v] atts IH]; intros s; simpl.
  - auto.
  - intros E. apply IH in E. destruct E as [E | [v' Hin]].
    + destruct (failed v).
      * injection E as <-. right. exists v. auto.
      * auto.
    + right. exists v'. auto.
Qed.

Lemma pass_slot_from s atts x :
  pass_slot s atts = Some x -> s = Some x \/ exists v, In (x, v) atts.
Proof.
  unfold pass_slot. destruct s as [a|].
  - destruct atts as [|[a' v] rest]; [auto|].
    intros E. apply settle_from in E. destruct E as [E | [v' Hin]].
    + destruct (failed v); [auto | discriminate].
    + right. exists v'. simpl. auto.
  - apply settle_from.
Qed.

Lemma pass_slot_last_failure s atts before b v since :
  held_first s atts ->
  atts = before ++ (b, v) :: since -> failed v = true ->
  Forall applied since ->
  pass_slot s atts = Some b.
Proof.
  intros Hfirst E Fv Fs. destruct s as [a|].
  - destruct (Hfirst a eq_refl) as [E0 | (v0 & rest & E0)].
    + rewrite E0 in E. destruct before; discriminate.
    + rewrite E0 in E. rewrite E0. simpl.
      destruct before as [|x before]; simpl in E.
      * injection E as -> -> ->. rewrite Fv. apply settle_applied. exact Fs.
      * injection E as _ ->. apply settle_failed; assumption.
  - subst atts. unfold pass_slot. apply settle_failed; assumption.
Qed.

Lemma pass_slot_all_applied s atts :
  held_first s atts -> Forall applied atts ->
  pass_slot s atts = match atts with [] => s | _ :: _ => None end.
Proof.
  intros Hfirst F. destruct s as [a|].
  - destruct (Hfirst a eq_refl) as [E0 | (v0 & rest & E0)]; subst atts.
    + reflexivity.
    + simpl. inversion F as [|x l Hx Hl]; subst.
      unfold applied in Hx. simpl in Hx. subst v0. simpl.
      apply settle_applied. exact Hl.
  - unfold pass_slot. rewrite settle_applied by exact F.
    destruct atts; reflexivity.
Qed.

Section PassFacts.
Context {W : Type} `{EntityManager W}.

Lemma update_held_first actions (gl : GameLogic.t W) :
  held_first (GameLogic._queuedAction gl)
             (attempts (events (GameLogic.update actions gl))).
Proof. intros a. apply (update_resolve actions gl). Qed.

(** A failed attempt after which nothing fails in the pass leaves its
    action in the slot. *)
Lemma update_last_failure actions (gl : GameLogic.t W) before b v since :
  attempts (events (GameLogic.update actions gl)) = before ++ (b, v) :: since ->
  failed v = true -> Forall applied since ->
  GameLogic._queuedAction (final (GameLogic.update actions gl)) = Some b.
Proof.
  intros E Fv Fs.
  destruct (update_resolve actions gl) as (Hs & _).
  rewrite Hs. eapply pass_slot_last_failure; eauto.
  apply update_held_first.
Qed.

Lemma pass_preserves_invariant actions (gl : GameLogic.t W) history :
  slot_invariant (GameLogic._queuedAction gl) history ->
  slot_invariant (GameLogic._queuedAction (final (GameLogic.update actions gl)))
                 (history ++ events (GameLogic.update actions gl)).
Proof.
  intros Inv.
  destruct (update_resolve actions gl) as (Hs & Hwf & _ & Hfirst).
  rewrite Hs.
  destruct (last_failure_split (attempts (events (GameLogic.update actions gl))))
    as [F | (before & b & v & since & E & Fv & Fs)].
  - rewrite pass_slot_all_applied by assumption.
    destruct (attempts (events (GameLogic.update actions gl))) eqn:E.
    + destruct (GameLogic._queuedAction gl); [|exact I].
      simpl in *. rewrite attempts_app, E, app_nil_r. exact Inv.
    + exact I.
  - rewrite pass_slot_last_failure
      with (before := before) (b := b) (v := v) (since := since)
      by assumption.
    simpl.
    exists v, (attempts history ++ before), since.
    rewrite attempts_app, E, app_assoc. repeat split; auto.
    unfold well_formed in Hwf. rewrite E in Hwf.
    apply Forall_app in Hwf. destruct Hwf as [_ Hwf].
    inversion Hwf; subst. assumption.
Qed.

Lemma passes_cons (s : option PlayerAction) (w : W) actions later :
  passes s ((w, actions) :: later) =
  (fst (passes (GameLogic._queuedAction
                  (final (GameLogic.update actions (GameLogic.mk w s)))) later),
   events (GameLogic.update actions (GameLogic.mk w s)) ::
   snd (passes (GameLogic._queuedAction
                  (final (GameLogic.update actions (GameLogic.mk w s)))) later)).
Proof.
  simpl. destruct (passes _ later). reflexivity.
Qed.

Lemma passes_invariant (ticks : list (W * list PlayerAction)) :
  forall s history,
    slot_invariant s history ->
    slot_invariant (fst (passes s ticks))
                   (history ++ List.concat (snd (passes s ticks))).
Proof.
  induction ticks as [|[w actions] later IH]; intros s history Inv.
  - simpl. rewrite app_nil_r. exact Inv.
  - rewrite passes_cons. simpl. rewrite app_assoc.
    apply IH.
    apply (pass_preserves_invariant actions (GameLogic.mk w s)). exact Inv.
Qed.

(** Whatever is attempted was held or queued. *)
Lemma passes_attempted (ticks : list (W * list PlayerAction)) :
  forall s evs x v,
    In evs (snd (passes s ticks)) -> In (x, v) (attempts evs) ->
    s = Some x \/ exists t, In t ticks /\ In x (snd t).
Proof.
  induction ticks as [|[w actions] later IH]; intros s evs x v Hevs Hx.
  - destruct Hevs.
  - rewrite passes_cons in Hevs. simpl in Hevs.
    destruct (update_resolve actions (GameLogic.mk w s)) as (Hs & _ & Hfrom & _).
    destruct Hevs as [<- | Hevs].
    + apply Hfrom in Hx. simpl in Hx. destruct Hx as [Hx | Hx]; [auto|].
      right. exists (w, actions). simpl. auto.
    + destruct (IH _ _ _ _ Hevs Hx) as [E | (t & Ht & Hin)].
      * rewrite Hs in E. apply pass_slot_from in E. simpl in E.
        destruct E as [E | [v' Hin]]; [auto|].
        apply Hfrom in Hin. simpl in Hin. destruct Hin as [Hin | Hin]; [auto|].
        right. exists (w, actions). simpl. auto.
      * right. exists t. simpl. auto.
Qed.
End PassFacts.

(** ** Passes that start with an action held *)


Section HeldFacts.
Context {W : Type} `{EntityManager W}.
Opaque GameLogic._handlePlayerAction GameLogic.resolve_one GameLogic.retry_queued.

Lemma retry_queued_held (gl : GameLogic.t W) a :
  GameLogic._queuedAction gl = Some a ->
  GameLogic.retry_queued gl =
  let r := GameLogic._handlePlayerAction a gl in
  match result r with
  | Returned true =>
      mkRes (Returned tt) (GameLogic.mk (GameLogic._entityManager (final r)) None)
            (events r)
  | Returned false => mkRes (Returned tt) (final r) (events r)
  | Thrown e => mkRes (Thrown e) (final r) (events r)
  end.
Proof.
  Transparent GameLogic.retry_queued.
  intros Es. unfold GameLogic.retry_queued, gets, bind. simpl. rewrite Es.
  generalize (GameLogic._handlePlayerAction a gl) as r.
  intros [[[|]|e] fin evs]; simpl; rewrite ?app_nil_r; reflexivity.
  Opaque GameLogic.retry_queued.
Qed.

Lemma retry_queued_empty (gl : GameLogic.t W) :
  GameLogic._queuedAction gl = None ->
  GameLogic.retry_queued gl = mkRes (Returned tt) gl [].
Proof.
  Transparent GameLogic.retry_queued.
  intros Es. unfold GameLogic.retry_queued, gets, bind. simpl. rewrite Es.
  reflexivity.
  Opaque GameLogic.retry_queued.
Qed.

Lemma resolve_one_from a (gl : GameLogic.t W) (ok : bool) gl' evs :
  GameLogic._handlePlayerAction a gl = mkRes (Returned ok) gl' evs ->
  GameLogic.resolve_one a gl =
  mkRes (Returned tt)
        (if ok then gl' else GameLogic.mk (GameLogic._entityManager gl') (Some a))
        evs.
Proof.
  Transparent GameLogic.resolve_one.
  intros E. unfold GameLogic.resolve_one.
  rewrite (bind_eq _ _ _ _ _ _ E).
  destruct ok; simpl; rewrite app_nil_r; reflexivity.
  Opaque GameLogic.resolve_one.
Qed.

Lemma update_held_failing (w : W) a q gl' evs :
  GameLogic._handlePlayerAction a (GameLogic.mk w (Some a))
    = mkRes (Returned false) gl' evs ->
  GameLogic.update q (GameLogic.mk w (Some a)) =
  mkRes (result (forEach GameLogic.resolve_one q gl'))
        (final (forEach GameLogic.resolve_one q gl'))
        (evs ++ events (forEach GameLogic.resolve_one q gl')).
Proof.
  intros E. unfold GameLogic.update, bind.
  rewrite (retry_queued_held (GameLogic.mk w (Some a)) a eq_refl), E.
  reflexivity.
Qed.

Lemma update_held_applied (w : W) a q gl' evs :
  GameLogic._handlePlayerAction a (GameLogic.mk w (Some a))
    = mkRes (Returned true) gl' evs ->
  GameLogic.update q (GameLogic.mk w (Some a)) =
  mkRes (result (forEach GameLogic.resolve_one q
                   (GameLogic.mk (GameLogic._entityManager gl') None)))
        (final (forEach GameLogic.resolve_one q
                   (GameLogic.mk (GameLogic._entityManager gl') None)))
        (evs ++ events (forEach GameLogic.resolve_one q
                   (GameLogic.mk (GameLogic._entityManager gl') None))).
Proof.
  intros E. unfold GameLogic.update, bind.
  rewrite (retry_queued_held (GameLogic.mk w (Some a)) a eq_refl), E.
  reflexivity.
Qed.

(** A pass that starts with a held action whose attempt fails, and in
    which nothing fails later, starts with that attempt and ends with the
    action still held. *)
Lemma held_failing_pass (w : W) a q gl' evs v :
  GameLogic._handlePlayerAction a (GameLogic.mk w (Some a))
    = mkRes (Returned false) gl' evs ->
  attempts evs = [(a, v)] -> failed v = true ->
  no_later_failure a (w, q) ->
  exists rest,
    events (GameLogic.update q (GameLogic.mk w (Some a))) = evs ++ rest /\
    first_attempt (events (GameLogic.update q (GameLogic.mk w (Some a))))
      = Some (a, v) /\
    GameLogic._queuedAction
      (final (GameLogic.update q (GameLogic.mk w (Some a)))) = Some a.
Proof.
  intros E Ea Fv Hq. unfold no_later_failure in Hq. simpl in Hq.
  assert (Hatt : attempts (events (GameLogic.update q (GameLogic.mk w (Some a))))
                 = [] ++ (a, v) :: attempts (events (forEach GameLogic.resolve_one q gl'))).
  { rewrite (update_held_failing w a q gl' evs E). simpl. rewrite attempts_app, Ea. reflexivity. }
  eexists. split; [|split].
  - rewrite (update_held_failing w a q gl' evs E). reflexivity.
  - unfold first_attempt. rewrite Hatt. reflexivity.
  - eapply update_last_failure; [exact Hatt | exact Fv |].
    rewrite Hatt in Hq. exact Hq.
Qed.

(** The same when the attempt succeeds: the pass ends with the slot
    empty. *)
Lemma held_applied_pass (w : W) a q gl' evs :
  GameLogic._handlePlayerAction a (GameLogic.mk w (Some a))
    = mkRes (Returned true) gl' evs ->
  attempts evs = [(a, Applied)] ->
  no_later_failure a (w, q) ->
  exists rest,
    events (GameLogic.update q (GameLogic.mk w (Some a))) = evs ++ rest /\
    first_attempt (events (GameLogic.update q (GameLogic.mk w (Some a))))
      = Some (a, Applied) /\
    GameLogic._queuedAction
      (final (GameLogic.update q (GameLogic.mk w (Some a)))) = None.
Proof.
  intros E Ea Hq. unfold no_later_failure in Hq. simpl in Hq.
  assert (Hatt : attempts (events (GameLogic.update q (GameLogic.mk w (Some a))))
                 = (a, Applied) ::
                   attempts (events (forEach GameLogic.resolve_one q
                      (GameLogic.mk (GameLogic._entityManager gl') None)))).
  { rewrite (update_held_applied w a q gl' evs E). simpl. rewrite attempts_app, Ea. reflexivity. }
  eexists. split; [|split].
  - rewrite (update_held_applied w a q gl' evs E). reflexivity.
  - unfold first_attempt. rewrite Hatt. reflexivity.
  - destruct (update_resolve q (GameLogic.mk w (Some a))) as (Hs & _).
    rewrite Hs, Hatt. simpl. apply settle_applied.
    rewrite Hatt in Hq. exact Hq.
Qed.
End HeldFacts.

(** ** The claims about the retry slot *)


Section RetryClaims.
Context {W : Type} `{EntityManager W}.
Opaque GameLogic._handlePlayerAction.
Transparent GameLogic.resolve_one GameLogic.retry_queued.

Lemma update_fresh_move_idle p d (gl : GameLogic.t W) w' :
  GameLogic._queuedAction gl = None ->
  systems_ready (GameLogic._entityManager gl) ->
  idle p (GameLogic._entityManager gl) ->
  physics_moveEntity p d (GameLogic._entityManager gl) = (Returned tt, w') ->
  GameLogic.update [MoveAction p d] gl =
  mkRes (Returned tt) (GameLogic.mk w' None)
        [ConsoleLog Handling; EmGetSystem PHYSICS; EmGetSystem SPATIAL;
         SpatialEntityIsMoving p; PhysicsMoveEntity p d;
         Attempted (MoveAction p d) Applied].
Proof.
  intros Es Hr Hi Hm.
  unfold GameLogic.update.
  rewrite (bind_eq _ _ _ _ _ _ (retry_queued_empty gl Es)). simpl forEach.
  rewrite (bind_eq _ _ _ _ _ _
             (resolve_one_from (MoveAction p d) gl true _ _
                (handle_move_idle p d gl w' Hr Hi Hm))).
  simpl. rewrite Es. reflexivity.
Qed.

Lemma retried_while_busy p d (busy_ticks : list (W * list PlayerAction)) :
  forall w q w',
    Forall (fun t => systems_ready (fst t) /\ busy p (fst t) /\
                     no_later_failure (MoveAction p d) t) busy_ticks ->
    systems_ready w -> idle p w ->
    physics_moveEntity p d w = (Returned tt, w') ->
    no_later_failure (MoveAction p d) (w, q) ->
    fst (passes (Some (MoveAction p d)) (busy_ticks ++ [(w, q)])) = None /\
    map first_attempt
        (snd (passes (Some (MoveAction p d)) (busy_ticks ++ [(w, q)])))
      = repeat (Some (MoveAction p d, Contended)) (List.length busy_ticks)
        ++ [Some (MoveAction p d, Applied)] /\
    In (PhysicsMoveEntity p d)
       (last (snd (passes (Some (MoveAction p d)) (busy_ticks ++ [(w, q)]))) []).
Proof.
  induction busy_ticks as [|[wb qb] later IH]; intros w q w' Hbusy Hr Hi Hm Hq.
  - simpl app. rewrite passes_cons. simpl passes. simpl fst. simpl snd.
    destruct (held_applied_pass w (MoveAction p d) q _ _
                (handle_move_idle p d (GameLogic.mk w (Some (MoveAction p d)))
                                  w' Hr Hi Hm)
                eq_refl Hq) as (rest & Hev & Hfirst & Hslot).
    split; [exact Hslot|]. split.
    + simpl. rewrite Hfirst. reflexivity.
    + simpl. rewrite Hev. simpl. auto 10.
  - inversion Hbusy as [|t l (Hrb & Hb & Hqb) Hl]; subst.
    simpl in Hrb, Hb.
    destruct (held_failing_pass wb (MoveAction p d) qb _ _ Contended
                (handle_move_busy p d (GameLogic.mk wb (Some (MoveAction p d)))
                                  Hrb Hb)
                eq_refl eq_refl Hqb) as (rest & Hev & Hfirst & Hslot).
    rewrite <- app_comm_cons, passes_cons, Hslot.
    destruct (IH w q w' Hl Hr Hi Hm Hq) as (I1 & I2 & I3).
    simpl fst. simpl snd. split; [exact I1|]. split.
    + simpl. rewrite Hfirst, I2. reflexivity.
    + destruct (snd (passes (Some (MoveAction p d)) (later ++ [(w, q)]))) eqn:E.
      * destruct I3.
      * exact I3.
Qed.

(** C2 (amended).  A move whose target is not busy when it is attempted:
    the physics system is commanded to begin the move, the attempt
    succeeds and leaves the slot as it was; submitted alone to a dispatcher
    whose slot is empty, it succeeds on that same tick and the slot is
    still empty.  A move whose target is busy when it is attempted: the
    attempt fails and puts the move in the slot, and the move is still
    there at the end of the pass provided no later attempt of that pass
    fails.  From then on, as long as no other attempt fails (a later
    failure overwrites the slot, last write wins), the move is the first
    thing attempted on every tick: it fails while the target is busy, and
    on the first tick the target is not busy it succeeds, the physics
    system is commanded, and the slot is empty after that pass. *)
Theorem move_applied_or_retried (p : EntityId) (d : Direction) :
  (forall (gl : GameLogic.t W) w',
      systems_ready (GameLogic._entityManager gl) ->
      idle p (GameLogic._entityManager gl) ->
      physics_moveEntity p d (GameLogic._entityManager gl) = (Returned tt, w') ->
      GameLogic._handlePlayerAction (MoveAction p d) gl =
        mkRes (Returned true) (GameLogic.mk w' (GameLogic._queuedAction gl))
              [ConsoleLog Handling; EmGetSystem PHYSICS; EmGetSystem SPATIAL;
               SpatialEntityIsMoving p; PhysicsMoveEntity p d;
               Attempted (MoveAction p d) Applied] /\
      (GameLogic._queuedAction gl = None ->
       GameLogic.update [MoveAction p d] gl =
         mkRes (Returned tt) (GameLogic.mk w' None)
               [ConsoleLog Handling; EmGetSystem PHYSICS; EmGetSystem SPATIAL;
                SpatialEntityIsMoving p; PhysicsMoveEntity p d;
                Attempted (MoveAction p d) Applied])) /\
  (forall (gl : GameLogic.t W),
      systems_ready (GameLogic._entityManager gl) ->
      busy p (GameLogic._entityManager gl) ->
      GameLogic._handlePlayerAction (MoveAction p d) gl =
        mkRes (Returned false)
              (GameLogic.mk (GameLogic._entityManager gl) (Some (MoveAction p d)))
              [ConsoleLog Handling; EmGetSystem PHYSICS; EmGetSystem SPATIAL;
               SpatialEntityIsMoving p; Attempted (MoveAction p d) Contended]) /\
  (forall actions (gl : GameLogic.t W) before since,
      attempts (events (GameLogic.update actions gl))
        = before ++ (MoveAction p d, Contended) :: since ->
      Forall applied since ->
      GameLogic._queuedAction (final (GameLogic.update actions gl))
        = Some (MoveAction p d)) /\
  (forall (busy_ticks : list (W * list PlayerAction)) w q w',
      Forall (fun t => systems_ready (fst t) /\ busy p (fst t) /\
                       no_later_failure (MoveAction p d) t) busy_ticks ->
      systems_ready w -> idle p w ->
      physics_moveEntity p d w = (Returned tt, w') ->
      no_later_failure (MoveAction p d) (w, q) ->
      fst (passes (Some (MoveAction p d)) (busy_ticks ++ [(w, q)])) = None /\
      map first_attempt
          (snd (passes (Some (MoveAction p d)) (busy_ticks ++ [(w, q)])))
        = repeat (Some (MoveAction p d, Contended)) (List.length busy_ticks)
          ++ [Some (MoveAction p d, Applied)] /\
      In (PhysicsMoveEntity p d)
         (last (snd (passes (Some (MoveAction p d)) (busy_ticks ++ [(w, q)]))) [])).
Proof.
  split; [|split; [|split]].
  - intros gl w' Hr Hi Hm. split.
    + apply handle_move_idle; assumption.
    + intros Es. apply update_fresh_move_idle; assumption.
  - intros gl Hr Hb. apply handle_move_busy; assumption.
  - intros actions gl before since E Fs.
    eapply update_last_failure; eauto.
  - apply retried_while_busy.
Qed.

Lemma retried_while_unrecognised tag p (ticks : list (W * list PlayerAction)) :
  Forall (no_later_failure (OtherAction tag p)) ticks ->
  fst (passes (Some (OtherAction tag p)) ticks) = Some (OtherAction tag p) /\
  Forall (fun evs => exists rest,
            evs = ConsoleLog Handling
                  :: Attempted (OtherAction tag p) Unrecognised :: rest)
         (snd (passes (Some (OtherAction tag p)) ticks)).
Proof.
  induction ticks as [|[w q] later IH]; intros Hq.
  - simpl. split; [reflexivity | constructor].
  - inversion Hq as [|t l Hq1 Hl]; subst.
    destruct (held_failing_pass w (OtherAction tag p) q _ _ Unrecognised
                (handle_unrecognised tag p (GameLogic.mk w (Some (OtherAction tag p))))
                eq_refl eq_refl Hq1) as (rest & Hev & Hfirst & Hslot).
    rewrite passes_cons, Hslot. simpl fst. simpl snd.
    destruct (IH Hl) as (I1 & I2).
    split; [exact I1|]. constructor; [|exact I2].
    exists rest. rewrite Hev. reflexivity.
Qed.

(** C8 (amended).  An action of an unrecognised kind: every attempt to
    apply it returns [false] without calling any collaborator, changing
    anything or throwing.  When it is dequeued it is placed in the slot,
    and it is still there at the end of the pass provided no later attempt
    of that pass fails.  From then on, as long as no later attempt fails
    -- on contention or because it is itself of an unrecognised kind --
    it stays in the slot and every tick starts by retrying it, the same
    way. *)
Theorem unrecognised_is_retried (tag : N) (p : EntityId) :
  (forall (gl : GameLogic.t W),
      GameLogic._handlePlayerAction (OtherAction tag p) gl =
        mkRes (Returned false) gl
              [ConsoleLog Handling; Attempted (OtherAction tag p) Unrecognised]) /\
  (forall actions (gl : GameLogic.t W) before since,
      attempts (events (GameLogic.update actions gl))
        = before ++ (OtherAction tag p, Unrecognised) :: since ->
      Forall applied since ->
      GameLogic._queuedAction (final (GameLogic.update actions gl))
        = Some (OtherAction tag p)) /\
  (forall ticks : list (W * list PlayerAction),
      Forall (no_later_failure (OtherAction tag p)) ticks ->
      fst (passes (Some (OtherAction tag p)) ticks) = Some (OtherAction tag p) /\
      Forall (fun evs => exists rest,
                evs = ConsoleLog Handling
                      :: Attempted (OtherAction tag p) Unrecognised :: rest)
             (snd (passes (Some (OtherAction tag p)) ticks))).
Proof.
  split; [|split].
  - intros gl. apply handle_unrecognised.
  - intros actions gl before since E Fs.
    eapply update_last_failure; eauto.
  - apply retried_while_unrecognised.
Qed.
End RetryClaims.



(** ** The slot and the last attempt of the held action *)

Lemma applied_not_failed a v : applied (a, v) -> failed v = true -> False.
Proof. unfold applied. simpl. intros ->. discriminate. Qed.

(** The last failure of a list of attempts is one attempt. *)
Lemma last_failure_unique (before : list (PlayerAction * Verdict)) :
  forall before' a v since b w since',
    before ++ (a, v) :: since = before' ++ (b, w) :: since' ->
    failed v = true -> failed w = true ->
    Forall applied since -> Forall applied since' ->
    a = b.
Proof.
  induction before as [|x before IH]; intros [|x' before'] a v since b w since';
    simpl; intros E Fv Fw Fs Fs'.
  - congruence.
  - injection E as _ E. subst since.
    apply Forall_app in Fs. destruct Fs as (_ & Fs).
    inversion Fs as [|y l Hy Hl]; subst.
    destruct (applied_not_failed b w Hy Fw).
  - injection E as _ E. subst since'.
    apply Forall_app in Fs'. destruct Fs' as (_ & Fs').
    inversion Fs' as [|y l Hy Hl]; subst.
    destruct (applied_not_failed a v Hy Fv).
  - injection E as _ E. exact (IH _ _ _ _ _ _ _ E Fv Fw Fs Fs').
Qed.

Lemma snoc_split {A} (l l1 q : list A) (x y : A) :
  l ++ [x] = l1 ++ y :: q ->
  (q = [] /\ l = l1 /\ x = y) \/
  (exists q', q = q' ++ [x] /\ l = l1 ++ y :: q').
Proof.
  destruct q as [|z q] using rev_ind.
  - intros E. apply app_inj_tail in E. destruct E as (-> & ->). auto.
  - intros E. clear IHq.
    change (l1 ++ y :: q ++ [z]) with (l1 ++ (y :: q) ++ [z]) in E.
    rewrite app_assoc in E. apply app_inj_tail in E. destruct E as (-> & ->).
    right. exists q. auto.
Qed.

(** A pass that attempts nothing changes nothing about who is held. *)
Lemma held_since_quiet a (runs : list (list Event)) evs :
  attempts evs = [] ->
  held_since a (runs ++ [evs]) <-> held_since a runs.
Proof.
  intros Hq. split.
  - intros (earlier & e & quiet & v & before & since & E & Q & rest).
    apply snoc_split in E. destruct E as [(-> & -> & <-) | (q' & -> & ->)].
    + destruct rest as (Ea & _). rewrite Hq in Ea. destruct before; discriminate.
    + apply Forall_app in Q. destruct Q as (Q & _).
      exists earlier, e, q', v, before, since. auto.
  - intros (earlier & e & quiet & v & before & since & -> & Q & rest).
    exists earlier, e, (quiet ++ [evs]), v, before, since.
    rewrite <- app_assoc. split; [reflexivity|]. split; [|exact rest].
    apply Forall_app. split; [exact Q|]. constructor; [exact Hq | constructor].
Qed.

(** A pass that attempts something decides alone who is held. *)
Lemma held_since_last a (runs : list (list Event)) evs :
  attempts evs <> [] ->
  held_since a (runs ++ [evs]) <->
  exists v before since,
    attempts evs = before ++ (a, v) :: since /\
    failed v = true /\ verdict_fits a v /\ Forall applied since.
Proof.
  intros Hn. split.
  - intros (earlier & e & quiet & v & before & since & E & Q & rest).
    apply snoc_split in E. destruct E as [(-> & -> & <-) | (q' & -> & ->)].
    + exists v, before, since. exact rest.
    + apply Forall_app in Q. destruct Q as (_ & Q).
      inversion Q as [|y l Hy Hl]; subst. contradiction.
  - intros (v & before & since & rest).
    exists runs, evs, [], v, before, since.
    split; [reflexivity|]. split; [constructor | exact rest].
Qed.

Section SlotFacts.
Context {W : Type} `{EntityManager W}.

Lemma pass_held_since actions (gl : GameLogic.t W) (runs : list (list Event)) :
  (forall a, GameLogic._queuedAction gl = Some a <-> held_since a runs) ->
  forall a,
    GameLogic._queuedAction (final (GameLogic.update actions gl)) = Some a <->
    held_since a (runs ++ [events (GameLogic.update actions gl)]).
Proof.
  intros Inv a.
  destruct (update_resolve actions gl) as (Hs & Hwf & _ & Hfirst).
  cbv zeta in Hs, Hwf, Hfirst. rewrite Hs.
  destruct (attempts (events (GameLogic.update actions gl))) as [|av atts] eqn:Ea.
  - rewrite (held_since_quiet a runs _ Ea).
    replace (pass_slot (GameLogic._queuedAction gl) [])
      with (GameLogic._queuedAction gl)
      by (destruct (GameLogic._queuedAction gl); reflexivity).
    apply Inv.
  - rewrite held_since_last by (rewrite Ea; discriminate).
    rewrite Ea.
    destruct (last_failure_split (av :: atts))
      as [F | (before & b & v & since & E & Fv & Fs)].
    + rewrite pass_slot_all_applied by assumption.
      split; [discriminate|].
      intros (v & before & since & E & Fv & _).
      rewrite E in F. apply Forall_app in F. destruct F as (_ & F).
      inversion F as [|y l Hy Hl]; subst.
      destruct (applied_not_failed a v Hy Fv).
    + rewrite pass_slot_last_failure
        with (before := before) (b := b) (v := v) (since := since)
        by assumption.
      split.
      * intros [= <-]. exists v, before, since.
        split; [exact E|]. split; [exact Fv|]. split; [|exact Fs].
        unfold well_formed in Hwf. rewrite E in Hwf.
        apply Forall_app in Hwf. destruct Hwf as (_ & Hwf).
        inversion Hwf; subst. assumption.
      * intros (v' & before' & since' & E' & Fv' & _ & Fs').
        rewrite E in E'.
        rewrite (last_failure_unique _ _ _ _ _ _ _ _ E' Fv Fv' Fs Fs').
        reflexivity.
Qed.

Lemma passes_held_since (ticks : list (W * list PlayerAction)) :
  forall s (runs : list (list Event)),
    (forall a, s = Some a <-> held_since a runs) ->
    forall a, fst (passes s ticks) = Some a <->
              held_since a (runs ++ snd (passes s ticks)).
Proof.
  induction ticks as [|[w actions] later IH]; intros s runs Inv a.
  - simpl. rewrite app_nil_r. apply Inv.
  - rewrite passes_cons. cbn [fst snd].
    change (runs ++ events (GameLogic.update actions (GameLogic.mk w s))
                 :: snd (passes (GameLogic._queuedAction
                                   (final (GameLogic.update actions
                                             (GameLogic.mk w s)))) later))
      with (runs ++ [events (GameLogic.update actions (GameLogic.mk w s))]
                 ++ snd (passes (GameLogic._queuedAction
                                   (final (GameLogic.update actions
                                             (GameLogic.mk w s)))) later)).
    rewrite app_assoc. apply IH.
    apply (pass_held_since actions (GameLogic.mk w s) runs). exact Inv.
Qed.

Lemma nothing_held_at_first a : ~ held_since a [].
Proof.
  intros (earlier & e & quiet & v & before & since & E & _).
  destruct earlier; discriminate.
Qed.
End SlotFacts.

Section SlotClaims.
Context {W : Type} `{EntityManager W}.

(** C9 (amended).  From the empty slot, after any number of resolve
    passes, whatever the store is at each of them and whether or not a
    pass throws, the slot is empty or holds one action, and which one is
    decided by the attempts made: it holds [a] exactly when the most
    recent failed attempt of the latest pass that attempted anything was
    an attempt of [a] and every attempt after it in that pass succeeded.
    No pass has attempted anything since: a pass that attempts anything
    begins with the retry of the held action and empties the slot when the
    retry succeeds, so the held action has not been retried since that
    failed attempt.  That attempt failed because the
    action is a move whose target was busy then, or because the action is
    of an unrecognised kind ([verdict_meaning] ties the recorded verdicts
    to the answers of the spatial system). *)
Theorem retry_slot_invariant (ticks : list (W * list PlayerAction)) :
  slot_invariant (fst (passes None ticks)) (List.concat (snd (passes None ticks))) /\
  forall a, fst (passes None ticks) = Some a <->
            held_since a (snd (passes None ticks)).
Proof.
  split.
  - apply (passes_invariant ticks None []). exact I.
  - apply (passes_held_since ticks None []).
    intros a. split; [discriminate|].
    intros Hh. destruct (nothing_held_at_first a Hh).
Qed.

(** C1 (amended).  Last write wins.  [A] is held in the slot; in the pass
    its attempt fails again (the held action is attempted first, so [A]
    heads the failed attempts of the pass), and later actions of that
    tick's list fail too, [B] being the last of them.  Then the slot holds
    [B] after the pass, and on the ticks that follow no pass attempts [A],
    unless [A] is the same action as [B] or is submitted again. *)
Theorem last_write_wins (w : W) (A B : PlayerAction)
  (actions mid : list PlayerAction) :
  failures (events (GameLogic.update actions (GameLogic.mk w (Some A))))
    = A :: mid ++ [B] ->
  GameLogic._queuedAction
    (final (GameLogic.update actions (GameLogic.mk w (Some A)))) = Some B /\
  forall ticks : list (W * list PlayerAction),
    A <> B ->
    (forall t, In t ticks -> ~ In A (snd t)) ->
    forall evs v, In evs (snd (passes (Some B) ticks)) ->
                  ~ In (A, v) (attempts evs).
Proof.
  intros Hf. split.
  - destruct (failures_last_split _ (A :: mid) B Hf)
      as (before & v & since & E & Fv & Fs).
    eapply update_last_failure; eauto.
  - intros ticks Hne Hnot evs v Hevs Hin.
    destruct (passes_attempted ticks _ _ _ _ Hevs Hin) as [E | (t & Ht & Hx)].
    + injection E as E. auto.
    + exact (Hnot t Ht Hx).
Qed.
End SlotClaims.

(** ** The tick *)

Lemma pipe_calls_app l1 l2 : pipe_calls (l1 ++ l2) = pipe_calls l1 ++ pipe_calls l2.
Proof. apply filter_app. Qed.

Section DispatcherCalls.
Context {W : Type} `{EntityManager W}.
Transparent GameLogic._handlePlayerAction GameLogic.resolve_one GameLogic.retry_queued.

Lemma handle_no_pipe_calls a (gl : GameLogic.t W) :
  pipe_calls (events (GameLogic._handlePlayerAction a gl)) = [].
Proof.
  destruct a as [p d | tag p]; [|reflexivity].
  unfold GameLogic._handlePlayerAction, GameLogic._movePlayer, bind,
    GameLogic.query, GameLogic.command, emit, ret,
    GameLogic.set_queuedAction, modify.
  simpl.
  destruct (em_getSystem PHYSICS (GameLogic._entityManager gl)) as [[]|e];
    simpl; [|reflexivity].
  destruct (em_getSystem SPATIAL (GameLogic._entityManager gl)) as [[]|e];
    simpl; [|reflexivity].
  destruct (spatial_entityIsMoving p (GameLogic._entityManager gl))
    as [[|]|e]; simpl; try reflexivity.
  destruct (physics_moveEntity p d (GameLogic._entityManager gl))
    as [[[]|e] w']; reflexivity.
Qed.

Opaque GameLogic._handlePlayerAction.

Lemma resolve_one_no_pipe_calls a (gl : GameLogic.t W) :
  pipe_calls (events (GameLogic.resolve_one a gl)) = [].
Proof.
  unfold GameLogic.resolve_one, bind.
  generalize (handle_no_pipe_calls a gl).
  generalize (GameLogic._handlePlayerAction a gl) as r.
  intros [[[|]|e] fin evs] E; simpl in *; rewrite ?app_nil_r; exact E.
Qed.

Lemma retry_queued_no_pipe_calls (gl : GameLogic.t W) :
  pipe_calls (events (GameLogic.retry_queued gl)) = [].
Proof.
  unfold GameLogic.retry_queued, gets, bind. simpl.
  destruct (GameLogic._queuedAction gl) as [a|]; [|reflexivity].
  generalize (handle_no_pipe_calls a gl).
  generalize (GameLogic._handlePlayerAction a gl) as r.
  intros [[[|]|e] fin evs] E; simpl in *; rewrite ?app_nil_r; exact E.
Qed.

Opaque GameLogic.resolve_one GameLogic.retry_queued.

Lemma forEach_no_pipe_calls actions : forall gl : GameLogic.t W,
  pipe_calls (events (forEach GameLogic.resolve_one actions gl)) = [].
Proof.
  induction actions as [|a actions IH]; intros gl; simpl; [reflexivity|].
  unfold bind.
  generalize (resolve_one_no_pipe_calls a gl).
  generalize (GameLogic.resolve_one a gl) as r.
  intros [[[]|e] fin evs] E; simpl in *; [|exact E].
  rewrite pipe_calls_app, E, IH. reflexivity.
Qed.

(** The dispatcher never touches the pipe. *)
Lemma update_no_pipe_calls actions (gl : GameLogic.t W) :
  pipe_calls (events (GameLogic.update actions gl)) = [].
Proof.
  unfold GameLogic.update, bind.
  generalize (retry_queued_no_pipe_calls gl).
  generalize (GameLogic.retry_queued gl) as r.
  intros [[[]|e] fin evs] E; simpl in *; [|exact E].
  rewrite pipe_calls_app, E, forEach_no_pipe_calls. reflexivity.
Qed.
End DispatcherCalls.

Section TickFacts.
Context {W P : Type} `{EntityManager W} `{Pipe P}.
Opaque GameLogic.update.

(** [_tick], phase by phase. *)
Lemma tick_unfold (g : Game.t W P) :
  let r1 := GameLogic.update (Game._actionQueue g) (Game._gameLogic g) in
  let g1 := Game.mk (Game._id g) (Game._pipe g) (Game._loopTimeout g) []
                    (final r1) (Game._frame g) in
  match result r1 with
  | Thrown e =>
      Game._tick g = mkRes (Thrown e) (Game.with_gameLogic (final r1) g) (events r1)
  | Returned _ =>
      match em_update (GameLogic._entityManager (final r1)) with
      | (Thrown e, w2) =>
          Game._tick g =
          mkRes (Thrown e) (Game.with_em w2 g1) (events r1 ++ [EmUpdate])
      | (Returned _, w2) =>
          match em_getDirties w2 with
          | (Thrown e, w3) =>
              Game._tick g =
              mkRes (Thrown e) (Game.with_em w3 g1)
                    (events r1 ++ [EmUpdate; EmGetDirties])
          | (Returned dirties, w3) =>
              if (0 <? List.length dirties)%nat then
                let response := RGameState dirties (Game._frame g) in
                match pipe_sendToAll response (Game._pipe g) with
                | (Thrown e, p4) =>
                    Game._tick g =
                    mkRes (Thrown e) (Game.with_pipe p4 (Game.with_em w3 g1))
                          (events r1 ++
                           [EmUpdate; EmGetDirties; PipeSendToAll response])
                | (Returned _, p4) =>
                    Game._tick g =
                    mkRes (Returned tt)
                          (Game.with_frame (Game._frame g + 1)%N
                             (Game.with_pipe p4 (Game.with_em w3 g1)))
                          (events r1 ++
                           [EmUpdate; EmGetDirties; PipeSendToAll response])
                end
              else
                Game._tick g =
                mkRes (Returned tt)
                      (Game.with_frame (Game._frame g + 1)%N (Game.with_em w3 g1))
                      (events r1 ++ [EmUpdate; EmGetDirties])
          end
      end
  end.
Proof.
  cbv zeta. unfold Game._tick.
  rewrite (bind_eq _ _ _ _ _ _
             (eq_refl : gets Game._actionQueue g
                        = mkRes (Returned (Game._actionQueue g)) g [])).
  assert (Hd : Game.gameLogic (GameLogic.update (Game._actionQueue g)) g =
               mkRes (result (GameLogic.update (Game._actionQueue g)
                                               (Game._gameLogic g)))
                     (Game.with_gameLogic
                        (final (GameLogic.update (Game._actionQueue g)
                                                 (Game._gameLogic g))) g)
                     (events (GameLogic.update (Game._actionQueue g)
                                               (Game._gameLogic g))))
    by reflexivity.
  revert Hd.
  generalize (GameLogic.update (Game._actionQueue g) (Game._gameLogic g)) as r1.
  intros [[[]|e] fin evs] Hd; cbn [result final events] in *.
  2:{ rewrite (bind_eq_thrown _ _ _ _ _ _ Hd). reflexivity. }
  rewrite (bind_eq _ _ _ _ _ _ Hd).
  rewrite (bind_eq _ _ _ _ _ _
             (eq_refl : modify (Game.with_actionQueue []) (Game.with_gameLogic fin g)
                        = mkRes (Returned tt)
                                (Game.with_actionQueue [] (Game.with_gameLogic fin g))
                                [])).
  set (g1 := Game.with_actionQueue [] (Game.with_gameLogic fin g)).
  change (Game.mk (Game._id g) (Game._pipe g) (Game._loopTimeout g) [] fin
                  (Game._frame g)) with g1.
  assert (Hu : Game.em EmUpdate em_update g1 =
               mkRes (fst (em_update (GameLogic._entityManager fin)))
                     (Game.with_em (snd (em_update (GameLogic._entityManager fin))) g1)
                     [EmUpdate]).
  { unfold Game.em. change (Game._em g1) with (GameLogic._entityManager fin).
    destruct (em_update (GameLogic._entityManager fin)); reflexivity. }
  destruct (em_update (GameLogic._entityManager fin)) as [[[]|e] w2];
    cbn [fst snd] in Hu.
  2:{ rewrite (bind_eq_thrown _ _ _ _ _ _ Hu). simpl. reflexivity. }
  rewrite (bind_eq _ _ _ _ _ _ Hu).
  assert (Hg : Game.em EmGetDirties em_getDirties (Game.with_em w2 g1) =
               mkRes (fst (em_getDirties w2))
                     (Game.with_em (snd (em_getDirties w2)) g1)
                     [EmGetDirties]).
  { unfold Game.em. change (Game._em (Game.with_em w2 g1)) with w2.
    destruct (em_getDirties w2); reflexivity. }
  destruct (em_getDirties w2) as [[dirties|e] w3]; cbn [fst snd] in Hg.
  2:{ rewrite (bind_eq_thrown _ _ _ _ _ _ Hg). simpl. reflexivity. }
  rewrite (bind_eq _ _ _ _ _ _ Hg).
  destruct (0 <? List.length dirties)%nat; cbv iota.
  - assert (Hs : (frame <- gets Game._frame ;;
                  Game.pipe (PipeSendToAll (RGameState dirties frame))
                            (pipe_sendToAll (RGameState dirties frame)))
                   (Game.with_em w3 g1) =
                 mkRes (fst (pipe_sendToAll (RGameState dirties (Game._frame g))
                                            (Game._pipe g)))
                       (Game.with_pipe
                          (snd (pipe_sendToAll (RGameState dirties (Game._frame g))
                                               (Game._pipe g)))
                          (Game.with_em w3 g1))
                       [PipeSendToAll (RGameState dirties (Game._frame g))]).
    { rewrite (bind_eq _ _ _ _ _ _
                 (eq_refl : gets Game._frame (Game.with_em w3 g1)
                            = mkRes (Returned (Game._frame g))
                                    (Game.with_em w3 g1) [])).
      unfold Game.pipe.
      change (Game._pipe (Game.with_em w3 g1)) with (Game._pipe g).
      destruct (pipe_sendToAll _ _); reflexivity. }
    destruct (pipe_sendToAll (RGameState dirties (Game._frame g)) (Game._pipe g))
      as [[[]|e] p4]; cbn [fst snd] in Hs.
    + rewrite (bind_eq _ _ _ _ _ _ Hs). simpl.
      rewrite <- ?app_assoc. reflexivity.
    + rewrite (bind_eq_thrown _ _ _ _ _ _ Hs).
      simpl. rewrite <- ?app_assoc. reflexivity.
  - simpl. rewrite <- ?app_assoc. reflexivity.
Qed.
End TickFacts.

(** ** The interval *)

Section TickClaims.
Context {W P : Type} `{EntityManager W} `{Pipe P}.
Opaque GameLogic.update Game._tick.

Lemma tick_frame (g : Game.t W P) :
  Game._loopTimeout (final (Game._tick g)) = Game._loopTimeout g /\
  match result (Game._tick g) with
  | Returned _ => Game._frame (final (Game._tick g)) = (Game._frame g + 1)%N
  | Thrown _ => Game._frame (final (Game._tick g)) = Game._frame g
  end.
Proof.
  pose proof (tick_unfold g) as T. cbv zeta in T.
  destruct (result (GameLogic.update _ _)) as [[]|e].
  2:{ rewrite T. simpl. auto. }
  destruct (em_update _) as [[[]|e] w2].
  2:{ rewrite T. simpl. auto. }
  destruct (em_getDirties w2) as [[dirties|e] w3].
  2:{ rewrite T. simpl. auto. }
  destruct (0 <? List.length dirties)%nat.
  2:{ rewrite T. simpl. auto. }
  destruct (pipe_sendToAll _ _) as [[[]|e] p4]; rewrite T; simpl; auto.
Qed.

Lemma onPlayerAction_enqueues a (g : Game.t W P) :
  Game.onPlayerAction a g =
  mkRes (Returned tt) (Game.with_actionQueue (Game._actionQueue g ++ [a]) g)
        [ConsoleLog (Received (action_type a) (action_playerId a))].
Proof. reflexivity. Qed.

Lemma arrivals_enqueue (arrived : list PlayerAction) : forall g : Game.t W P,
  result (forEach Game.onPlayerAction arrived g) = Returned tt /\
  final (forEach Game.onPlayerAction arrived g)
    = Game.with_actionQueue (Game._actionQueue g ++ arrived) g.
Proof.
  induction arrived as [|a arrived IH]; intros g.
  - simpl. rewrite app_nil_r. destruct g; auto.
  - simpl forEach.
    rewrite (bind_eq _ _ _ _ _ _ (onPlayerAction_enqueues a g)).
    cbn [result final].
    destruct (IH (Game.with_actionQueue (Game._actionQueue g ++ [a]) g))
      as (Hr & Hf).
    rewrite Hr, Hf. simpl. rewrite <- app_assoc. auto.
Qed.

Lemma callback_cases (g : Game.t W P) :
  final (Game.interval_callback g) = final (Game._tick g) /\
  ((result (Game._tick g) = Returned tt /\
    result (Game.interval_callback g) = Returned (Some tt)) \/
   (exists e, result (Game._tick g) = Thrown e /\
              result (Game.interval_callback g) = Returned None)).
Proof.
  unfold Game.interval_callback, noThrow.
  destruct (result (Game._tick g)) as [[]|e]; simpl; eauto.
Qed.

(** The interval never stops on its own: armed, it makes every firing;
    the frame counter counts the callbacks that returned a value. *)
Lemma run_interval_total (arrivals : list (list PlayerAction)) :
  forall g : Game.t W P,
    exists rs,
      result (Game.run_interval Game.interval_callback arrivals g) = Returned rs /\
      Game._frame (final (Game.run_interval Game.interval_callback arrivals g))
        = (Game._frame g + successes rs)%N /\
      (Game._loopTimeout g = true ->
       List.length rs = List.length arrivals /\
       Game._loopTimeout
         (final (Game.run_interval Game.interval_callback arrivals g)) = true).
Proof.
  induction arrivals as [|arrived later IH]; intros g.
  - exists []. simpl. rewrite N.add_0_r. auto.
  - simpl Game.run_interval.
    destruct (arrivals_enqueue arrived g) as (Hr & Hf).
    destruct (forEach Game.onPlayerAction arrived g) as [r0 g0 e0] eqn:E0.
    simpl in Hr, Hf. subst r0.
    rewrite (bind_eq _ _ _ _ _ _ E0).
    assert (Hfr0 : Game._frame g0 = Game._frame g) by (subst g0; reflexivity).
    assert (Harm0 : Game._loopTimeout g0 = Game._loopTimeout g)
      by (subst g0; reflexivity).
    clear Hf E0.
    rewrite (bind_eq _ _ _ _ _ _
               (eq_refl : gets Game._loopTimeout g0
                          = mkRes (Returned (Game._loopTimeout g0)) g0 [])).
    cbn [result final events].
    destruct (Game._loopTimeout g0) eqn:Earmed.
    + destruct (tick_frame g0) as (Ht & Hfr).
      destruct (callback_cases g0) as (Hfin & Hres).
      destruct (Game.interval_callback g0) as [rc gc ec] eqn:Ec.
      simpl in Hfin, Hres. subst gc.
      destruct (IH (final (Game._tick g0))) as (rs & Hrs & Hfs & Hlen).
      destruct (Game.run_interval Game.interval_callback later
                  (final (Game._tick g0))) as [rr gr er] eqn:Er.
      simpl in Hrs, Hfs, Hlen. subst rr.
      destruct Hres as [(Htick & ->) | (e & Htick & ->)];
        rewrite Htick in Hfr;
        rewrite (bind_eq _ _ _ _ _ _ Ec);
        rewrite (bind_eq _ _ _ _ _ _ Er);
        cbn [result final events ret];
        eexists; (split; [reflexivity|]); split.
      * rewrite Hfs, Hfr, Hfr0. unfold successes. cbn [filter].
        cbn [List.length]. rewrite Nat2N.inj_succ. lia.
      * intros _. rewrite Ht in Hlen. destruct (Hlen Earmed) as (Hl & Ha).
        simpl. rewrite Hl. auto.
      * rewrite Hfs, Hfr, Hfr0. unfold successes. simpl. reflexivity.
      * intros _. rewrite Ht in Hlen. destruct (Hlen Earmed) as (Hl & Ha).
        simpl. rewrite Hl. auto.
    + exists []. cbn [result final events ret]. split; [reflexivity|]. split.
      * rewrite Hfr0. unfold successes. simpl. apply eq_sym, N.add_0_r.
      * intros Ha. rewrite Ha in Harm0. discriminate.
Qed.
End TickClaims.

(** ** The claims about the tick *)

Section SessionClaims.
Context {W P : Type} `{EntityManager W} `{Pipe P}.
Opaque GameLogic.update Game._tick.

(** What a tick does to the slot is what its resolve pass does: the
    other phases of the tick leave the dispatcher's slot alone and attempt
    nothing. *)
Lemma tick_dispatches (g : Game.t W P) :
  GameLogic._queuedAction (Game._gameLogic (final (Game._tick g)))
    = GameLogic._queuedAction
        (final (GameLogic.update (Game._actionQueue g) (Game._gameLogic g))) /\
  attempts (events (Game._tick g))
    = attempts (events (GameLogic.update (Game._actionQueue g)
                                         (Game._gameLogic g))).
Proof.
  pose proof (tick_unfold g) as T. cbv zeta in T.
  destruct (result (GameLogic.update _ _)) as [[]|e].
  2:{ rewrite T. simpl. auto. }
  destruct (em_update _) as [[[]|e] w2].
  2:{ rewrite T. simpl. rewrite attempts_app, app_nil_r. auto. }
  destruct (em_getDirties w2) as [[dirties|e] w3].
  2:{ rewrite T. simpl. rewrite attempts_app, app_nil_r. auto. }
  destruct (0 <? List.length dirties)%nat.
  2:{ rewrite T. simpl. rewrite attempts_app, app_nil_r. auto. }
  destruct (pipe_sendToAll _ _) as [[[]|e] p4]; rewrite T; simpl;
    rewrite attempts_app, app_nil_r; auto.
Qed.


Lemma tick_failure_point (g : Game.t W P) (e : exn) :
  result (Game._tick g) = Thrown e -> failure_point g e.
Proof.
  unfold failure_point.
  pose proof (tick_unfold g) as T. cbv zeta in T. cbv zeta.
  destruct (result (GameLogic.update _ _)) as [[]|e1].
  2:{ rewrite T. simpl. intros [= ->]. left. split; reflexivity. }
  destruct (em_update _) as [[[]|e2] w2] eqn:Eu.
  2:{ rewrite T. simpl. intros [= ->]. right. left. split; [reflexivity|].
      exists w2. split; reflexivity. }
  destruct (em_getDirties w2) as [[dirties|e3] w3] eqn:Eg.
  2:{ rewrite T. simpl. intros [= ->]. right. right. left.
      split; [reflexivity|]. exists w2, w3.
      split; [reflexivity|]. split; [exact Eg | reflexivity]. }
  destruct dirties as [|d dirties]; simpl in T.
  { rewrite T. simpl. discriminate. }
  destruct (pipe_sendToAll _ _) as [[[]|e4] p4] eqn:Es; rewrite T; simpl.
  - discriminate.
  - intros [= ->]. right. right. right. split; [reflexivity|].
    exists w2, (d :: dirties), w3, p4.
    split; [reflexivity|]. split; [exact Eg|].
    split; [discriminate|]. split; [exact Es | reflexivity].
Qed.

(** C3.  A tick in which the dispatch, the advance, the read of the dirty
    set or the broadcast throws: the error is caught by [noThrow], which
    returns and logs it; nothing is undone, the session is left as it was
    at the point of failure ([failure_point] says what that is for each
    phase); the frame counter is not incremented; the interval stays
    armed, and the firings that follow are all made, starting from the
    state the failed tick left. *)
Theorem tick_failure_is_contained (g : Game.t W P) (e : exn) :
  result (Game._tick g) = Thrown e ->
  Game.interval_callback g =
    mkRes (Returned None) (final (Game._tick g))
          (events (Game._tick g) ++ [ConsoleError e]) /\
  Game._frame (final (Game._tick g)) = Game._frame g /\
  Game._loopTimeout (final (Game._tick g)) = Game._loopTimeout g /\
  failure_point g e /\
  (Game._loopTimeout g = true ->
   forall later : list (list PlayerAction),
   exists rs,
     result (Game.run_interval Game.interval_callback later
               (final (Game._tick g))) = Returned rs /\
     List.length rs = List.length later /\
     result (Game.run_interval Game.interval_callback ([] :: later) g)
       = Returned (None :: rs) /\
     final (Game.run_interval Game.interval_callback ([] :: later) g)
       = final (Game.run_interval Game.interval_callback later
                  (final (Game._tick g)))).
Proof.
  intros Hthrown.
  destruct (tick_frame g) as (Harmed & Hframe). rewrite Hthrown in Hframe.
  assert (Hcb : Game.interval_callback g =
                mkRes (Returned None) (final (Game._tick g))
                      (events (Game._tick g) ++ [ConsoleError e])).
  { unfold Game.interval_callback, noThrow. rewrite Hthrown. reflexivity. }
  split; [exact Hcb|]. split; [exact Hframe|]. split; [exact Harmed|].
  split; [apply tick_failure_point; exact Hthrown|].
  intros Ha later.
  destruct (run_interval_total later (final (Game._tick g)))
    as (rs & Hrs & _ & Hlen).
  rewrite Harmed in Hlen. destruct (Hlen Ha) as (Hl & _).
  exists rs. split; [exact Hrs|]. split; [exact Hl|].
  simpl Game.run_interval.
  rewrite (bind_eq _ _ _ _ _ _ (eq_refl : @ret (Game.t W P) unit tt g = mkRes (Returned tt) g [])).
  rewrite (bind_eq _ _ _ _ _ _
             (eq_refl : gets Game._loopTimeout g
                        = mkRes (Returned (Game._loopTimeout g)) g [])).
  cbn [result final events]. rewrite Ha.
  rewrite (bind_eq _ _ _ _ _ _ Hcb).
  destruct (Game.run_interval Game.interval_callback later
              (final (Game._tick g))) as [rr gr er] eqn:Er.
  simpl in Hrs. subst rr.
  rewrite (bind_eq _ _ _ _ _ _ Er). simpl. auto.
Qed.

Lemma broadcasts_pipe_calls kind evs :
  broadcasts kind evs = broadcasts kind (pipe_calls evs).
Proof.
  induction evs as [|ev evs IH]; simpl; [reflexivity|].
  destruct ev; simpl; rewrite ?IH; reflexivity.
Qed.

(** C6.  In a tick whose dispatch and advance return, with [dirties] the
    dirty set read after the advance: if [dirties] is empty the tick makes
    no call to the pipe at all and returns; if it is not empty the tick
    makes exactly one call to the pipe, [sendToAll] of a GAME_STATE
    message that carries [dirties] and the frame number the session has at
    that moment (the counter is incremented only afterwards).  [sendToAll]
    is the pipe's broadcast to every connection. *)
Theorem tick_broadcasts_dirties (g : Game.t W P) w2 dirties w3 :
  result (GameLogic.update (Game._actionQueue g) (Game._gameLogic g))
    = Returned tt ->
  em_update (GameLogic._entityManager
               (final (GameLogic.update (Game._actionQueue g)
                                        (Game._gameLogic g))))
    = (Returned tt, w2) ->
  em_getDirties w2 = (Returned dirties, w3) ->
  (dirties = [] ->
   pipe_calls (events (Game._tick g)) = [] /\
   Game._pipe (final (Game._tick g)) = Game._pipe g /\
   result (Game._tick g) = Returned tt) /\
  (dirties <> [] ->
   pipe_calls (events (Game._tick g))
     = [PipeSendToAll (RGameState dirties (Game._frame g))] /\
   broadcasts GAME_STATE (events (Game._tick g))
     = [RGameState dirties (Game._frame g)] /\
   Game._pipe (final (Game._tick g))
     = snd (pipe_sendToAll (RGameState dirties (Game._frame g)) (Game._pipe g))).
Proof.
  intros Hd Hu Hg.
  pose proof (tick_unfold g) as T. cbv zeta in T.
  pose proof (update_no_pipe_calls (Game._actionQueue g) (Game._gameLogic g)) as Hn.
  rewrite Hd, Hu, Hg in T.
  split.
  - intros ->. simpl in T. rewrite T. simpl.
    rewrite pipe_calls_app, Hn. auto.
  - intros Hne. destruct dirties as [|d dirties]; [contradiction|].
    simpl in T.
    assert (Hcalls : pipe_calls (events (Game._tick g))
                     = [PipeSendToAll (RGameState (d :: dirties) (Game._frame g))]).
    { destruct (pipe_sendToAll _ _) as [[[]|e] p4]; rewrite T; simpl;
        rewrite pipe_calls_app, Hn; reflexivity. }
    split; [exact Hcalls|]. split.
    + rewrite broadcasts_pipe_calls, Hcalls. reflexivity.
    + destruct (pipe_sendToAll _ _) as [[[]|e] p4]; rewrite T; reflexivity.
Qed.
End SessionClaims.

(** ** Join and leave; colours *)

Section JoinAndLeaveFacts.
Context {W P : Type} `{EntityManager W} `{Pipe P}.

Lemma em_call {A} (ev : Event) (c : W -> outcome A * W) (g : Game.t W P) o w :
  c (Game._em g) = (o, w) ->
  Game.em ev c g = mkRes o (Game.with_em w g) [ev].
Proof. intros E. unfold Game.em. rewrite E. reflexivity. Qed.

Lemma pipe_call {A} (ev : Event) (c : P -> outcome A * P) (g : Game.t W P) o p :
  c (Game._pipe g) = (o, p) ->
  Game.pipe ev c g = mkRes o (Game.with_pipe p g) [ev].
Proof. intros E. unfold Game.pipe. rewrite E. reflexivity. Qed.

Ltac run_call :=
  first [ reflexivity
        | eapply em_call; eassumption
        | eapply pipe_call; eassumption ].

Ltac run_calls :=
  lazymatch goal with
  | |- bind _ _ _ = _ =>
      first [ eapply bind_chain; [run_call | cbv beta zeta; run_calls | reflexivity]
            | apply bind_eq_thrown; run_call ]
  | |- _ => run_call
  end.

(** [removePlayer], call by call. *)
Lemma removePlayer_unfold (g : Game.t W P) (id : EntityId) :
  let response := REntitiesDeleted [mkEntity id PLAYER] in
  match em_removeEntity id (Game._em g) with
  | (Thrown e, w1) =>
      Game.removePlayer id g =
      mkRes (Thrown e) (Game.with_em w1 g)
            [ConsoleLog (RemovingPlayer id); EmRemoveEntity id]
  | (Returned _, w1) =>
      match pipe_removeSocket id (Game._pipe g) with
      | (Thrown e, p1) =>
          Game.removePlayer id g =
          mkRes (Thrown e) (Game.with_pipe p1 (Game.with_em w1 g))
                [ConsoleLog (RemovingPlayer id); EmRemoveEntity id;
                 PipeRemoveSocket id]
      | (Returned _, p1) =>
          match pipe_sendToAll response p1 with
          | (o, p2) =>
              Game.removePlayer id g =
              mkRes o (Game.with_pipe p2 (Game.with_em w1 g))
                    [ConsoleLog (RemovingPlayer id); EmRemoveEntity id;
                     PipeRemoveSocket id; PipeSendToAll response]
          end
      end
  end.
Proof.
  cbv zeta.
  destruct (em_removeEntity id (Game._em g)) as [[[]|e] w1] eqn:Er;
    [|unfold Game.removePlayer; (etransitivity; [run_calls | reflexivity])].
  destruct (pipe_removeSocket id (Game._pipe g)) as [[[]|e] p1] eqn:Ep;
    [|unfold Game.removePlayer; (etransitivity; [run_calls | reflexivity])].
  destruct (pipe_sendToAll (REntitiesDeleted [mkEntity id PLAYER]) p1)
    as [o p2] eqn:Es.
  unfold Game.removePlayer; (etransitivity; [run_calls | reflexivity]).
Qed.

(** [addPlayer], call by call. *)
Lemma addPlayer_unfold (g : Game.t W P) (socket : WebSocket)
  (pinataId pinataToken : string) :
  let roster := em_entities (Game._em g) in
  match constructPlayer pinataId pinataToken (Game._em g) with
  | (Thrown e, w1) =>
      Game.addPlayer socket pinataId pinataToken g =
      mkRes (Thrown e) (Game.with_em w1 g)
            [EmEntities; ConstructPlayer pinataId pinataToken]
  | (Returned id, w1) =>
      let snapshot := em_getState w1 in
      let g1 := Game.with_em w1 g in
      match pipe_addSocket id socket (Game._pipe g) with
      | (Thrown e, p1) =>
          Game.addPlayer socket pinataId pinataToken g =
          mkRes (Thrown e) (Game.with_pipe p1 g1)
                [EmEntities; ConstructPlayer pinataId pinataToken;
                 ConsoleLog (AddingPlayer id); PipeAddSocket id socket]
      | (Returned _, p1) =>
          match pipe_send id (RNewEntities roster) p1 with
          | (Thrown e, p2) =>
              Game.addPlayer socket pinataId pinataToken g =
              mkRes (Thrown e) (Game.with_pipe p2 g1)
                    [EmEntities; ConstructPlayer pinataId pinataToken;
                     ConsoleLog (AddingPlayer id); PipeAddSocket id socket;
                     EmGetState; PipeSend id (RNewEntities roster)]
          | (Returned _, p2) =>
              match pipe_sendToAll (RNewEntities [mkEntity id PLAYER]) p2 with
              | (Thrown e, p3) =>
                  Game.addPlayer socket pinataId pinataToken g =
                  mkRes (Thrown e) (Game.with_pipe p3 g1)
                        [EmEntities; ConstructPlayer pinataId pinataToken;
                         ConsoleLog (AddingPlayer id); PipeAddSocket id socket;
                         EmGetState; PipeSend id (RNewEntities roster);
                         PipeSendToAll (RNewEntities [mkEntity id PLAYER])]
              | (Returned _, p3) =>
                  match pipe_send id (RGameState snapshot (Game._frame g)) p3 with
                  | (o, p4) =>
                      Game.addPlayer socket pinataId pinataToken g =
                      mkRes (match o with
                             | Returned _ => Returned id
                             | Thrown e => Thrown e
                             end)
                            (Game.with_pipe p4 g1)
                            [EmEntities; ConstructPlayer pinataId pinataToken;
                             ConsoleLog (AddingPlayer id);
                             PipeAddSocket id socket; EmGetState;
                             PipeSend id (RNewEntities roster);
                             PipeSendToAll (RNewEntities [mkEntity id PLAYER]);
                             PipeSend id (RGameState snapshot (Game._frame g))]
                  end
              end
          end
      end
  end.
Proof.
  cbv zeta.
  destruct (constructPlayer pinataId pinataToken (Game._em g))
    as [[id|e] w1] eqn:Ec; [|unfold Game.addPlayer; (etransitivity; [run_calls | reflexivity])].
  destruct (pipe_addSocket id socket (Game._pipe g)) as [[[]|e] p1] eqn:Ea;
    [|unfold Game.addPlayer; (etransitivity; [run_calls | reflexivity])].
  destruct (pipe_send id (RNewEntities (em_entities (Game._em g))) p1)
    as [[[]|e] p2] eqn:Es1; [|unfold Game.addPlayer; (etransitivity; [run_calls | reflexivity])].
  destruct (pipe_sendToAll (RNewEntities [mkEntity id PLAYER]) p2)
    as [[[]|e] p3] eqn:Eb; [|unfold Game.addPlayer; (etransitivity; [run_calls | reflexivity])].
  destruct (pipe_send id (RGameState (em_getState w1) (Game._frame g)) p3)
    as [[[]|e] p4] eqn:Es2; unfold Game.addPlayer; (etransitivity; [run_calls | reflexivity]).
Qed.
End JoinAndLeaveFacts.

Section JoinAndLeave.
Context {W P : Type} `{EntityManagerContract W} `{PipeContract P}.

(** C7.  When [removePlayer id] returns: the entity was removed from the
    store and then its connection from the pipe, both before the
    broadcast, which was made to a pipe that no longer had the connection;
    exactly one ENTITIES_DELETED broadcast was made and it names [id];
    afterwards the pipe has no connection for [id] and the roster does not
    contain [id].  (Given the contracts of the store and of the pipe.) *)
Theorem removePlayer_sequence (g : Game.t W P) (id : EntityId) :
  result (Game.removePlayer id g) = Returned tt ->
  exists w1 p1 p2,
    em_removeEntity id (Game._em g) = (Returned tt, w1) /\
    pipe_removeSocket id (Game._pipe g) = (Returned tt, p1) /\
    pipe_sendToAll (REntitiesDeleted [mkEntity id PLAYER]) p1 = (Returned tt, p2) /\
    ~ In id (map entity_id (em_entities w1)) /\
    ~ In id (connections p1) /\
    final (Game.removePlayer id g) = Game.with_pipe p2 (Game.with_em w1 g) /\
    events (Game.removePlayer id g)
      = [ConsoleLog (RemovingPlayer id); EmRemoveEntity id;
         PipeRemoveSocket id;
         PipeSendToAll (REntitiesDeleted [mkEntity id PLAYER])] /\
    broadcasts ENTITIES_DELETED (events (Game.removePlayer id g))
      = [REntitiesDeleted [mkEntity id PLAYER]] /\
    ~ In id (connections (Game._pipe (final (Game.removePlayer id g)))) /\
    ~ In id (map entity_id
               (em_entities (Game._em (final (Game.removePlayer id g))))).
Proof.
  pose proof (removePlayer_unfold g id) as U. cbv zeta in U.
  destruct (em_removeEntity id (Game._em g)) as [[[]|e] w1] eqn:Er.
  2:{ rewrite U. discriminate. }
  destruct (pipe_removeSocket id (Game._pipe g)) as [[[]|e] p1] eqn:Ep.
  2:{ rewrite U. discriminate. }
  destruct (pipe_sendToAll (REntitiesDeleted [mkEntity id PLAYER]) p1)
    as [[[]|e] p2] eqn:Es; rewrite U; cbn [fst snd result final events];
    [|discriminate].
  intros _.
  assert (Hroster : ~ In id (map entity_id (em_entities w1)))
    by exact (@removeEntity_roster W _ _ id _ _ Er).
  assert (Hconn : ~ In id (connections p1)).
  { intros Hin. apply (@removeSocket_connections P _ _ id _ _ Ep) in Hin.
    destruct Hin as [Hne _]. apply Hne. reflexivity. }
  exists w1, p1, p2.
  repeat (split; [first [reflexivity | assumption]|]).
  split.
  - change (Game._pipe (Game.with_pipe p2 (Game.with_em w1 g))) with p2.
    rewrite (@sendToAll_connections P _ _ _ _ _ _ Es). exact Hconn.
  - exact Hroster.
Qed.

(** C5.  When [addPlayer] returns [id], it has, in this order: read the
    roster, created the player, registered the connection under [id],
    sent that earlier roster to [id], broadcast a NEW_ENTITIES message
    naming only the new player, and sent to [id] a GAME_STATE message with
    the snapshot taken after the creation and the current frame number.
    The roster sent does not contain [id], the snapshot does, and the
    broadcast was made to a pipe that had the connections it had before
    and the new one.  (Given the contracts of the store and of the
    pipe.) *)
Theorem addPlayer_sequence (g : Game.t W P) (socket : WebSocket)
  (pinataId pinataToken : string) (id : EntityId) :
  result (Game.addPlayer socket pinataId pinataToken g) = Returned id ->
  let roster := em_entities (Game._em g) in
  exists w1 p1 p2 p3 p4,
    let snapshot := em_getState w1 in
    constructPlayer pinataId pinataToken (Game._em g) = (Returned id, w1) /\
    pipe_addSocket id socket (Game._pipe g) = (Returned tt, p1) /\
    pipe_send id (RNewEntities roster) p1 = (Returned tt, p2) /\
    pipe_sendToAll (RNewEntities [mkEntity id PLAYER]) p2 = (Returned tt, p3) /\
    pipe_send id (RGameState snapshot (Game._frame g)) p3 = (Returned tt, p4) /\
    final (Game.addPlayer socket pinataId pinataToken g)
      = Game.with_pipe p4 (Game.with_em w1 g) /\
    events (Game.addPlayer socket pinataId pinataToken g)
      = [EmEntities; ConstructPlayer pinataId pinataToken;
         ConsoleLog (AddingPlayer id); PipeAddSocket id socket; EmGetState;
         PipeSend id (RNewEntities roster);
         PipeSendToAll (RNewEntities [mkEntity id PLAYER]);
         PipeSend id (RGameState snapshot (Game._frame g))] /\
    ~ In id (map entity_id roster) /\
    In id (map packet_entityId snapshot) /\
    In id (connections p2) /\
    (forall i, In i (connections (Game._pipe g)) -> In i (connections p2)).
Proof.
  pose proof (addPlayer_unfold g socket pinataId pinataToken) as U.
  cbv zeta in U. cbv zeta.
  destruct (constructPlayer pinataId pinataToken (Game._em g))
    as [[id'|e] w1] eqn:Ec.
  2:{ rewrite U. discriminate. }
  destruct (pipe_addSocket id' socket (Game._pipe g)) as [[[]|e] p1] eqn:Ea.
  2:{ rewrite U. discriminate. }
  destruct (pipe_send id' (RNewEntities (em_entities (Game._em g))) p1)
    as [[[]|e] p2] eqn:Es1.
  2:{ rewrite U. discriminate. }
  destruct (pipe_sendToAll (RNewEntities [mkEntity id' PLAYER]) p2)
    as [[[]|e] p3] eqn:Eb.
  2:{ rewrite U. discriminate. }
  destruct (pipe_send id' (RGameState (em_getState w1) (Game._frame g)) p3)
    as [[[]|e] p4] eqn:Es2; rewrite U; cbn [result final events];
    [|discriminate].
  intros [= <-].
  exists w1, p1, p2, p3, p4.
  repeat (split; [first [reflexivity | assumption]|]).
  split; [exact (@constructPlayer_fresh W _ _ _ _ _ _ _ Ec)|].
  split; [exact (@constructPlayer_state W _ _ _ _ _ _ _ Ec)|].
  rewrite (@send_connections P _ _ _ _ _ _ _ Es1).
  split.
  - apply (@addSocket_connections P _ _ _ _ _ _ Ea). left. reflexivity.
  - intros i Hi. apply (@addSocket_connections P _ _ _ _ _ _ Ea). right. exact Hi.
Qed.
End JoinAndLeave.

Section ColourFacts.
Variable clamp : Q -> Q -> Q -> Q.
Hypothesis clamp_ok : Colour.clamps clamp.

Lemma clamp_in_unit value : Colour.in_unit (clamp value 0%Q 1%Q).
Proof. apply clamp_ok. discriminate. Qed.

Lemma assign_in_range c s :
  Colour.channels_in_range c -> Colour.channels_in_range (Colour.assign clamp c s).
Proof.
  intros (Hr & Hg & Hb & Ha).
  destruct s; unfold Colour.channels_in_range; simpl;
    repeat split; try apply clamp_in_unit; try apply Hr; try apply Hg;
    try apply Hb; try apply Ha.
Qed.

Lemma constructor_in_range r g b a :
  Colour.channels_in_range (Colour.constructor clamp r g b a).
Proof.
  unfold Colour.constructor, Colour.channels_in_range. simpl.
  repeat split; apply clamp_in_unit.
Qed.

(** Every write of a channel stores the clamp of what is written. *)
Lemma assignments_clamp (ss : list Colour.assignment) : forall vr vg vb va,
  fold_left (Colour.assign clamp) ss
            (Colour.mk (clamp vr 0%Q 1%Q) (clamp vg 0%Q 1%Q)
                       (clamp vb 0%Q 1%Q) (clamp va 0%Q 1%Q))
  = Colour.mk (clamp (Colour.last_written Colour.R vr ss) 0%Q 1%Q)
              (clamp (Colour.last_written Colour.G vg ss) 0%Q 1%Q)
              (clamp (Colour.last_written Colour.B vb ss) 0%Q 1%Q)
              (clamp (Colour.last_written Colour.A va ss) 0%Q 1%Q).
Proof.
  induction ss as [|s ss IH]; intros vr vg vb va; [reflexivity|].
  destruct s; simpl; apply IH.
Qed.

(** C10.  After construction, and after any sequence of assignments to
    [r], [g], [b] and [a], each getter returns [clamp(v, 0, 1)] for the
    value [v] written last to its channel, by an assignment or else by the
    constructor (which writes its arguments, 1.0 for a missing [a]): every
    write clamps its input and the getters return what was stored.  So
    each of the four channels lies in [0, 1], given that [clamp] returns a
    value within the bounds it is given. *)
Theorem colour_channels_in_range r g b a (assignments : list Colour.assignment) :
  let c := fold_left (Colour.assign clamp) assignments
                     (Colour.constructor clamp r g b a) in
  let alpha := match a with Some v => v | None => 1%Q end in
  Colour.channels_in_range c /\
  Colour.r c = clamp (Colour.last_written Colour.R r assignments) 0%Q 1%Q /\
  Colour.g c = clamp (Colour.last_written Colour.G g assignments) 0%Q 1%Q /\
  Colour.b c = clamp (Colour.last_written Colour.B b assignments) 0%Q 1%Q /\
  Colour.a c = clamp (Colour.last_written Colour.A alpha assignments) 0%Q 1%Q.
Proof.
  cbv zeta.
  assert (E : Colour.constructor clamp r g b a
              = Colour.mk (clamp r 0%Q 1%Q) (clamp g 0%Q 1%Q) (clamp b 0%Q 1%Q)
                          (clamp (match a with Some v => v | None => 1%Q end)
                                 0%Q 1%Q)) by reflexivity.
  rewrite E, assignments_clamp.
  split; [|repeat split].
  unfold Colour.channels_in_range. simpl.
  repeat split; apply clamp_in_unit.
Qed.
End ColourFacts.

Lemma minmax_clamps : Colour.clamps Colour.minmax_clamp.
Proof.
  intros value lo hi Hle. unfold Colour.minmax_clamp. split.
  - apply Q.min_glb; [apply Q.le_max_r | exact Hle].
  - apply Q.le_min_r.
Qed.

(** ** The example world and pipe keep the contracts *)

Lemma max_id_bounds (es : list Entity) e :
  In e es -> (entity_id e <= Ref.max_id es)%N.
Proof.
  induction es as [|x es IH]; simpl; intros Hin; [contradiction|].
  destruct Hin as [-> | Hin].
  - apply N.le_max_l.
  - etransitivity; [apply IH; exact Hin | apply N.le_max_r].
Qed.

Lemma ref_world_contract : @EntityManagerContract Ref.World Ref.world.
Proof.
  constructor.
  - intros pinataId pinataToken w id w' E. simpl in E.
    unfold Ref.newPlayer in E. injection E as <- _.
    intros Hin. apply in_map_iff in Hin. destruct Hin as (e & He & Hin).
    apply max_id_bounds in Hin. simpl in He, Hin. lia.
  - intros pinataId pinataToken w id w' E. simpl in E.
    unfold Ref.newPlayer in E. injection E as <- <-. simpl.
    rewrite map_map, map_app, in_app_iff. right. simpl. left. reflexivity.
  - intros id w w' E. simpl in E. unfold Ref.removeEntity in E.
    injection E as <-. simpl.
    intros Hin. apply in_map_iff in Hin. destruct Hin as (e & He & Hin).
    apply filter_In in Hin. destruct Hin as (_ & Hne).
    rewrite He, N.eqb_refl in Hne. discriminate.
Qed.

Lemma unregister_connections id l i :
  In i (map fst (Ref.unregister id l)) <-> i <> id /\ In i (map fst l).
Proof.
  unfold Ref.unregister. rewrite !in_map_iff. split.
  - intros (c & <- & Hin). apply filter_In in Hin. destruct Hin as (Hin & Hne).
    split.
    + intros E. rewrite E, N.eqb_refl in Hne. discriminate.
    + exists c. auto.
  - intros (Hne & c & <- & Hin). exists c. split; [reflexivity|].
    apply filter_In. split; [exact Hin|].
    apply negb_true_iff, N.eqb_neq. exact Hne.
Qed.

Lemma ref_registry_contract : @PipeContract Ref.Registry Ref.registry.
Proof.
  constructor.
  - intros id socket p p' E. simpl in E. unfold Ref.addSocket in E.
    injection E as <-. intros i. simpl.
    rewrite unregister_connections. split.
    + intros [<- | (_ & Hin)]; auto.
    + intros [-> | Hin]; [auto|].
      destruct (N.eq_dec id i) as [-> | Hne]; auto.
  - intros id p p' E. simpl in E. unfold Ref.removeSocket in E.
    injection E as <-. intros i. simpl. apply unregister_connections.
  - intros id m p o p' E. simpl in E. unfold Ref.send in E.
    destruct (Ref.closed p); injection E as _ <-; reflexivity.
  - intros m p o p' E. simpl in E. unfold Ref.sendToAll in E.
    destruct (Ref.closed p); injection E as _ <-; reflexivity.
Qed.

(** ** Examples *)

Section Examples.
Local Open Scope N_scope.
Transparent GameLogic._handlePlayerAction GameLogic.resolve_one
  GameLogic.retry_queued GameLogic.update Game._tick.

(** C1, as stated, fails: entity 1's move is held and fails again, the
    moves of entities 2 and 3 arrive and both fail; the move of entity 2
    is "a later action that also fails", yet the slot ends up holding the
    move of entity 3. *)
Lemma overwrite_keeps_only_the_last_failure :
  let A := MoveAction 1 0 in
  let B := MoveAction 2 0 in
  let C := MoveAction 3 0 in
  let r := GameLogic.update [B; C] (GameLogic.mk Ref.crowded (Some A)) in
  result r = Returned tt /\
  attempts (events r) = [(A, Contended); (B, Contended); (C, Contended)] /\
  In B [B; C] /\
  GameLogic._queuedAction (final r) = Some C /\
  GameLogic._queuedAction (final r) <> Some B.
Proof.
  vm_compute. repeat split; auto. discriminate.
Qed.

Lemma last_write_wins_witness :
  GameLogic._queuedAction
    (final (GameLogic.update [MoveAction 2 0; MoveAction 3 0]
              (GameLogic.mk Ref.crowded (Some (MoveAction 1 0)))))
    = Some (MoveAction 3 0) /\
  forall ticks : list (Ref.World * list PlayerAction),
    MoveAction 1 0 <> MoveAction 3 0 ->
    (forall t, In t ticks -> ~ In (MoveAction 1 0) (snd t)) ->
    forall evs v, In evs (snd (passes (Some (MoveAction 3 0)) ticks)) ->
                  ~ In (MoveAction 1 0, v) (attempts evs).
Proof.
  apply (last_write_wins Ref.crowded (MoveAction 1 0) (MoveAction 3 0)
           [MoveAction 2 0; MoveAction 3 0] [MoveAction 2 0]).
  vm_compute. reflexivity.
Defined.

(** C2, as stated, fails: the moves of entities 1 and 2 arrive in one
    tick and both targets are busy.  The move of entity 1 is not in the
    slot after the pass and is not attempted on the next tick, although
    entity 1 is still busy then and the move never succeeded. *)
Lemma busy_move_can_be_dropped :
  let M1 := MoveAction 1 0 in
  let M2 := MoveAction 2 0 in
  let run := passes None [(Ref.crowded, [M1; M2]); (Ref.crowded, [])] in
  busy 1 Ref.crowded /\
  map attempts (snd run)
    = [[(M1, Contended); (M2, Contended)]; [(M2, Contended)]] /\
  fst run = Some M2.
Proof.
  vm_compute. repeat split.
Qed.

Lemma move_applied_or_retried_witness :
  let a := MoveAction 1 0 in
  let ticks := [(Ref.crowded, []); (Ref.crowded, [MoveAction 4 0])]
               ++ [(Ref.still, [MoveAction 2 0])] in
  fst (passes (Some a) ticks) = None /\
  map first_attempt (snd (passes (Some a) ticks))
    = repeat (Some (a, Contended)) 2 ++ [Some (a, Applied)] /\
  In (PhysicsMoveEntity 1 0) (last (snd (passes (Some a) ticks)) []).
Proof.
  apply (proj2 (proj2 (proj2 (move_applied_or_retried (W := Ref.World) 1 0))))
    with (w' := snd (Ref.moveEntity 1 0 Ref.still)).
  - repeat constructor; vm_compute; repeat constructor.
  - split; reflexivity.
  - reflexivity.
  - reflexivity.
  - vm_compute. repeat constructor.
Defined.

(** C8, as stated, fails: an unrecognised action is held, another
    unrecognised action arrives.  No attempt fails on contention, yet the
    slot is overwritten and the first action is not retried on the next
    tick. *)
Lemma unrecognised_can_be_overwritten_without_contention :
  let X := OtherAction 7 4 in
  let Y := OtherAction 8 2 in
  let run := passes (Some X) [(Ref.still, [Y]); (Ref.still, [])] in
  map attempts (snd run)
    = [[(X, Unrecognised); (Y, Unrecognised)]; [(Y, Unrecognised)]] /\
  Forall (fun av => snd av <> Contended) (attempts (List.concat (snd run))) /\
  fst run = Some Y.
Proof.
  vm_compute. repeat split. repeat constructor; discriminate.
Qed.

Lemma unrecognised_is_retried_witness :
  let x := OtherAction 7 4 in
  let ticks := [(Ref.still, []); (Ref.crowded, [MoveAction 4 0]); (Ref.still, [])] in
  fst (passes (Some x) ticks) = Some x /\
  Forall (fun evs => exists rest,
            evs = ConsoleLog Handling :: Attempted x Unrecognised :: rest)
         (snd (passes (Some x) ticks)).
Proof.
  apply (proj2 (proj2 (unrecognised_is_retried (W := Ref.World) 7 4))).
  repeat constructor; vm_compute; repeat constructor.
Defined.

(** C9, as stated, fails: an unrecognised action lands in the slot
    although its target is not busy and no busy answer was ever given
    for it. *)
Lemma slot_can_hold_an_action_that_was_not_contended :
  let X := OtherAction 7 4 in
  let run := passes None [(Ref.still, [X])] in
  fst run = Some X /\
  idle 4 Ref.still /\
  attempts (List.concat (snd run)) = [(X, Unrecognised)] /\
  ~ slot_holds_contended (fst run) (List.concat (snd run)).
Proof.
  vm_compute. repeat split.
  intros (before & since & E & _).
  destruct before as [|x before]; [discriminate|].
  destruct before; discriminate.
Qed.

Lemma tick_failure_is_contained_witness :
  result (Game._tick Ref.stalled) = Thrown "simulation failed"%string /\
  Game._frame (final (Game._tick Ref.stalled)) = 5 /\
  Game._actionQueue (final (Game._tick Ref.stalled)) = [] /\
  Ref.moving (Game._em (final (Game._tick Ref.stalled))) = [1] /\
  failure_point Ref.stalled "simulation failed"%string.
Proof.
  assert (Hthrown : result (Game._tick Ref.stalled) = Thrown "simulation failed"%string)
    by (vm_compute; reflexivity).
  destruct (tick_failure_is_contained Ref.stalled _ Hthrown)
    as (_ & Hframe & _ & Hpoint & _).
  split; [exact Hthrown|]. split; [exact Hframe|].
  split; [vm_compute; reflexivity|]. split; [vm_compute; reflexivity|].
  exact Hpoint.
Defined.

Lemma tick_broadcasts_dirties_witness :
  pipe_calls (events (Game._tick Ref.playing))
    = [PipeSendToAll (RGameState [mkPacket 4 SPATIAL 0] 5)] /\
  Ref.wire (Game._pipe (final (Game._tick Ref.playing)))
    = [(1, RGameState [mkPacket 4 SPATIAL 0] 5);
       (2, RGameState [mkPacket 4 SPATIAL 0] 5)].
Proof.
  destruct (@tick_broadcasts_dirties Ref.World Ref.Registry Ref.world
              Ref.registry Ref.playing
              (Ref.mkWorld [] (Ref.roster Ref.still) [mkPacket 4 SPATIAL 0] false)
              [mkPacket 4 SPATIAL 0]
              (Ref.mkWorld [] (Ref.roster Ref.still) [] false)
              ltac:(vm_compute; reflexivity) ltac:(vm_compute; reflexivity)
              ltac:(vm_compute; reflexivity)) as (_ & Hsome).
  destruct (Hsome ltac:(discriminate)) as (Hcalls & _ & Hpipe).
  split; [exact Hcalls|]. rewrite Hpipe. reflexivity.
Defined.

Lemma removePlayer_sequence_witness :
  ~ In 2 (connections (Game._pipe (final (Game.removePlayer 2 Ref.playing)))) /\
  ~ In 2 (map entity_id (em_entities (Game._em (final (Game.removePlayer 2 Ref.playing))))) /\
  broadcasts ENTITIES_DELETED (events (Game.removePlayer 2 Ref.playing))
    = [REntitiesDeleted [mkEntity 2 PLAYER]].
Proof.
  destruct (@removePlayer_sequence Ref.World Ref.Registry Ref.world
              ref_world_contract Ref.registry ref_registry_contract Ref.playing 2 ltac:(vm_compute; reflexivity))
    as (w1 & p1 & p2 & _ & _ & _ & _ & _ & _ & _ & Hb & Hc & Hr).
  auto.
Defined.

Lemma addPlayer_sequence_witness :
  exists snapshot,
    events (Game.addPlayer 13 "pinata" "token" Ref.playing)
      = [EmEntities; ConstructPlayer "pinata" "token";
         ConsoleLog (AddingPlayer 5); PipeAddSocket 5 13; EmGetState;
         PipeSend 5 (RNewEntities (Ref.roster Ref.still));
         PipeSendToAll (RNewEntities [mkEntity 5 PLAYER]);
         PipeSend 5 (RGameState snapshot 5)] /\
    ~ In 5 (map entity_id (Ref.roster Ref.still)) /\
    In 5 (map packet_entityId snapshot).
Proof.
  destruct (@addPlayer_sequence Ref.World Ref.Registry Ref.world
              ref_world_contract Ref.registry ref_registry_contract Ref.playing 13 "pinata"%string "token"%string
              5 ltac:(vm_compute; reflexivity))
    as (w1 & p1 & p2 & p3 & p4 & _ & _ & _ & _ & _ & _ & Hev & Hfresh & Hsnap & _).
  exists (em_getState w1). auto.
Defined.

Lemma colour_channels_in_range_witness :
  let c := fold_left (Colour.assign Colour.minmax_clamp)
                     [Colour.AssignR (7 # 2); Colour.AssignA (-1 # 1)]
                     (Colour.constructor Colour.minmax_clamp
                                         (3 # 1) (1 # 2) (-2 # 1) None) in
  Colour.channels_in_range c /\
  Colour.r c = 1%Q /\ Colour.g c = (1 # 2)%Q /\ Colour.b c = 0%Q /\
  Colour.a c = 0%Q.
Proof.
  exact (colour_channels_in_range Colour.minmax_clamp minmax_clamps
           (3 # 1) (1 # 2) (-2 # 1) None
           [Colour.AssignR (7 # 2); Colour.AssignA (-1 # 1)]).
Defined.
End Examples.

(* ================================================================== *)
(** * More about the dispatcher *)

Lemma moves_app l1 l2 : moves (l1 ++ l2) = moves l1 ++ moves l2.
Proof.
  induction l1 as [|ev l1 IH]; simpl; [reflexivity|].
  destruct ev; simpl; rewrite ?IH; reflexivity.
Qed.

Lemma applied_moves_app l1 l2 :
  applied_moves (l1 ++ l2) = applied_moves l1 ++ applied_moves l2.
Proof.
  induction l1 as [|[[p d|t p] [| |]] l1 IH]; simpl; rewrite ?IH; reflexivity.
Qed.

Section AccountFacts.
Context {W : Type} `{EntityManager W}.

Lemma commanded_app ms1 ms2 (w : W) :
  commanded (ms1 ++ ms2) w = commanded ms2 (commanded ms1 w).
Proof. apply fold_left_app. Qed.

Lemma handle_accounted a (gl : GameLogic.t W) :
  accounted [a] gl (GameLogic._handlePlayerAction a gl).
Proof.
  destruct a as [p d | tag p]; [|repeat split].
  unfold accounted, store_threw.
  unfold GameLogic._handlePlayerAction, GameLogic._movePlayer, bind,
    GameLogic.query, GameLogic.command, emit, ret,
    GameLogic.set_queuedAction, modify.
  simpl.
  destruct (em_getSystem PHYSICS (GameLogic._entityManager gl))
    as [[]|e] eqn:Ep; simpl.
  2:{ split; [reflexivity|]. exists p, d, []. repeat split; auto. }
  destruct (em_getSystem SPATIAL (GameLogic._entityManager gl))
    as [[]|e] eqn:Es; simpl.
  2:{ split; [reflexivity|]. exists p, d, []. repeat split; auto. }
  destruct (spatial_entityIsMoving p (GameLogic._entityManager gl))
    as [[|]|e] eqn:Em; simpl.
  - repeat split.
  - destruct (physics_moveEntity p d (GameLogic._entityManager gl))
      as [[[]|e] w'] eqn:Ec; simpl.
    + unfold commanded. simpl. rewrite Ec. repeat split.
    + unfold commanded. simpl. rewrite Ec.
      split; [reflexivity|]. exists p, d, [].
      split; [reflexivity|]. split; [|right; reflexivity].
      right. right. right. exists (GameLogic._entityManager gl). exact Ec.
  - split; [reflexivity|]. exists p, d, []. repeat split; auto.
Qed.

Lemma accounted_bind {A B} todo1 todo2
  (m : Eff (GameLogic.t W) A) (f : A -> Eff (GameLogic.t W) B) gl :
  accounted todo1 gl (m gl) ->
  (forall a, result (m gl) = Returned a ->
             accounted todo2 (final (m gl)) (f a (final (m gl)))) ->
  accounted (todo1 ++ todo2) gl (bind m f gl).
Proof.
  unfold accounted, bind.
  destruct (m gl) as [[a|e] fin evs]; cbn [result final events];
    intros (Hw & Hr) Hnext.
  - destruct Hr as (Ha & Hm).
    specialize (Hnext a eq_refl).
    destruct (f a fin) as [res2 fin2 evs2]. destruct Hnext as (Hw2 & Hr2).
    cbn [result final events] in *.
    split.
    + rewrite moves_app, commanded_app, <- Hw. exact Hw2.
    + rewrite attempts_app, moves_app, applied_moves_app, map_app, Ha, Hm.
      destruct res2 as [b|e].
      * destruct Hr2 as (Ha2 & Hm2). rewrite Ha2, Hm2. auto.
      * destruct Hr2 as (p & d & rest & Ht & Hs & Hmv).
        exists p, d, rest. rewrite Ht, <- app_assoc.
        split; [reflexivity|]. split; [exact Hs|].
        destruct Hmv as [-> | ->]; [left | right];
          rewrite <- ?app_assoc; reflexivity.
  - split; [exact Hw|].
    destruct Hr as (p & d & rest & Ht & Hs & Hmv).
    exists p, d, (rest ++ todo2). rewrite Ht, <- app_assoc.
    auto.
Qed.

Lemma accounted_silent {A} (gl : GameLogic.t W) (a : A) slot :
  accounted [] gl
    (mkRes (Returned a) (GameLogic.mk (GameLogic._entityManager gl) slot) []).
Proof. split; simpl; auto. Qed.

Lemma resolve_one_accounted a (gl : GameLogic.t W) :
  accounted [a] gl (GameLogic.resolve_one a gl).
Proof.
  unfold GameLogic.resolve_one.
  change [a] with ([a] ++ []).
  apply accounted_bind; [apply handle_accounted|].
  intros ok _.
  destruct (final (GameLogic._handlePlayerAction a gl)) as [w s].
  destruct ok; apply (accounted_silent (GameLogic.mk w s)).
Qed.

Lemma forEach_accounted actions : forall gl : GameLogic.t W,
  accounted actions gl (forEach GameLogic.resolve_one actions gl).
Proof.
  induction actions as [|a actions IH]; intros gl.
  - destruct gl as [w s]. apply (accounted_silent (GameLogic.mk w s)).
  - simpl forEach. change (a :: actions) with ([a] ++ actions).
    apply accounted_bind; [apply resolve_one_accounted|].
    intros _ _. apply IH.
Qed.

Lemma retry_queued_accounted (gl : GameLogic.t W) :
  accounted (agenda (GameLogic._queuedAction gl) []) gl
            (GameLogic.retry_queued gl).
Proof.
  unfold GameLogic.retry_queued.
  rewrite (bind_eq _ _ _ _ _ _
             (eq_refl : gets GameLogic._queuedAction gl
                        = mkRes (Returned (GameLogic._queuedAction gl)) gl [])).
  cbn [result final events app].
  destruct (GameLogic._queuedAction gl) as [a|]; simpl agenda.
  - assert (Hb : accounted ([a] ++ []) gl
                   ((ok <- GameLogic._handlePlayerAction a ;;
                     if (ok : bool) then GameLogic.set_queuedAction None
                     else ret tt) gl)).
    { apply accounted_bind; [apply handle_accounted|].
      intros ok _.
      destruct (final (GameLogic._handlePlayerAction a gl)) as [w s].
      destruct ok; apply (accounted_silent (GameLogic.mk w s)). }
    destruct ((ok <- GameLogic._handlePlayerAction a ;;
               if (ok : bool) then GameLogic.set_queuedAction None
               else ret tt) gl) as [res fin evs].
    exact Hb.
  - destruct gl as [w s]. apply (accounted_silent (GameLogic.mk w s)).
Qed.

Lemma update_accounted actions (gl : GameLogic.t W) :
  accounted (agenda (GameLogic._queuedAction gl) actions) gl
            (GameLogic.update actions gl).
Proof.
  unfold GameLogic.update.
  replace (agenda (GameLogic._queuedAction gl) actions)
    with (agenda (GameLogic._queuedAction gl) [] ++ actions)
    by (destruct (GameLogic._queuedAction gl); reflexivity).
  apply accounted_bind; [apply retry_queued_accounted|].
  intros _ _. apply forEach_accounted.
Qed.

(** X1.  A pass that returns has attempted the held action, if there was
    one, and then each action it was given, each exactly once and in the
    order of arrival.  A pass throws only in a call to the store made for
    a move: the actions before that move have been attempted, the move and
    the actions after it have not; the dispatcher throws nothing of its
    own and an unrecognised action never makes it throw. *)
Theorem pass_attempts_agenda_in_order actions (gl : GameLogic.t W) :
  let r := GameLogic.update actions gl in
  match result r with
  | Returned _ =>
      map fst (attempts (events r))
        = agenda (GameLogic._queuedAction gl) actions
  | Thrown e =>
      exists p d rest,
        agenda (GameLogic._queuedAction gl) actions
          = map fst (attempts (events r)) ++ MoveAction p d :: rest /\
        store_threw p d (GameLogic._entityManager (final r)) e
  end.
Proof.
  cbv zeta. destruct (update_accounted actions gl) as (_ & Hr).
  destruct (result (GameLogic.update actions gl)) as [u|e].
  - apply Hr.
  - destruct Hr as (p & d & rest & Ht & Hs & _). eauto.
Qed.

(** X2.  The store after a pass is the store before it with the moves
    the pass commanded applied in order: nothing else touches it, so
    rejected actions leave no trace in the world.  In a pass that returns
    the commanded moves are exactly the moves recorded as applied, one
    command each; in a pass that throws there is at most one more, the
    command that threw. *)
Theorem pass_commands_applied_moves actions (gl : GameLogic.t W) :
  let r := GameLogic.update actions gl in
  GameLogic._entityManager (final r)
    = commanded (moves (events r)) (GameLogic._entityManager gl) /\
  match result r with
  | Returned _ => moves (events r) = applied_moves (attempts (events r))
  | Thrown _ =>
      moves (events r) = applied_moves (attempts (events r)) \/
      exists p d,
        moves (events r) = applied_moves (attempts (events r)) ++ [(p, d)]
  end.
Proof.
  cbv zeta. destruct (update_accounted actions gl) as (Hw & Hr).
  split; [exact Hw|].
  destruct (result (GameLogic.update actions gl)) as [u|e].
  - apply Hr.
  - destruct Hr as (p & d & rest & _ & _ & [Hm | Hm]); eauto.
Qed.
End AccountFacts.


(** ** What a verdict stands for *)

Ltac settle :=
  repeat apply conj; try (simpl; lia); intros Hx;
  repeat match goal with
    | Hy : exists _, _ |- _ => destruct Hy
    | Hy : _ /\ _ |- _ => destruct Hy
    | Hy : MoveAction _ _ = MoveAction _ _ |- _ => injection Hy as ? ?; subst
    | Hy : fst ?x = _, Ey : ?x = _ |- _ => rewrite Ey in Hy; simpl in Hy
    end;
  try discriminate; try congruence; eauto 7.

Section VerdictFacts.
Context {W : Type} `{EntityManager W}.

(** X12.  The verdict recorded for an attempt is decided by what the
    systems answered, and by nothing else.  An attempt is recorded as
    contended exactly when it is a move, both systems were found and the
    spatial system answered that the player is in motion; as applied
    exactly when it is a move, both systems were found, the spatial system
    answered that the player is not in motion and [moveEntity] returned; as
    unrecognised exactly when it is not a move.  It records nothing exactly
    when it throws, and it returns [true] exactly when it is recorded as
    applied.  No attempt records two verdicts. *)
Theorem attempt_verdict_exactly (a : PlayerAction) (gl : GameLogic.t W) :
  let r := GameLogic._handlePlayerAction a gl in
  let w := GameLogic._entityManager gl in
  (List.length (attempts (events r)) <= 1)%nat /\
  (attempts (events r) = [(a, Contended)] <->
   exists p d, a = MoveAction p d /\ systems_ready w /\ busy p w) /\
  (attempts (events r) = [(a, Applied)] <->
   exists p d, a = MoveAction p d /\ systems_ready w /\ idle p w /\
               fst (physics_moveEntity p d w) = Returned tt) /\
  (attempts (events r) = [(a, Unrecognised)] <->
   exists tag p, a = OtherAction tag p) /\
  (attempts (events r) = [] <-> exists e, result r = Thrown e) /\
  (attempts (events r) = [(a, Applied)] <-> result r = Returned true).
Proof.
  cbv zeta. destruct a as [p d | tag p].
  - unfold systems_ready, busy, idle.
    unfold GameLogic._handlePlayerAction, GameLogic._movePlayer, bind,
      GameLogic.query, GameLogic.command, emit, ret,
      GameLogic.set_queuedAction, modify.
    simpl.
    destruct (em_getSystem PHYSICS (GameLogic._entityManager gl))
      as [[]|e] eqn:Ep; simpl; [|settle].
    destruct (em_getSystem SPATIAL (GameLogic._entityManager gl))
      as [[]|e] eqn:Es; simpl; [|settle].
    destruct (spatial_entityIsMoving p (GameLogic._entityManager gl))
      as [[|]|e] eqn:Em; simpl; [settle| |settle].
    destruct (physics_moveEntity p d (GameLogic._entityManager gl))
      as [[[]|e] w'] eqn:Ec; simpl; settle.
    exists p, d. rewrite Ec. auto.
  - rewrite handle_unrecognised. simpl. settle.
Qed.
End VerdictFacts.

(* ================================================================== *)
(** * More about the session *)

Section QueueFacts.
Context {W P : Type} `{EntityManager W} `{Pipe P}.
Opaque GameLogic.update Game._tick.

Lemma tick_queue (g : Game.t W P) :
  Game._actionQueue (final (Game._tick g))
    = match result (GameLogic.update (Game._actionQueue g) (Game._gameLogic g)) with
      | Returned _ => []
      | Thrown _ => Game._actionQueue g
      end.
Proof.
  pose proof (tick_unfold g) as T. cbv zeta in T.
  destruct (result (GameLogic.update _ _)) as [[]|e].
  2:{ rewrite T. reflexivity. }
  destruct (em_update _) as [[[]|e] w2].
  2:{ rewrite T. reflexivity. }
  destruct (em_getDirties w2) as [[dirties|e] w3].
  2:{ rewrite T. reflexivity. }
  destruct (0 <? List.length dirties)%nat.
  2:{ rewrite T. reflexivity. }
  destruct (pipe_sendToAll _ _) as [[[]|e] p4]; rewrite T; reflexivity.
Qed.

Lemma arrivals_silent (arrived : list PlayerAction) : forall g : Game.t W P,
  attempts (events (forEach Game.onPlayerAction arrived g)) = [] /\
  pipe_calls (events (forEach Game.onPlayerAction arrived g)) = [].
Proof.
  induction arrived as [|a arrived IH]; intros g; [split; reflexivity|].
  simpl forEach.
  rewrite (bind_eq _ _ _ _ _ _ (onPlayerAction_enqueues a g)).
  cbn [result final events].
  destruct (IH (Game.with_actionQueue (Game._actionQueue g ++ [a]) g))
    as (Ha & Hp).
  rewrite attempts_app, pipe_calls_app, Ha, Hp. split; reflexivity.
Qed.

(** X3.  A tick hands the whole queue to the dispatcher.  If the
    dispatch returns, the queue is empty after the tick, also when a later
    phase of the tick throws; if the dispatch throws, the queue is left as
    it was, so the next tick hands the same actions to the dispatcher
    again, those already applied included. *)
Theorem tick_drains_queue_unless_dispatch_throws (g : Game.t W P) :
  attempts (events (Game._tick g))
    = attempts (events (GameLogic.update (Game._actionQueue g)
                                         (Game._gameLogic g))) /\
  Game._actionQueue (final (Game._tick g))
    = match result (GameLogic.update (Game._actionQueue g)
                                     (Game._gameLogic g)) with
      | Returned _ => []
      | Thrown _ => Game._actionQueue g
      end.
Proof.
  split; [apply (tick_dispatches g) | apply tick_queue].
Qed.

(** X4.  What arrives between two firings of the interval is attempted
    by the next firing, after what was already pending and in the order of
    arrival: the firing runs the dispatcher on the pending actions
    followed by the arrived ones.  If that pass returns, the held action
    and then each of these actions has been attempted once, and the queue
    is empty afterwards; if it throws, all of them stay queued. *)
Theorem firing_attempts_pending_then_arrived (g : Game.t W P)
  (arrived : list PlayerAction) :
  Game._loopTimeout g = true ->
  let pass := GameLogic.update (Game._actionQueue g ++ arrived)
                               (Game._gameLogic g) in
  let r := Game.run_interval Game.interval_callback [arrived] g in
  attempts (events r) = attempts (events pass) /\
  (result pass = Returned tt ->
   map fst (attempts (events r))
     = agenda (GameLogic._queuedAction (Game._gameLogic g))
              (Game._actionQueue g ++ arrived) /\
   Game._actionQueue (final r) = []) /\
  (forall e, result pass = Thrown e ->
   Game._actionQueue (final r) = Game._actionQueue g ++ arrived).
Proof.
  intros Harmed. cbv zeta. simpl Game.run_interval.
  destruct (arrivals_enqueue arrived g) as (Hr & Hf).
  destruct (arrivals_silent arrived g) as (Hs & _).
  destruct (forEach Game.onPlayerAction arrived g) as [r0 g0 e0] eqn:E0.
  simpl in Hr, Hf, Hs. subst r0.
  rewrite (bind_eq _ _ _ _ _ _ E0).
  rewrite (bind_eq _ _ _ _ _ _
             (eq_refl : gets Game._loopTimeout g0
                        = mkRes (Returned (Game._loopTimeout g0)) g0 [])).
  cbn [result final events].
  assert (Harm0 : Game._loopTimeout g0 = true)
    by (subst g0; exact Harmed).
  rewrite Harm0.
  destruct (tick_dispatches g0) as (_ & Hatt).
  pose proof (tick_queue g0) as Hq.
  assert (Eq0 : Game._actionQueue g0 = Game._actionQueue g ++ arrived)
    by (subst g0; reflexivity).
  assert (Egl0 : Game._gameLogic g0 = Game._gameLogic g)
    by (subst g0; reflexivity).
  rewrite Eq0, Egl0 in Hatt, Hq.
  pose proof (update_accounted (Game._actionQueue g ++ arrived)
                               (Game._gameLogic g)) as (_ & Hacc).
  destruct (callback_cases g0) as (Hfin & Hres).
  destruct (Game.interval_callback g0) as [rc gc ec] eqn:Ec.
  assert (Hev : attempts ec = attempts (events (Game._tick g0))).
  { revert Ec. unfold Game.interval_callback, noThrow.
    destruct (result (Game._tick g0)); intros [= _ _ <-];
      rewrite ?attempts_app, ?app_nil_r; reflexivity. }
  simpl in Hfin, Hres. subst gc.
  assert (Hrun : exists rs,
             (r <- Game.interval_callback ;;
              rs <- ret [] ;;
              ret (r :: rs)) g0
             = mkRes (Returned rs) (final (Game._tick g0)) ec).
  { destruct Hres as [(_ & ->) | (e & _ & ->)];
      rewrite (bind_eq _ _ _ _ _ _ Ec); simpl; rewrite !app_nil_r; eauto. }
  destruct Hrun as (rs & Hrun). rewrite Hrun. cbn [result final events].
  rewrite !app_nil_l, attempts_app, Hs, Hev, Hatt. cbn [app].
  split; [reflexivity|]. split.
  - intros Hret. rewrite Hret in Hacc, Hq. destruct Hacc as (Hacc & _).
    rewrite Hacc. auto.
  - intros e Hthrown. rewrite Hthrown in Hq. exact Hq.
Qed.

End QueueFacts.

Section PartialJoinAndLeave.
Context {W P : Type} `{EntityManager W} `{Pipe P}.

(** X6.  [addPlayer] undoes nothing.  Whatever happens after it, the
    store is left as [constructPlayer] left it, and the queue, the frame
    counter, the timer and the slot are untouched.  If [constructPlayer]
    throws, the pipe has not been called.  If it returns, the calls made
    to the pipe are an initial part of: register the socket, send the
    roster, broadcast the new player, send the snapshot; the first of them
    is always made, and if fewer than four were made, [addPlayer] threw,
    leaving a player in the store that some or all clients were never told
    about. *)
Theorem addPlayer_never_rolls_back (g : Game.t W P) (socket : WebSocket)
  (pinataId pinataToken : string) :
  let r := Game.addPlayer socket pinataId pinataToken g in
  let made := constructPlayer pinataId pinataToken (Game._em g) in
  Game._em (final r) = snd made /\
  Game._actionQueue (final r) = Game._actionQueue g /\
  Game._frame (final r) = Game._frame g /\
  Game._loopTimeout (final r) = Game._loopTimeout g /\
  GameLogic._queuedAction (Game._gameLogic (final r))
    = GameLogic._queuedAction (Game._gameLogic g) /\
  match fst made with
  | Thrown e =>
      result r = Thrown e /\
      Game._pipe (final r) = Game._pipe g /\
      pipe_calls (events r) = []
  | Returned id =>
      exists n, (1 <= n <= 4)%nat /\
        pipe_calls (events r)
          = firstn n
              [PipeAddSocket id socket;
               PipeSend id (RNewEntities (em_entities (Game._em g)));
               PipeSendToAll (RNewEntities [mkEntity id PLAYER]);
               PipeSend id (RGameState (em_getState (snd made)) (Game._frame g))] /\
        ((n < 4)%nat -> exists e, result r = Thrown e)
  end.
Proof.
  cbv zeta.
  pose proof (addPlayer_unfold g socket pinataId pinataToken) as U.
  cbv zeta in U.
  destruct (constructPlayer pinataId pinataToken (Game._em g))
    as [[id|e] w1] eqn:Ec; cbn [fst snd].
  2:{ rewrite U. repeat (split; [reflexivity|]). reflexivity. }
  destruct (pipe_addSocket id socket (Game._pipe g)) as [[[]|e] p1] eqn:Ea.
  2:{ rewrite U. repeat (split; [reflexivity|]). exists 1%nat.
      split; [lia|]. split; [reflexivity|]. intros _. eexists. reflexivity. }
  destruct (pipe_send id (RNewEntities (em_entities (Game._em g))) p1)
    as [[[]|e] p2] eqn:Es1.
  2:{ rewrite U. repeat (split; [reflexivity|]). exists 2%nat.
      split; [lia|]. split; [reflexivity|]. intros _. eexists. reflexivity. }
  destruct (pipe_sendToAll (RNewEntities [mkEntity id PLAYER]) p2)
    as [[[]|e] p3] eqn:Eb.
  2:{ rewrite U. repeat (split; [reflexivity|]). exists 3%nat.
      split; [lia|]. split; [reflexivity|]. intros _. eexists. reflexivity. }
  destruct (pipe_send id (RGameState (em_getState w1) (Game._frame g)) p3)
    as [o p4] eqn:Es2.
  rewrite U. repeat (split; [reflexivity|]). exists 4%nat.
  split; [lia|]. split; [reflexivity|]. intros Hlt. exfalso. lia.
Qed.

(** X7.  [removePlayer] undoes nothing either.  The store is left as
    [removeEntity] left it; the queue, the frame counter, the timer and
    the slot are untouched.  If [removeEntity] throws, the pipe has not
    been called and the connection is kept; if [removeSocket] throws, the
    entity is gone from the store and no ENTITIES_DELETED broadcast was
    made; otherwise the two pipe calls were made, in this order. *)
Theorem removePlayer_never_rolls_back (g : Game.t W P) (id : EntityId) :
  let r := Game.removePlayer id g in
  let removed := em_removeEntity id (Game._em g) in
  Game._em (final r) = snd removed /\
  Game._actionQueue (final r) = Game._actionQueue g /\
  Game._frame (final r) = Game._frame g /\
  Game._loopTimeout (final r) = Game._loopTimeout g /\
  GameLogic._queuedAction (Game._gameLogic (final r))
    = GameLogic._queuedAction (Game._gameLogic g) /\
  match fst removed with
  | Thrown e =>
      result r = Thrown e /\
      Game._pipe (final r) = Game._pipe g /\
      pipe_calls (events r) = []
  | Returned _ =>
      match fst (pipe_removeSocket id (Game._pipe g)) with
      | Thrown e =>
          result r = Thrown e /\
          pipe_calls (events r) = [PipeRemoveSocket id] /\
          broadcasts ENTITIES_DELETED (events r) = []
      | Returned _ =>
          pipe_calls (events r)
            = [PipeRemoveSocket id;
               PipeSendToAll (REntitiesDeleted [mkEntity id PLAYER])]
      end
  end.
Proof.
  cbv zeta.
  pose proof (removePlayer_unfold g id) as U. cbv zeta in U.
  destruct (em_removeEntity id (Game._em g)) as [[[]|e] w1] eqn:Er;
    cbn [fst snd].
  2:{ rewrite U. repeat split. }
  destruct (pipe_removeSocket id (Game._pipe g)) as [[[]|e] p1] eqn:Ep;
    cbn [fst snd].
  2:{ rewrite U. repeat split. }
  destruct (pipe_sendToAll (REntitiesDeleted [mkEntity id PLAYER]) p1)
    as [o p2] eqn:Es.
  rewrite U. repeat split.
Qed.
End PartialJoinAndLeave.

(* ================================================================== *)
(** * More about colours *)

Lemma Qfloor_unique (x : Q) (z : Z) :
  (inject_Z z <= x)%Q -> (x < inject_Z (z + 1))%Q -> Qfloor x = z.
Proof.
  intros Hlo Hhi.
  assert (H1 : (z <= Qfloor x)%Z).
  { rewrite <- (Qfloor_Z z). apply Qfloor_resp_le. exact Hlo. }
  assert (H2 : (Qfloor x < z + 1)%Z).
  { rewrite Zlt_Qlt. eapply Qle_lt_trans; [apply Qfloor_le | exact Hhi]. }
  lia.
Qed.

Lemma Qfloor_shift (x : Q) (n : Z) :
  Qfloor (x + inject_Z n) = (Qfloor x + n)%Z.
Proof.
  apply Qfloor_unique.
  - rewrite inject_Z_plus. apply Qplus_le_l. apply Qfloor_le.
  - replace (Qfloor x + n + 1)%Z with ((Qfloor x + 1) + n)%Z by lia.
    rewrite inject_Z_plus. apply Qplus_lt_l. apply Qlt_floor.
Qed.

Lemma channel_byte (x : Q) :
  Colour.in_unit x -> (0 <= Qfloor (x * 256) <= 256)%Z.
Proof.
  intros [Hlo Hhi]. split.
  - change 0%Z with (Qfloor 0). apply Qfloor_resp_le.
    apply Qmult_le_0_compat; [exact Hlo | discriminate].
  - change 256%Z with (Qfloor (inject_Z 256)). apply Qfloor_resp_le.
    setoid_replace (inject_Z 256) with (1 * 256)%Q by reflexivity.
    apply Qmult_le_compat_r; [exact Hhi | discriminate].
Qed.

Section ColourValue.
Variable clamp : Q -> Q -> Q -> Q.
Hypothesis clamp_ok : Colour.clamps clamp.

Lemma fold_assign_in_range (assignments : list Colour.assignment) :
  forall c, Colour.channels_in_range c ->
            Colour.channels_in_range (fold_left (Colour.assign clamp) assignments c).
Proof.
  induction assignments as [|s rest IH]; intros c Hc; simpl.
  - exact Hc.
  - apply IH. apply (assign_in_range clamp clamp_ok). exact Hc.
Qed.

(** X8.  Whatever a colour was constructed from and whatever was assigned
    to its channels since, [value] is an integer between 0 and 69888
    (0x11100, reached by white): each channel contributes
    [floor(channel * 256)], between 0 and 256, and the three are weighted
    256, 16 and 1.  The alpha channel does not enter. *)
Theorem colour_value_bounds r g b a (assignments : list Colour.assignment) :
  let c := fold_left (Colour.assign clamp) assignments
                     (Colour.constructor clamp r g b a) in
  (0 <= Colour.value c <= 69888)%Z /\
  forall alpha, Colour.value (Colour.set_a clamp alpha c) = Colour.value c.
Proof.
  cbv zeta.
  destruct (fold_assign_in_range assignments _
              (constructor_in_range clamp clamp_ok r g b a))
    as (Hr & Hg & Hb & _).
  split; [|reflexivity].
  apply channel_byte in Hr, Hg, Hb. unfold Colour.value. lia.
Qed.
End ColourValue.

(** X9.  [value] does not keep the channels apart: the weights 256, 16
    and 1 overlap, so one step of red (1/256) weighs as much as sixteen
    steps of green (1/16), and one step of green as much as sixteen steps
    of blue.  Colours that differ in this way have the same [value]. *)
Theorem colour_value_overlaps r g b a :
  Colour.value (Colour.mk (r + (1 # 256)) (g - (1 # 16)) b a)
    = Colour.value (Colour.mk r g b a) /\
  Colour.value (Colour.mk r (g + (1 # 256)) (b - (1 # 16)) a)
    = Colour.value (Colour.mk r g b a).
Proof.
  unfold Colour.value, Colour.r, Colour.g, Colour.b. cbn [Colour._r Colour._g Colour._b].
  assert (Hup : forall x, Qfloor ((x + (1 # 256)) * 256) = (Qfloor (x * 256) + 1)%Z).
  { intros x. rewrite <- Qfloor_shift. apply Qfloor_comp.
    unfold Qeq; simpl; lia. }
  assert (Hdown : forall x, Qfloor ((x - (1 # 16)) * 256) = (Qfloor (x * 256) + -16)%Z).
  { intros x. rewrite <- Qfloor_shift. apply Qfloor_comp.
    unfold Qeq; simpl; lia. }
  rewrite !Hup, !Hdown. split; lia.
Qed.

(* ================================================================== *)
(** * Laying out the world *)

Lemma slices_partition {A} (n m : nat) (xs : list A) :
  Layout.slice 0 (Some n) xs ++ Layout.slice n (Some (n + m)%nat) xs
    ++ Layout.slice (n + m) None xs = xs.
Proof.
  unfold Layout.slice. rewrite Nat.sub_0_r, skipn_0.
  replace (n + m - n)%nat with m by lia.
  rewrite (Nat.add_comm n m), <- skipn_skipn.
  rewrite (firstn_skipn m (skipn n xs)). apply firstn_skipn.
Qed.

Lemma deal_partition (n m : nat) (coords : list (N * N)) :
  Layout.rockCoords (Layout.deal n m coords)
    ++ Layout.gemCoords (Layout.deal n m coords)
    ++ Layout.soilCoords (Layout.deal n m coords) = coords.
Proof. apply slices_partition. Qed.

Lemma deal_lengths (n m : nat) (coords : list (N * N)) :
  List.length (Layout.rockCoords (Layout.deal n m coords))
    = Nat.min n (List.length coords) /\
  List.length (Layout.gemCoords (Layout.deal n m coords))
    = Nat.min m (List.length coords - n) /\
  List.length (Layout.soilCoords (Layout.deal n m coords))
    = (List.length coords - (n + m))%nat.
Proof.
  unfold Layout.deal, Layout.slice. cbn [Layout.rockCoords Layout.gemCoords Layout.soilCoords].
  rewrite Nat.sub_0_r, skipn_0, Nat.add_0_l.
  replace (n + m - n)%nat with m by lia.
  rewrite !length_firstn, !length_skipn. auto.
Qed.

Lemma upto_In (n c : N) : In c (Layout.upto n) <-> (c < n)%N.
Proof.
  unfold Layout.upto. rewrite in_map_iff. split.
  - intros (k & <- & Hk). apply in_seq in Hk. lia.
  - intros Hc. exists (N.to_nat c). split; [apply N2Nat.id|].
    apply in_seq. lia.
Qed.

Lemma NoDup_map_injective {A B} (f : A -> B) (l : list A) :
  (forall x y, f x = f y -> x = y) -> NoDup l -> NoDup (map f l).
Proof.
  intros Hf. induction 1 as [|x l Hx Hl IH]; simpl; constructor; [|exact IH].
  intros Hin. apply in_map_iff in Hin. destruct Hin as (y & E & Hy).
  apply Hf in E. subst y. contradiction.
Qed.

Lemma upto_NoDup (n : N) : NoDup (Layout.upto n).
Proof.
  unfold Layout.upto. apply NoDup_map_injective; [|apply seq_NoDup].
  intros x y E. apply Nat2N.inj. exact E.
Qed.

Lemma upto_length (n : N) : List.length (Layout.upto n) = N.to_nat n.
Proof. unfold Layout.upto. rewrite length_map, length_seq. reflexivity. Qed.

Lemma NoDup_flat_map {A B} (f : A -> list B) (l : list A) :
  NoDup l ->
  (forall x, In x l -> NoDup (f x)) ->
  (forall x y z, In x l -> In y l -> In z (f x) -> In z (f y) -> x = y) ->
  NoDup (flat_map f l).
Proof.
  induction 1 as [|x l Hx Hl IH]; intros Hf Hd; simpl; [constructor|].
  apply NoDup_app.
  - apply Hf. left. reflexivity.
  - apply IH.
    + intros y Hy. apply Hf. right. exact Hy.
    + intros y1 y2 z H1 H2. apply Hd; right; assumption.
  - intros z Hz Hz'. apply in_flat_map in Hz'. destruct Hz' as (y & Hy & Hzy).
    apply Hx. rewrite (Hd x y z); auto.
    + left. reflexivity.
    + right. exact Hy.
Qed.

Section ScanFacts.
Variables WORLD_W WORLD_H BLOCK_SZ : N.

Lemma scan_In (skipped : N -> N -> bool) (xy : N * N) :
  In xy (Layout.scan WORLD_W WORLD_H BLOCK_SZ skipped) <->
  exists c r, Layout.is_cell WORLD_W WORLD_H BLOCK_SZ c r xy /\ skipped c r = false.
Proof.
  unfold Layout.scan, Layout.is_cell. rewrite in_flat_map. split.
  - intros (c & Hc & Hin). apply in_flat_map in Hin.
    destruct Hin as (r & Hr & Hin).
    apply upto_In in Hc, Hr.
    destruct (skipped c r) eqn:Es; [destruct Hin|].
    destruct Hin as [<- | []]. exists c, r. auto.
  - intros (c & r & (Hc & Hr & ->) & Es).
    exists c. split; [apply upto_In; exact Hc|].
    apply in_flat_map. exists r. split; [apply upto_In; exact Hr|].
    rewrite Es. left. reflexivity.
Qed.

Lemma scan_NoDup (skipped : N -> N -> bool) :
  (0 < BLOCK_SZ)%N -> NoDup (Layout.scan WORLD_W WORLD_H BLOCK_SZ skipped).
Proof.
  intros Hb. unfold Layout.scan.
  apply NoDup_flat_map; [apply upto_NoDup| |].
  - intros c _. apply NoDup_flat_map; [apply upto_NoDup| |].
    + intros r _. destruct (skipped c r); repeat constructor. intros [].
    + intros r1 r2 z _ _ H1 H2.
      destruct (skipped c r1); [destruct H1|].
      destruct (skipped c r2); [destruct H2|].
      destruct H1 as [<- | []]. destruct H2 as [E | []].
      injection E as E. apply N.mul_cancel_r in E; [auto | lia].
  - intros c1 c2 z _ _ H1 H2.
    apply in_flat_map in H1, H2.
    destruct H1 as (r1 & _ & H1). destruct H2 as (r2 & _ & H2).
    destruct (skipped c1 r1); [destruct H1|].
    destruct (skipped c2 r2); [destruct H2|].
    destruct H1 as [<- | []]. destruct H2 as [E | []].
    injection E as E _. apply N.mul_cancel_r in E; [auto | lia].
Qed.

Lemma scan_all_length :
  List.length (Layout.scan WORLD_W WORLD_H BLOCK_SZ (fun _ _ => false))
    = (N.to_nat WORLD_W * N.to_nat WORLD_H)%nat.
Proof.
  unfold Layout.scan.
  rewrite <- (upto_length WORLD_W), <- (upto_length WORLD_H).
  generalize (Layout.upto WORLD_H) as rs. generalize (Layout.upto WORLD_W) as cs.
  intros cs rs. induction cs as [|c cs IH]; simpl; [reflexivity|].
  rewrite length_app, IH. f_equal.
  clear IH. induction rs as [|r rs IH]; simpl; [reflexivity|].
  rewrite IH. reflexivity.
Qed.
End ScanFacts.

Section EffectFacts2.
Context {S : Type}.

Lemma bind_ext {A B} (m m' : Eff S A) (f f' : A -> Eff S B) (s : S) :
  m s = m' s -> (forall a s', f a s' = f' a s') -> bind m f s = bind m' f' s.
Proof.
  intros Em Ef. unfold bind. rewrite Em.
  destruct (m' s) as [[a|e] s1 evs1]; simpl; [|reflexivity].
  rewrite Ef. reflexivity.
Qed.

Lemma forEach_app {A} (f : A -> Eff S unit) (xs ys : list A) (s : S) :
  forEach f (xs ++ ys) s = (forEach f xs ;; forEach f ys) s.
Proof.
  revert s. induction xs as [|x xs IH]; intros s; simpl.
  - unfold bind, ret. simpl. destruct (forEach f ys s). reflexivity.
  - unfold bind. destruct (f x s) as [[[]|e] s1 evs1]; simpl; [|reflexivity].
    rewrite IH. unfold bind.
    destruct (forEach f xs s1) as [[[]|e] s2 evs2]; simpl; [|reflexivity].
    rewrite app_assoc. reflexivity.
Qed.

Lemma forEach_map {A B} (g : A -> B) (f : B -> Eff S unit) (xs : list A) (s : S) :
  forEach f (map g xs) s = forEach (fun x => f (g x)) xs s.
Proof.
  revert s. induction xs as [|x xs IH]; intros s; simpl; [reflexivity|].
  unfold bind. destruct (f (g x) s) as [[[]|e] s1 evs1]; simpl; [|reflexivity].
  rewrite IH. reflexivity.
Qed.
End EffectFacts2.

Section PopulateFacts.
Variables WORLD_W WORLD_H BLOCK_SZ : N.
Variable shuffle : list (N * N) -> list (N * N).
Hypothesis shuffle_permutes : forall l, Permutation l (shuffle l).
Context {W : Type} `{EntityManager W} `{Factory W}.

End PopulateFacts.

Section MapLoaderFacts.
Variables WORLD_W WORLD_H BLOCK_SZ : N.
Variable shuffle : list (N * N) -> list (N * N).
Hypothesis shuffle_permutes : forall l, Permutation l (shuffle l).
Context {R : Type} `{Span2d R}.

Lemma position_describe t cr : Layout.position (Layout.describe t cr) = cr.
Proof. destruct cr. reflexivity. Qed.

Lemma type_describe t cr : Layout.type (Layout.describe t cr) = t.
Proof. destruct cr. reflexivity. Qed.

Lemma map_const {A B} (b : B) (l : list A) :
  map (fun _ => b) l = repeat b (List.length l).
Proof. induction l; simpl; congruence. Qed.

(** X11.  The map [loadMapData] returns describes exactly one entity for
    every cell of the grid that is neither the cell in column 0 of the
    last row nor inside the gravity region, and none for those, given that
    the shuffle returns a permutation of its argument.  The descriptors
    come in three blocks: at most 20 rocks, then at most 10 gems, then
    soil for all remaining cells.  Each descriptor carries the cell's
    coordinates scaled by [BLOCK_SZ], [col] from the column and [row] from
    the row; the map carries the world's size and the gravity region's
    description. *)
Theorem loadMapData_describes_free_cells :
  let md := Layout.loadMapData WORLD_W WORLD_H BLOCK_SZ shuffle in
  let gr := Layout.constructGravRegion (Layout.gravRegion WORLD_W) in
  let n := List.length (Layout.entities md) in
  (forall xy, In xy (map Layout.position (Layout.entities md)) <->
     exists c r, Layout.is_cell WORLD_W WORLD_H BLOCK_SZ c r xy /\
                 ~ (c = 0%N /\ Z.of_N r = (Z.of_N WORLD_H - 1)%Z) /\
                 span2d_contains c r gr = false) /\
  ((0 < BLOCK_SZ)%N -> NoDup (map Layout.position (Layout.entities md))) /\
  map Layout.type (Layout.entities md)
    = repeat ROCK (Nat.min 20 n) ++ repeat GEM (Nat.min 10 (n - 20))
      ++ repeat SOIL (n - 30) /\
  Layout.width md = WORLD_W /\ Layout.height md = WORLD_H /\
  Layout.gravityRegion md = Layout.gravRegion WORLD_W.
Proof.
  cbv zeta.
  set (gr := Layout.constructGravRegion (Layout.gravRegion WORLD_W)).
  set (free := Layout.scan WORLD_W WORLD_H BLOCK_SZ (Layout.skipped WORLD_H gr)).
  set (d := Layout.deal 20 10 (shuffle free)).
  assert (Hent : Layout.entities (Layout.loadMapData WORLD_W WORLD_H BLOCK_SZ shuffle)
                 = map (Layout.describe ROCK) (Layout.rockCoords d)
                   ++ map (Layout.describe GEM) (Layout.gemCoords d)
                   ++ map (Layout.describe SOIL) (Layout.soilCoords d)).
  { unfold Layout.loadMapData. cbn [Layout.entities app].
    rewrite <- app_assoc. reflexivity. }
  assert (Hpos : map Layout.position
                     (Layout.entities (Layout.loadMapData WORLD_W WORLD_H BLOCK_SZ shuffle))
                 = shuffle free).
  { rewrite Hent, !map_app, !map_map.
    rewrite !(map_ext _ (fun cr => cr) (position_describe _)), !map_id.
    apply deal_partition. }
  pose proof (shuffle_permutes free) as Hperm.
  split; [|split; [|split; [|repeat split]]].
  - intros xy. rewrite Hpos. split.
    + intros Hin. apply (Permutation_in _ (Permutation_sym Hperm)) in Hin.
      apply scan_In in Hin. destruct Hin as (c & r & Hc & Hs).
      exists c, r. split; [exact Hc|].
      unfold Layout.skipped in Hs. apply orb_false_iff in Hs.
      destruct Hs as (Hcorner & Hreg). split; [|exact Hreg].
      intros (-> & Er). rewrite Er, Z.eqb_refl in Hcorner. discriminate.
    + intros (c & r & Hc & Hcorner & Hreg).
      apply (Permutation_in _ Hperm). apply scan_In.
      exists c, r. split; [exact Hc|].
      unfold Layout.skipped. rewrite Hreg, orb_false_r.
      apply andb_false_iff.
      destruct (N.eqb_spec c 0) as [Ec|Ec]; [right | left; reflexivity].
      apply Z.eqb_neq. intros Er. apply Hcorner. auto.
  - intros Hb. rewrite Hpos. apply (Permutation_NoDup Hperm).
    apply scan_NoDup. exact Hb.
  - assert (Hn : List.length (Layout.entities
                                (Layout.loadMapData WORLD_W WORLD_H BLOCK_SZ shuffle))
                 = List.length (shuffle free)).
    { rewrite <- Hpos, length_map. reflexivity. }
    rewrite Hn, Hent, !map_app, !map_map.
    rewrite !(map_ext _ _ (type_describe _)), !map_const.
    destruct (deal_lengths 20 10 (shuffle free)) as (Lr & Lg & Ls).
    fold d in Lr, Lg, Ls. rewrite Lr, Lg, Ls. reflexivity.
Qed.
End MapLoaderFacts.

(* ================================================================== *)
(** * The render system *)

(** ** Maps *)

Section JsMapFacts.
Context {K V : Type}.
Variable eqb : K -> K -> bool.
Hypothesis eqb_eq : forall a b, eqb a b = true <-> a = b.

Lemma key_refl k : eqb k k = true.
Proof. apply eqb_eq. reflexivity. Qed.

Lemma key_neq k k' : k <> k' -> eqb k k' = false.
Proof.
  intros Hne. destruct (eqb k k') eqn:E; [|reflexivity].
  apply eqb_eq in E. contradiction.
Qed.

Lemma get_set_same k (v : V) m :
  JsMap.get eqb k (JsMap.set eqb k v m) = Some v.
Proof.
  induction m as [|[k' v'] m IH]; simpl.
  - rewrite key_refl. reflexivity.
  - destruct (eqb k k') eqn:E; simpl; rewrite ?key_refl, ?E; auto.
Qed.

Lemma get_set_other k k' (v : V) m :
  k' <> k -> JsMap.get eqb k' (JsMap.set eqb k v m) = JsMap.get eqb k' m.
Proof.
  intros Hne. induction m as [|[k0 v0] m IH]; simpl.
  - rewrite (key_neq _ _ Hne). reflexivity.
  - destruct (eqb k k0) eqn:E; simpl.
    + apply eqb_eq in E. subst k0. rewrite (key_neq _ _ Hne). reflexivity.
    + rewrite IH. reflexivity.
Qed.

Lemma set_set k (v v' : V) m :
  JsMap.set eqb k v' (JsMap.set eqb k v m) = JsMap.set eqb k v' m.
Proof.
  induction m as [|[k0 v0] m IH]; simpl.
  - rewrite key_refl. reflexivity.
  - destruct (eqb k k0) eqn:E; simpl; rewrite ?key_refl, ?E, ?IH; reflexivity.
Qed.

Lemma has_keys k (m : JsMap.t K V) :
  JsMap.has eqb k m = true <-> In k (JsMap.keys m).
Proof.
  unfold JsMap.has. induction m as [|[k0 v0] m IH]; simpl.
  - split; [discriminate | contradiction].
  - destruct (eqb k k0) eqn:E.
    + apply eqb_eq in E. subst k0. split; auto.
    + rewrite IH. split; [auto|]. intros [E0 | Hin]; [|exact Hin].
      subst k0. rewrite key_refl in E. discriminate.
Qed.

Lemma get_In k (v : V) m : JsMap.get eqb k m = Some v -> In (k, v) m.
Proof.
  induction m as [|[k0 v0] m IH]; simpl; [discriminate|].
  destruct (eqb k k0) eqn:E.
  - apply eqb_eq in E. subst k0. intros [= ->]. left. reflexivity.
  - intros Hg. right. apply IH. exact Hg.
Qed.

Lemma size_set k (v : V) m :
  JsMap.size (JsMap.set eqb k v m)
    = if JsMap.has eqb k m then JsMap.size m else S (JsMap.size m).
Proof.
  unfold JsMap.size, JsMap.has. induction m as [|[k0 v0] m IH]; simpl.
  - reflexivity.
  - destruct (eqb k k0); simpl; [reflexivity|].
    rewrite IH. destruct (JsMap.get eqb k m); reflexivity.
Qed.

Lemma In_set k (v : V) m k0 v0 :
  In (k0, v0) (JsMap.set eqb k v m) -> (k0 = k /\ v0 = v) \/ In (k0, v0) m.
Proof.
  induction m as [|[k1 v1] m IH]; simpl.
  - intros [[= <- <-] | []]. auto.
  - destruct (eqb k k1); simpl.
    + intros [[= <- <-] | Hin]; auto.
    + intros [E | Hin]; [auto|]. destruct (IH Hin); auto.
Qed.

Lemma keys_set k (v : V) m :
  JsMap.keys (JsMap.set eqb k v m)
    = if JsMap.has eqb k m then JsMap.keys m else JsMap.keys m ++ [k].
Proof.
  unfold JsMap.keys, JsMap.has. induction m as [|[k0 v0] m IH]; simpl.
  - reflexivity.
  - destruct (eqb k k0) eqn:E; simpl.
    + apply eqb_eq in E. subst k0. reflexivity.
    + rewrite IH. destruct (JsMap.get eqb k m); reflexivity.
Qed.

Lemma NoDup_keys_set k (v : V) m :
  NoDup (JsMap.keys m) -> NoDup (JsMap.keys (JsMap.set eqb k v m)).
Proof.
  intros Hn. rewrite keys_set. destruct (JsMap.has eqb k m) eqn:Eh; [exact Hn|].
  apply NoDup_app; [exact Hn | repeat constructor; intros [] |].
  intros x Hx [<- | []]. apply has_keys in Hx. congruence.
Qed.

Lemma In_delete k (m : JsMap.t K V) e : In e (JsMap.delete eqb k m) -> In e m.
Proof.
  induction m as [|[k0 v0] m IH]; simpl; [auto|].
  destruct (eqb k k0); simpl; [auto|]. intros [E | Hin]; auto.
Qed.

Lemma NoDup_keys_delete k (m : JsMap.t K V) :
  NoDup (JsMap.keys m) -> NoDup (JsMap.keys (JsMap.delete eqb k m)).
Proof.
  unfold JsMap.keys. induction m as [|[k0 v0] m IH]; simpl; [auto|].
  intros Hn. inversion Hn as [|? ? Hk Hm]; subst.
  destruct (eqb k k0); simpl; [exact Hm|].
  constructor; [|apply IH; exact Hm].
  intros Hin. apply Hk. apply in_map_iff in Hin.
  destruct Hin as (e & <- & He). apply in_map. eapply In_delete. exact He.
Qed.

Lemma get_delete_same k (m : JsMap.t K V) :
  NoDup (JsMap.keys m) -> JsMap.get eqb k (JsMap.delete eqb k m) = None.
Proof.
  unfold JsMap.keys. induction m as [|[k0 v0] m IH]; simpl; [auto|].
  intros Hn. inversion Hn as [|? ? Hk Hm]; subst.
  destruct (eqb k k0) eqn:E; simpl.
  - apply eqb_eq in E. subst k0.
    destruct (JsMap.get eqb k m) eqn:Eg; [|reflexivity].
    exfalso. apply Hk. apply get_In in Eg.
    apply (in_map fst) in Eg. exact Eg.
  - rewrite E. apply IH. exact Hm.
Qed.

Lemma get_delete_other k k' (m : JsMap.t K V) :
  k' <> k -> JsMap.get eqb k' (JsMap.delete eqb k m) = JsMap.get eqb k' m.
Proof.
  intros Hne. induction m as [|[k0 v0] m IH]; simpl; [auto|].
  destruct (eqb k k0) eqn:E; simpl.
  - apply eqb_eq in E. subst k0. rewrite (key_neq _ _ Hne). reflexivity.
  - rewrite IH. reflexivity.
Qed.

Lemma size_delete k (m : JsMap.t K V) :
  JsMap.has eqb k m = true ->
  S (JsMap.size (JsMap.delete eqb k m)) = JsMap.size m.
Proof.
  unfold JsMap.size, JsMap.has. induction m as [|[k0 v0] m IH]; simpl.
  - discriminate.
  - destruct (eqb k k0); simpl; [reflexivity|].
    intros Hh. rewrite IH; auto.
Qed.
End JsMapFacts.

Lemma N_eqb_eq (a b : N) : N.eqb a b = true <-> a = b.
Proof. apply N.eqb_eq. Qed.

Lemma string_eqb_eq (a b : string) : String.eqb a b = true <-> a = b.
Proof. apply String.eqb_eq. Qed.

(** ** The stage *)

Lemma stage_after_app l1 l2 stage :
  RenderSystem.stage_after (l1 ++ l2) stage
    = RenderSystem.stage_after l2 (RenderSystem.stage_after l1 stage).
Proof.
  revert stage. induction l1 as [|c l1 IH]; intros stage; simpl; [reflexivity|].
  destruct c; apply IH.
Qed.

Lemma In_without x child stage :
  In x (RenderSystem.without child stage) <-> In x stage /\ x <> child.
Proof.
  unfold RenderSystem.without. rewrite filter_In, negb_true_iff, N.eqb_neq.
  reflexivity.
Qed.

Lemma unstaged_all (children : list DisplayObject) : forall stage x,
  In x (RenderSystem.stage_after (map StageRemoveChild children) stage) <->
  In x stage /\ ~ In x children.
Proof.
  induction children as [|c cs IH]; intros stage x; simpl.
  - tauto.
  - rewrite IH, In_without. split.
    + intros ((Hin & Hne) & Hcs). split; [exact Hin|]. intros [E | Hin']; auto.
    + intros (Hin & Hn). repeat split; auto.
Qed.

(** ** Requests the render system rejects *)

Section RenderRejections.
Context {E Sch : Type} `{ClientEntityManager E} `{Scheduler Sch} `{Pixi}.
Variable BLOCK_SZ : Q.

Lemma getComponent_missing (rs : RenderSystem.t E Sch) id :
  JsMap.get N.eqb id (RenderSystem._components rs) = None ->
  RenderSystem.getComponent id rs
    = mkRes (Thrown ("No render component for entity " ++ show id)%string) rs [].
Proof.
  intros Hg. unfold RenderSystem.getComponent, bind, gets. simpl.
  rewrite Hg. reflexivity.
Qed.

Lemma getComponent_found (rs : RenderSystem.t E Sch) id c :
  JsMap.get N.eqb id (RenderSystem._components rs) = Some c ->
  RenderSystem.getComponent id rs = mkRes (Returned c) rs [].
Proof.
  intros Hg. unfold RenderSystem.getComponent, bind, gets. simpl.
  rewrite Hg. reflexivity.
Qed.

Lemma hasComponent_get (rs : RenderSystem.t E Sch) id :
  RenderSystem.hasComponent id rs
    = mkRes (Returned (match JsMap.get N.eqb id (RenderSystem._components rs) with
                       | Some _ => true
                       | None => false
                       end)) rs [].
Proof. reflexivity. Qed.

(** X13.  A request the render system rejects changes nothing: it
    throws before anything is touched.  For an entity without render
    component, [getComponent], [getSpriteComponent], [removeComponent],
    [setCurrentImage] and [playAnimation] throw "No render component for
    entity <id>", and an ENTITY_MOVED event is ignored, whatever the
    entity manager would answer.  [getSpriteComponent] and [playAnimation] reject
    a component that is not a sprite component, [setCurrentImage] rejects a
    shape component, and [playAnimation] rejects a name the component has
    no animation for. *)
Theorem rejected_requests_change_nothing (rs : RenderSystem.t E Sch)
  (id : EntityId) (name : string) (onFinish : option N) :
  let missing := ("No render component for entity " ++ show id)%string in
  let not_sprite :=
    ("Render component (id=" ++ show id ++ ") is not of type SPRITE")%string in
  match JsMap.get N.eqb id (RenderSystem._components rs) with
  | None =>
      RenderSystem.getComponent id rs = mkRes (Thrown missing) rs [] /\
      RenderSystem.getSpriteComponent id rs = mkRes (Thrown missing) rs [] /\
      RenderSystem.removeComponent id rs = mkRes (Thrown missing) rs [] /\
      RenderSystem.setCurrentImage BLOCK_SZ id name rs
        = mkRes (Thrown missing) rs [] /\
      RenderSystem.playAnimation BLOCK_SZ id name onFinish rs
        = mkRes (Thrown missing) rs [] /\
      RenderSystem.handleEvent BLOCK_SZ (EEntityMoved id) rs
        = mkRes (Returned tt) rs []
  | Some (ShapeComponent _) =>
      RenderSystem.getSpriteComponent id rs = mkRes (Thrown not_sprite) rs [] /\
      RenderSystem.playAnimation BLOCK_SZ id name onFinish rs
        = mkRes (Thrown not_sprite) rs [] /\
      RenderSystem.setCurrentImage BLOCK_SZ id name rs
        = mkRes (Thrown "Cannot set image on component of type 0"%string) rs []
  | Some (TiledRegionComponent _) =>
      RenderSystem.getSpriteComponent id rs = mkRes (Thrown not_sprite) rs [] /\
      RenderSystem.playAnimation BLOCK_SZ id name onFinish rs
        = mkRes (Thrown not_sprite) rs []
  | Some (SpriteComponent c) =>
      JsMap.get String.eqb name (SpriteRenderComponent.animatedSprites c) = None ->
      RenderSystem.playAnimation BLOCK_SZ id name onFinish rs
        = mkRes (Thrown ("Entity " ++ show id ++ " has no animation '"
                         ++ name ++ "'")%string) rs []
  end.
Proof.
  cbv zeta.
  destruct (JsMap.get N.eqb id (RenderSystem._components rs)) as [c|] eqn:Hg.
  - pose proof (getComponent_found rs id c Hg) as Hc.
    assert (Hs : forall sc, c = SpriteComponent sc ->
                 RenderSystem.getSpriteComponent id rs = mkRes (Returned sc) rs []).
    { intros sc ->. unfold RenderSystem.getSpriteComponent.
      rewrite (bind_eq _ _ _ _ _ _ Hc). reflexivity. }
    assert (Hn : (forall sc, c <> SpriteComponent sc) ->
                 RenderSystem.getSpriteComponent id rs
                 = mkRes (Thrown ("Render component (id=" ++ show id
                                  ++ ") is not of type SPRITE")%string) rs []).
    { intros Hne. unfold RenderSystem.getSpriteComponent.
      rewrite (bind_eq _ _ _ _ _ _ Hc).
      destruct c as [sh | sc | tc]; [reflexivity | | reflexivity].
      exfalso. apply (Hne sc). reflexivity. }
    destruct c as [sh | sc | tc].
    + assert (Hg' := Hn ltac:(discriminate)).
      split; [exact Hg'|]. split.
      * unfold RenderSystem.playAnimation.
        rewrite (bind_eq_thrown _ _ _ _ _ _ Hg'). reflexivity.
      * unfold RenderSystem.setCurrentImage.
        rewrite (bind_eq _ _ _ _ _ _ Hc). reflexivity.
    + intros Ha. unfold RenderSystem.playAnimation.
      rewrite (bind_eq _ _ _ _ _ _ (Hs sc eq_refl)).
      cbn [result final events]. rewrite Ha. reflexivity.
    + assert (Hg' := Hn ltac:(discriminate)).
      split; [exact Hg'|].
      unfold RenderSystem.playAnimation.
      rewrite (bind_eq_thrown _ _ _ _ _ _ Hg'). reflexivity.
  - pose proof (getComponent_missing rs id Hg) as Hc.
    split; [exact Hc|].
    assert (Hs : RenderSystem.getSpriteComponent id rs
                 = mkRes (Thrown ("No render component for entity " ++ show id)%string)
                         rs []).
    { unfold RenderSystem.getSpriteComponent.
      rewrite (bind_eq_thrown _ _ _ _ _ _ Hc). reflexivity. }
    split; [exact Hs|]. split.
    { unfold RenderSystem.removeComponent.
      rewrite (bind_eq_thrown _ _ _ _ _ _ Hc). reflexivity. }
    split.
    { unfold RenderSystem.setCurrentImage.
      rewrite (bind_eq_thrown _ _ _ _ _ _ Hc). reflexivity. }
    split.
    { unfold RenderSystem.playAnimation.
      rewrite (bind_eq_thrown _ _ _ _ _ _ Hs). reflexivity. }
    unfold RenderSystem.handleEvent, RenderSystem._onEntityMoved.
    rewrite (bind_eq _ _ _ _ _ _ (hasComponent_get rs id)).
    cbn [result final events]. rewrite Hg. reflexivity.
Qed.
End RenderRejections.

(** ** What a computation ensures *)

Section EnsuresFacts.
Context {S : Type}.

Lemma ensures_bind {A B} (P : S -> Prop) (m : Eff S A) (f : A -> Eff S B)
  (R : A -> S -> Prop) (Q : outcome B -> S -> Prop) :
  ensures P m (fun o s => match o with
                          | Returned a => R a s
                          | Thrown e => Q (Thrown e) s
                          end) ->
  (forall a, ensures (R a) (f a) Q) ->
  ensures P (bind m f) Q.
Proof.
  intros Hm Hf s Hs. specialize (Hm s Hs). unfold bind.
  destruct (m s) as [[a|e] s1 evs1]; cbn [result final] in *.
  - apply (Hf a s1 Hm).
  - exact Hm.
Qed.

Lemma keeps_bind {A B} (I : S -> Prop) (m : Eff S A) (f : A -> Eff S B) :
  ensures I m (fun _ => I) ->
  (forall a, ensures I (f a) (fun _ => I)) ->
  ensures I (bind m f) (fun _ => I).
Proof.
  intros Hm Hf. apply ensures_bind with (R := fun _ => I); [|exact Hf].
  intros s Hs. specialize (Hm s Hs). destruct (result (m s)); exact Hm.
Qed.

Lemma keeps_ret {A} (I : S -> Prop) (a : A) : ensures I (ret a) (fun _ => I).
Proof. intros s Hs. exact Hs. Qed.

Lemma keeps_gets {A} (I : S -> Prop) (f : S -> A) : ensures I (gets f) (fun _ => I).
Proof. intros s Hs. exact Hs. Qed.

Lemma keeps_forEach {A} (I : S -> Prop) (body : A -> Eff S unit) (xs : list A) :
  (forall x, ensures I (body x) (fun _ => I)) ->
  ensures I (forEach body xs) (fun _ => I).
Proof.
  intros Hb. induction xs as [|x xs IH]; simpl.
  - apply keeps_ret.
  - apply keeps_bind; [apply Hb | intros _; exact IH].
Qed.
End EnsuresFacts.

(** ** Invariants of the registry *)

Section RegistryInvariants.
Context {E Sch : Type} `{ClientEntityManager E} `{Scheduler Sch} `{Pixi}.
Variable BLOCK_SZ : Q.

(** An invariant [I] that looks at the registry, the entity manager and
    the sprite sheet only, and that storing a component whose identity
    satisfies [G] keeps. *)
Variable I : RenderSystem.t E Sch -> Prop.
Variable G : EntityId -> Prop.
Hypothesis I_frame : forall rs rs',
  RenderSystem._components rs' = RenderSystem._components rs ->
  RenderSystem._em rs' = RenderSystem._em rs ->
  RenderSystem._spriteSheet rs' = RenderSystem._spriteSheet rs ->
  I rs -> I rs'.
Hypothesis I_store : forall c rs,
  G (component_entityId c) -> I rs ->
  I (RenderSystem.with_components
       (JsMap.set N.eqb (component_entityId c) c (RenderSystem._components rs)) rs).

Lemma keeps_throw {A} (message : string) :
  ensures I (RenderSystem.throw (A := A) message) (fun _ => I).
Proof. intros rs Hrs. exact Hrs. Qed.

Lemma keeps_pixi (c : PixiCall) : ensures I (RenderSystem.pixi c) (fun _ => I).
Proof. intros rs Hrs. apply (I_frame rs); [reflexivity | reflexivity | reflexivity | exact Hrs]. Qed.

Lemma keeps_fresh : ensures I RenderSystem.fresh (fun _ => I).
Proof. intros rs Hrs. apply (I_frame rs); [reflexivity | reflexivity | reflexivity | exact Hrs]. Qed.

Lemma keeps_scheduler {A} (c : Sch -> outcome A * Sch) :
  ensures I (RenderSystem.scheduler c) (fun _ => I).
Proof.
  intros rs Hrs. unfold RenderSystem.scheduler.
  destruct (c (RenderSystem._scheduler rs)) as [o sch].
  apply (I_frame rs); [reflexivity | reflexivity | reflexivity | exact Hrs].
Qed.

Lemma keeps_em {A} (q : E -> outcome A) : ensures I (RenderSystem.em q) (fun _ => I).
Proof. intros rs Hrs. exact Hrs. Qed.

Lemma keeps_store (c : RenderComponent) :
  G (component_entityId c) -> ensures I (RenderSystem.store c) (fun _ => I).
Proof. intros Hg rs Hrs. apply I_store; assumption. Qed.

Lemma keeps_then {A B} (m : Eff (RenderSystem.t E Sch) A)
  (f : A -> Eff (RenderSystem.t E Sch) B)
  (Q : outcome B -> RenderSystem.t E Sch -> Prop) :
  ensures I m (fun _ => I) ->
  (forall e rs, I rs -> Q (Thrown e) rs) ->
  (forall a, ensures I (f a) Q) ->
  ensures I (bind m f) Q.
Proof.
  intros Hm Hq Hf. apply ensures_bind with (R := fun _ => I); [|exact Hf].
  intros rs Hrs. specialize (Hm rs Hrs).
  destruct (result (m rs)); [exact Hm | apply Hq; exact Hm].
Qed.

Lemma hands_on_thrown {C} (ident : C -> EntityId) (k : EntityId) e rs :
  I rs ->
  I rs /\ forall c' : C, Thrown e = Returned c' -> ident c' = k.
Proof. intros Hrs. split; [exact Hrs | discriminate]. Qed.

Lemma hands_on_ret {C} (ident : C -> EntityId) (c : C) :
  ensures I (ret c)
          (fun o rs => I rs /\ forall c', o = Returned c' -> ident c' = ident c).
Proof. intros rs Hrs. split; [exact Hrs|]. intros c' [= <-]. reflexivity. Qed.

Lemma keeps_getComponent id : ensures I (RenderSystem.getComponent id) (fun _ => I).
Proof.
  unfold RenderSystem.getComponent.
  apply keeps_bind; [apply keeps_gets|].
  intros [c|]; [apply keeps_ret | apply keeps_throw].
Qed.

Lemma keeps_onEntityMoved id : ensures I (RenderSystem._onEntityMoved BLOCK_SZ id) (fun _ => I).
Proof.
  unfold RenderSystem._onEntityMoved, RenderSystem.hasComponent.
  apply keeps_bind; [apply keeps_gets|].
  intros [|]; [|apply keeps_ret].
  apply keeps_bind; [apply keeps_em|]. intros spatialComp.
  apply keeps_bind; [apply keeps_getComponent|].
  intros [sh | sc | tc].
  - repeat (apply keeps_bind; [apply keeps_pixi | intros _]). apply keeps_pixi.
  - destruct (SpriteRenderComponent.stagedSprite sc); [|apply keeps_ret].
    repeat (apply keeps_bind; [apply keeps_pixi | intros _]). apply keeps_pixi.
  - apply keeps_ret.
Qed.

Lemma keeps_spriteCompSetActiveSprite c name animated :
  G (SpriteRenderComponent.entityId c) ->
  ensures I (RenderSystem._spriteCompSetActiveSprite BLOCK_SZ c name animated) (fun _ => I).
Proof.
  intros Hg. unfold RenderSystem._spriteCompSetActiveSprite.
  apply keeps_bind.
  { destruct (SpriteRenderComponent.stagedSprite c);
      [apply keeps_pixi | apply keeps_ret]. }
  intros _. apply keeps_bind.
  { destruct (SpriteRenderComponent.activeAnimation c);
      [apply keeps_scheduler | apply keeps_ret]. }
  intros _. apply keeps_bind; [|intros _; apply keeps_onEntityMoved].
  destruct animated.
  - destruct (JsMap.get String.eqb name (SpriteRenderComponent.animatedSprites c));
      [|apply keeps_throw].
    apply keeps_bind; [apply keeps_pixi | intros _].
    apply keeps_store. exact Hg.
  - destruct (JsMap.get String.eqb name (SpriteRenderComponent.staticSprites c));
      [|apply keeps_throw].
    apply keeps_bind; [apply keeps_pixi | intros _].
    apply keeps_store. exact Hg.
Qed.

Lemma keeps_unstage_tiles c : ensures I (RenderSystem.unstage_tiles c) (fun _ => I).
Proof.
  unfold RenderSystem.unstage_tiles.
  destruct (TiledRegionRenderComponent.stagedSprites c); [|apply keeps_ret].
  destruct (JsMap.get String.eqb _ _); [|apply keeps_ret].
  apply keeps_forEach. intros x. apply keeps_pixi.
Qed.

Lemma keeps_tiledRegionCompSetActiveSprite c name :
  G (TiledRegionRenderComponent.entityId c) ->
  ensures I (RenderSystem._tiledRegionCompSetActiveSprite c name) (fun _ => I).
Proof.
  intros Hg. unfold RenderSystem._tiledRegionCompSetActiveSprite.
  apply keeps_bind; [apply keeps_unstage_tiles | intros _].
  destruct (JsMap.get String.eqb name (TiledRegionRenderComponent.sprites c));
    [|apply keeps_throw].
  apply keeps_bind; [|intros _; apply keeps_store; exact Hg].
  apply keeps_forEach. intros x. apply keeps_pixi.
Qed.

(** A loop that hands a component on keeps the invariant and the
    component's identity when its body does. *)
Lemma keeps_forEach_on {A C} (ident : C -> EntityId)
  (body : C -> A -> Eff (RenderSystem.t E Sch) C) (xs : list A) :
  (forall c x,
      G (ident c) ->
      ensures I (body c x)
              (fun o rs => I rs /\
                           forall c', o = Returned c' -> ident c' = ident c)) ->
  forall c,
    G (ident c) ->
    ensures I (RenderSystem.forEach_on body xs c)
            (fun o rs => I rs /\
                         forall c', o = Returned c' -> ident c' = ident c).
Proof.
  intros Hb. induction xs as [|x xs IH]; intros c Hg; simpl.
  - intros rs Hrs. split; [exact Hrs|]. intros c' [= <-]. reflexivity.
  - apply ensures_bind
      with (R := fun c' rs => I rs /\ ident c' = ident c).
    + intros rs Hrs. destruct (Hb c x Hg rs Hrs) as (Hi & Hid).
      destruct (result (body c x rs)) as [c'|e].
      * split; [exact Hi | apply Hid; reflexivity].
      * split; [exact Hi | discriminate].
    + intros c' rs (Hrs & Hid).
      assert (Hg' : G (ident c')) by (rewrite Hid; exact Hg).
      destruct (IH c' Hg' rs Hrs) as (Hi & Hid').
      split; [exact Hi|]. intros c'' Hr. rewrite (Hid' c'' Hr). exact Hid.
Qed.

Lemma keeps_add_animation c anim :
  G (SpriteRenderComponent.entityId c) ->
  ensures I (RenderSystem.add_animation c anim)
          (fun o rs => I rs /\
                       forall c', o = Returned c' ->
                                  SpriteRenderComponent.entityId c'
                                  = SpriteRenderComponent.entityId c).
Proof.
  intros Hg. unfold RenderSystem.add_animation.
  apply keeps_then; [apply keeps_gets | intros e rs; apply hands_on_thrown |].
  intros [sheet|]; [|intros rs; apply hands_on_thrown].
  destruct (pixi_AnimatedSprite _) as [len|e]; [|intros rs; apply hands_on_thrown].
  apply keeps_then; [apply keeps_fresh | intros e rs; apply hands_on_thrown |].
  intros sprite.
  apply keeps_then; [apply keeps_pixi | intros e rs; apply hands_on_thrown |].
  intros _.
  apply keeps_then; [apply keeps_pixi | intros e rs; apply hands_on_thrown |].
  intros _.
  apply keeps_then; [apply keeps_store; exact Hg
                    | intros e rs; apply hands_on_thrown |].
  intros _.
  apply (hands_on_ret SpriteRenderComponent.entityId
           (SpriteRenderComponent.with_animatedSprites _ c)).
Qed.

Lemma keeps_add_static c imgDesc :
  G (SpriteRenderComponent.entityId c) ->
  ensures I (RenderSystem.add_static c imgDesc)
          (fun o rs => I rs /\
                       forall c', o = Returned c' ->
                                  SpriteRenderComponent.entityId c'
                                  = SpriteRenderComponent.entityId c).
Proof.
  intros Hg. unfold RenderSystem.add_static.
  apply keeps_then; [apply keeps_gets | intros e rs; apply hands_on_thrown |].
  intros [sheet|]; [|intros rs; apply hands_on_thrown].
  apply keeps_then; [apply keeps_fresh | intros e rs; apply hands_on_thrown |].
  intros sprite.
  apply keeps_then; [apply keeps_pixi | intros e rs; apply hands_on_thrown |].
  intros _.
  apply keeps_then; [apply keeps_store; exact Hg
                    | intros e rs; apply hands_on_thrown |].
  intros _.
  apply (hands_on_ret SpriteRenderComponent.entityId
           (SpriteRenderComponent.with_staticSprites _ c)).
Qed.

Lemma keeps_addSpriteComponent c :
  G (SpriteRenderComponent.entityId c) ->
  ensures I (RenderSystem._addSpriteComponent BLOCK_SZ c) (fun _ => I).
Proof.
  intros Hg. unfold RenderSystem._addSpriteComponent.
  apply ensures_bind
    with (R := fun c1 rs => I rs /\ SpriteRenderComponent.entityId c1
                                    = SpriteRenderComponent.entityId c).
  { intros rs Hrs.
    destruct (keeps_forEach_on SpriteRenderComponent.entityId
                RenderSystem.add_animation (SpriteRenderComponent.animDescs c)
                keeps_add_animation c Hg rs Hrs) as (Hi & Hid).
    destruct (result _) as [c1|e]; [|exact Hi].
    split; [exact Hi | apply Hid; reflexivity]. }
  intros c1.
  apply ensures_bind
    with (R := fun c2 rs => I rs /\ SpriteRenderComponent.entityId c2
                                    = SpriteRenderComponent.entityId c).
  { intros rs (Hrs & Hid1).
    assert (Hg1 : G (SpriteRenderComponent.entityId c1))
      by (rewrite Hid1; exact Hg).
    destruct (keeps_forEach_on SpriteRenderComponent.entityId
                RenderSystem.add_static (SpriteRenderComponent.staticImages c1)
                keeps_add_static c1 Hg1 rs Hrs) as (Hi & Hid).
    destruct (result _) as [c2|e]; [|exact Hi].
    split; [exact Hi | rewrite (Hid c2 eq_refl); exact Hid1]. }
  intros c2 rs (Hrs & Hid2).
  apply keeps_spriteCompSetActiveSprite; [rewrite Hid2; exact Hg | exact Hrs].
Qed.

Lemma keeps_collect {A B} (body : A -> Eff (RenderSystem.t E Sch) B) (xs : list A) :
  (forall x, ensures I (body x) (fun _ => I)) -> ensures I (RenderSystem.collect body xs) (fun _ => I).
Proof.
  intros Hb. induction xs as [|x xs IH]; simpl.
  - apply keeps_ret.
  - apply keeps_bind; [apply Hb | intros y].
    apply keeps_bind; [exact IH | intros ys; apply keeps_ret].
Qed.

Lemma keeps_tile texture place : ensures I (RenderSystem.tile BLOCK_SZ texture place) (fun _ => I).
Proof.
  destruct place as [j span]. unfold RenderSystem.tile.
  apply keeps_bind; [apply keeps_fresh | intros sprite].
  repeat (apply keeps_bind; [apply keeps_pixi | intros _]). apply keeps_ret.
Qed.

Lemma keeps_add_tiles c imgDesc :
  G (TiledRegionRenderComponent.entityId c) ->
  ensures I (RenderSystem.add_tiles BLOCK_SZ c imgDesc)
          (fun o rs => I rs /\
                       forall c', o = Returned c' ->
                                  TiledRegionRenderComponent.entityId c'
                                  = TiledRegionRenderComponent.entityId c).
Proof.
  intros Hg. unfold RenderSystem.add_tiles.
  apply keeps_then; [apply keeps_gets | intros e rs; apply hands_on_thrown |].
  intros [sheet|]; [|intros rs; apply hands_on_thrown].
  apply keeps_then; [apply keeps_collect; intros x; apply keeps_tile
                    | intros e rs; apply hands_on_thrown |].
  intros sprites.
  apply keeps_then; [apply keeps_store; exact Hg
                    | intros e rs; apply hands_on_thrown |].
  intros _.
  apply (hands_on_ret TiledRegionRenderComponent.entityId
           (TiledRegionRenderComponent.with_sprites _ c)).
Qed.

Lemma keeps_addTiledRegionComponent c :
  G (TiledRegionRenderComponent.entityId c) ->
  ensures I (RenderSystem._addTiledRegionComponent BLOCK_SZ c) (fun _ => I).
Proof.
  intros Hg. unfold RenderSystem._addTiledRegionComponent.
  apply ensures_bind
    with (R := fun c1 rs => I rs /\ TiledRegionRenderComponent.entityId c1
                                    = TiledRegionRenderComponent.entityId c).
  { intros rs Hrs.
    destruct (keeps_forEach_on TiledRegionRenderComponent.entityId
                (RenderSystem.add_tiles BLOCK_SZ)
                (TiledRegionRenderComponent.staticImages c)
                keeps_add_tiles c Hg rs Hrs) as (Hi & Hid).
    destruct (result _) as [c1|e]; [|exact Hi].
    split; [exact Hi | apply Hid; reflexivity]. }
  intros c1 rs (Hrs & Hid1).
  apply keeps_tiledRegionCompSetActiveSprite; [rewrite Hid1; exact Hg | exact Hrs].
Qed.

Lemma keeps_addShapeComponent c :
  ensures I (RenderSystem._addShapeComponent BLOCK_SZ c) (fun _ => I).
Proof.
  unfold RenderSystem._addShapeComponent.
  apply keeps_bind; [apply keeps_pixi | intros _].
  apply keeps_bind.
  { destruct (ShapeRenderComponent.shape c);
      [apply keeps_pixi | apply keeps_pixi | apply keeps_throw]. }
  intros _.
  repeat (apply keeps_bind; [apply keeps_pixi | intros _]).
  apply keeps_onEntityMoved.
Qed.

(** What [addComponent] does after it has registered the component. *)
Lemma keeps_build component :
  G (component_entityId component) ->
  ensures I (match component with
         | SpriteComponent c => RenderSystem._addSpriteComponent BLOCK_SZ c
         | TiledRegionComponent c => RenderSystem._addTiledRegionComponent BLOCK_SZ c
         | ShapeComponent c => RenderSystem._addShapeComponent BLOCK_SZ c
         end) (fun _ => I).
Proof.
  intros Hg. destruct component as [sh | sc | tc].
  - apply keeps_addShapeComponent.
  - apply keeps_addSpriteComponent. exact Hg.
  - apply keeps_addTiledRegionComponent. exact Hg.
Qed.
End RegistryInvariants.

(** ** The registry *)

Section RegistryFacts.
Context {E Sch : Type} `{ClientEntityManager E} `{Scheduler Sch} `{Pixi}.
Variable BLOCK_SZ : Q.

Lemma well_keyed_frame (rs rs' : RenderSystem.t E Sch) :
  RenderSystem._components rs' = RenderSystem._components rs ->
  RenderSystem._em rs' = RenderSystem._em rs ->
  RenderSystem._spriteSheet rs' = RenderSystem._spriteSheet rs ->
  RenderSystem.well_keyed rs -> RenderSystem.well_keyed rs'.
Proof. unfold RenderSystem.well_keyed. intros -> _ _. auto. Qed.

Lemma well_keyed_store c (rs : RenderSystem.t E Sch) :
  True -> RenderSystem.well_keyed rs ->
  RenderSystem.well_keyed
    (RenderSystem.with_components
       (JsMap.set N.eqb (component_entityId c) c (RenderSystem._components rs)) rs).
Proof.
  intros _ (Hn & Hk). split; simpl.
  - apply NoDup_keys_set; [apply N_eqb_eq | exact Hn].
  - intros k c0 Hin. apply In_set in Hin.
    destruct Hin as [(-> & ->) | Hin]; [reflexivity | apply Hk; exact Hin].
Qed.

Lemma well_keyed_delete k (rs : RenderSystem.t E Sch) :
  RenderSystem.well_keyed rs ->
  RenderSystem.well_keyed
    (RenderSystem.with_components
       (JsMap.delete N.eqb k (RenderSystem._components rs)) rs).
Proof.
  intros (Hn & Hk). split; simpl.
  - apply NoDup_keys_delete. exact Hn.
  - intros k0 c0 Hin. apply Hk. eapply In_delete. exact Hin.
Qed.

Lemma well_keyed_after_delete k :
  ensures RenderSystem.well_keyed
    (modify (fun rs : RenderSystem.t E Sch =>
               RenderSystem.with_components
                 (JsMap.delete N.eqb k (RenderSystem._components rs)) rs))
    (fun _ => RenderSystem.well_keyed).
Proof. intros rs Hrs. apply well_keyed_delete. exact Hrs. Qed.

Lemma perform_well_keyed (request : RenderSystem.Request) :
  ensures RenderSystem.well_keyed (RenderSystem.perform BLOCK_SZ request)
          (fun _ => RenderSystem.well_keyed).
Proof.
  pose proof well_keyed_frame as Hf. pose proof well_keyed_store as Hs.
  set (G := fun _ : EntityId => True).
  destruct request as [sheet | packet | component | id | id name
                      | id name onFinish | event | ]; simpl.
  - intros rs Hrs. exact Hrs.
  - apply keeps_ret.
  - unfold RenderSystem.addComponent.
    apply keeps_bind; [apply (keeps_store _ G Hs); exact Logic.I | intros _].
    apply (keeps_build BLOCK_SZ _ G Hf Hs). exact Logic.I.
  - unfold RenderSystem.removeComponent.
    apply keeps_bind; [apply keeps_getComponent|].
    intros [sh | sc | tc].
    + unfold RenderSystem._removeShapeComponent.
      apply keeps_bind; [apply (keeps_pixi _ Hf) | intros _].
      apply well_keyed_after_delete.
    + unfold RenderSystem._removeSpriteComponent.
      apply keeps_bind; [|intros _; apply well_keyed_after_delete].
      destruct (SpriteRenderComponent.stagedSprite sc);
        [apply (keeps_pixi _ Hf) | apply keeps_ret].
    + unfold RenderSystem._removeTiledRegionComponent.
      apply keeps_bind; [apply (keeps_unstage_tiles _ Hf) | intros _].
      apply well_keyed_after_delete.
  - unfold RenderSystem.setCurrentImage.
    apply keeps_bind; [apply keeps_getComponent|].
    intros [sh | sc | tc].
    + apply keeps_throw.
    + apply (keeps_spriteCompSetActiveSprite BLOCK_SZ _ G Hf Hs). exact Logic.I.
    + apply (keeps_tiledRegionCompSetActiveSprite _ G Hf Hs). exact Logic.I.
  - apply keeps_bind; [|intros _; apply keeps_ret].
    unfold RenderSystem.playAnimation.
    apply keeps_bind.
    { unfold RenderSystem.getSpriteComponent.
      apply keeps_bind; [apply keeps_getComponent|].
      intros [sh | sc | tc]; [apply keeps_throw | apply keeps_ret | apply keeps_throw]. }
    intros sc.
    destruct (JsMap.get String.eqb name (SpriteRenderComponent.animatedSprites sc));
      [|apply keeps_throw].
    apply keeps_bind;
      [apply (keeps_spriteCompSetActiveSprite BLOCK_SZ _ G Hf Hs); exact Logic.I|].
    intros _.
    repeat (apply keeps_bind; [apply (keeps_pixi _ Hf) | intros _]).
    apply keeps_ret.
  - destruct event; [apply (keeps_onEntityMoved BLOCK_SZ _ Hf) | apply keeps_ret].
  - apply keeps_ret.
Qed.

Lemma constructor_well_keyed (entityManager : E) (scheduler : Sch) :
  RenderSystem.well_keyed (RenderSystem.constructor entityManager scheduler).
Proof. split; simpl; [constructor | intros k c []]. Qed.

Lemma serve_well_keyed (requests : list RenderSystem.Request) :
  forall rs : RenderSystem.t E Sch,
    RenderSystem.well_keyed rs ->
    RenderSystem.well_keyed (RenderSystem.serve BLOCK_SZ requests rs).
Proof.
  unfold RenderSystem.serve.
  induction requests as [|request requests IH]; intros rs Hrs; simpl.
  - exact Hrs.
  - apply IH. apply perform_well_keyed. exact Hrs.
Qed.

(** X14.  The registry of a render system never holds two components
    for one entity, and every component in it is registered under its own
    entity identity: this holds of a new render system and after every
    sequence of calls of its public methods, whichever of them returned or
    threw. *)
Theorem registry_stays_well_keyed (entityManager : E) (scheduler : Sch)
  (requests : list RenderSystem.Request) :
  RenderSystem.well_keyed
    (RenderSystem.serve BLOCK_SZ requests
       (RenderSystem.constructor entityManager scheduler)) /\
  NoDup (JsMap.keys
           (RenderSystem._components
              (RenderSystem.serve BLOCK_SZ requests
                 (RenderSystem.constructor entityManager scheduler)))) /\
  forall id c,
    JsMap.get N.eqb id
      (RenderSystem._components
         (RenderSystem.serve BLOCK_SZ requests
            (RenderSystem.constructor entityManager scheduler))) = Some c ->
    component_entityId c = id.
Proof.
  pose proof (serve_well_keyed requests _
                (constructor_well_keyed entityManager scheduler)) as Hw.
  split; [exact Hw|]. destruct Hw as (Hn & Hk). split; [exact Hn|].
  intros id c Hg. apply Hk. apply (get_In N.eqb N_eqb_eq). exact Hg.
Qed.
End RegistryFacts.

Section AddComponentFacts.
Context {E Sch : Type} `{ClientEntityManager E} `{Scheduler Sch} `{Pixi}.
Variable BLOCK_SZ : Q.

Lemma throws_without_sheet_sprite (rs : RenderSystem.t E Sch) sc :
  RenderSystem._spriteSheet rs = None ->
  SpriteRenderComponent.animDescs sc <> [] \/
  SpriteRenderComponent.staticImages sc <> [] ->
  result (RenderSystem._addSpriteComponent BLOCK_SZ sc rs)
    = Thrown "Sprite sheet not set"%string.
Proof.
  intros Hsheet Hsome. unfold RenderSystem._addSpriteComponent.
  destruct (SpriteRenderComponent.animDescs sc) as [|anim anims].
  - destruct (SpriteRenderComponent.staticImages sc) as [|img imgs] eqn:Ei.
    + destruct Hsome as [Hn | Hn]; exfalso; apply Hn; reflexivity.
    + unfold bind at 1. cbn [RenderSystem.forEach_on ret result final events].
      rewrite Ei. unfold bind at 1. cbn [RenderSystem.forEach_on].
      unfold bind at 1. unfold RenderSystem.add_static at 1.
      unfold bind at 1. cbn [gets result final events].
      rewrite Hsheet. reflexivity.
  - unfold bind at 1. cbn [RenderSystem.forEach_on].
    unfold bind at 1. unfold RenderSystem.add_animation at 1.
    unfold bind at 1. cbn [gets result final events].
    rewrite Hsheet. reflexivity.
Qed.

Lemma throws_without_sheet_tiles (rs : RenderSystem.t E Sch) tc :
  RenderSystem._spriteSheet rs = None ->
  TiledRegionRenderComponent.staticImages tc <> [] ->
  result (RenderSystem._addTiledRegionComponent BLOCK_SZ tc rs)
    = Thrown "Sprite sheet not set"%string.
Proof.
  intros Hsheet Hsome. unfold RenderSystem._addTiledRegionComponent.
  destruct (TiledRegionRenderComponent.staticImages tc) as [|img imgs];
    [exfalso; apply Hsome; reflexivity|].
  unfold bind at 1. cbn [RenderSystem.forEach_on].
  unfold bind at 1. unfold RenderSystem.add_tiles at 1.
  unfold bind at 1. cbn [gets result final events].
  rewrite Hsheet. reflexivity.
Qed.

(** X15.  [addComponent] registers the component before it builds
    anything for it, and nothing it does afterwards takes the registration
    back.  Whether it returns or throws, the entity has a render component
    afterwards, the number of components has grown by one if the entity had
    none and is unchanged if it had one, and the components of all other
    entities are as before.  In particular a sprite or tiled-region
    component that has something to load is left registered when no sprite
    sheet has been set, although the call throws "Sprite sheet not
    set". *)
Theorem addComponent_registers_first (rs : RenderSystem.t E Sch)
  (component : RenderComponent) :
  let r := RenderSystem.addComponent BLOCK_SZ component rs in
  let id := component_entityId component in
  let before := RenderSystem._components rs in
  let after := RenderSystem._components (final r) in
  JsMap.has N.eqb id after = true /\
  JsMap.size after
    = (if JsMap.has N.eqb id before then JsMap.size before
       else S (JsMap.size before)) /\
  (forall k, k <> id -> JsMap.get N.eqb k after = JsMap.get N.eqb k before) /\
  (RenderSystem._spriteSheet rs = None ->
   match component with
   | SpriteComponent sc =>
       SpriteRenderComponent.animDescs sc <> [] \/
       SpriteRenderComponent.staticImages sc <> [] ->
       result r = Thrown "Sprite sheet not set"%string
   | TiledRegionComponent tc =>
       TiledRegionRenderComponent.staticImages tc <> [] ->
       result r = Thrown "Sprite sheet not set"%string
   | ShapeComponent _ => True
   end).
Proof.
  cbv zeta.
  set (k := component_entityId component).
  set (comps0 := RenderSystem._components rs).
  set (J := fun rs' : RenderSystem.t E Sch =>
              exists v, RenderSystem._components rs'
                        = JsMap.set N.eqb k v comps0).
  set (G := fun i : EntityId => i = k).
  assert (Jf : forall rs1 rs2 : RenderSystem.t E Sch,
             RenderSystem._components rs2 = RenderSystem._components rs1 ->
             RenderSystem._em rs2 = RenderSystem._em rs1 ->
             RenderSystem._spriteSheet rs2 = RenderSystem._spriteSheet rs1 ->
             J rs1 -> J rs2).
  { intros rs1 rs2 Ec _ _ (v & Hv). exists v. rewrite Ec. exact Hv. }
  assert (Js : forall c (rs1 : RenderSystem.t E Sch),
             G (component_entityId c) -> J rs1 ->
             J (RenderSystem.with_components
                  (JsMap.set N.eqb (component_entityId c) c
                             (RenderSystem._components rs1)) rs1)).
  { intros c rs1 Hg (v & Hv). exists c. simpl. rewrite Hv, Hg.
    apply (set_set N.eqb N_eqb_eq). }
  set (rs1 := RenderSystem.with_components
                (JsMap.set N.eqb k component comps0) rs).
  assert (Hstore : RenderSystem.store component rs = mkRes (Returned tt) rs1 [])
    by reflexivity.
  assert (J1 : J rs1) by (exists component; reflexivity).
  assert (Hfinal : J (final (RenderSystem.addComponent BLOCK_SZ component rs))).
  { unfold RenderSystem.addComponent.
    rewrite (bind_eq _ _ _ _ _ _ Hstore). cbn [final].
    apply (keeps_build BLOCK_SZ J G Jf Js component eq_refl rs1 J1). }
  destruct Hfinal as (v & Hv). rewrite Hv.
  split; [|split; [|split]].
  - unfold JsMap.has. rewrite (get_set_same N.eqb N_eqb_eq). reflexivity.
  - apply size_set.
  - intros k' Hne. apply (get_set_other N.eqb N_eqb_eq). exact Hne.
  - intros Hsheet. unfold RenderSystem.addComponent.
    rewrite (bind_eq _ _ _ _ _ _ Hstore). cbn [result].
    destruct component as [sh | sc | tc]; [exact Logic.I | |].
    + apply throws_without_sheet_sprite. exact Hsheet.
    + apply throws_without_sheet_tiles. exact Hsheet.
Qed.
End AddComponentFacts.

(** ** Taking components off *)

Section RemoveComponentFacts.
Context {E Sch : Type} `{ClientEntityManager E} `{Scheduler Sch} `{Pixi}.

Lemma only_logged_refl (rs : RenderSystem.t E Sch) :
  RenderSystem.only_logged [] rs rs.
Proof.
  unfold RenderSystem.only_logged. rewrite app_nil_r. repeat split.
Qed.

Lemma only_logged_trans l1 l2 (rs rs1 rs2 : RenderSystem.t E Sch) :
  RenderSystem.only_logged l1 rs rs1 -> RenderSystem.only_logged l2 rs1 rs2 ->
  RenderSystem.only_logged (l1 ++ l2) rs rs2.
Proof.
  unfold RenderSystem.only_logged.
  intros (C1 & E1 & S1 & P1 & M1 & L1) (C2 & E2 & S2 & P2 & M2 & L2).
  rewrite C2, E2, S2, P2, M2, L2, L1, app_assoc. repeat split; assumption.
Qed.

Lemma only_logged_logged calls (rs : RenderSystem.t E Sch) :
  RenderSystem.only_logged calls rs (RenderSystem.logged calls rs).
Proof. unfold RenderSystem.only_logged. repeat split. Qed.

Lemma forEach_pixi {A} (f : A -> PixiCall) (xs : list A) :
  forall rs : RenderSystem.t E Sch,
    result (forEach (fun x => RenderSystem.pixi (f x)) xs rs) = Returned tt /\
    RenderSystem.only_logged (map f xs) rs
      (final (forEach (fun x => RenderSystem.pixi (f x)) xs rs)).
Proof.
  induction xs as [|x xs IH]; intros rs; cbn [forEach map].
  - split; [reflexivity | apply only_logged_refl].
  - rewrite (bind_eq _ _ _ _ _ _
               (eq_refl : RenderSystem.pixi (f x) rs
                          = mkRes (Returned tt) (RenderSystem.logged [f x] rs) [])).
    cbn [result final].
    destruct (IH (RenderSystem.logged [f x] rs)) as (Hr & Hl).
    split; [exact Hr|].
    apply (only_logged_trans [f x] (map f xs) rs _ _
             (only_logged_logged [f x] rs) Hl).
Qed.

Lemma unstage_tiles_logs tc (rs : RenderSystem.t E Sch) :
  result (RenderSystem.unstage_tiles tc rs) = Returned tt /\
  RenderSystem.only_logged
    (map StageRemoveChild (RenderSystem.staged_objects (TiledRegionComponent tc)))
    rs (final (RenderSystem.unstage_tiles tc rs)).
Proof.
  unfold RenderSystem.unstage_tiles, RenderSystem.staged_objects.
  destruct (TiledRegionRenderComponent.stagedSprites tc) as [key|];
    [|split; [reflexivity | apply only_logged_refl]].
  destruct (JsMap.get String.eqb key (TiledRegionRenderComponent.sprites tc))
    as [sprites|]; [|split; [reflexivity | apply only_logged_refl]].
  apply (forEach_pixi StageRemoveChild).
Qed.

(** What the three removing methods have in common. *)
Lemma remove_unstages_then_deletes (rs : RenderSystem.t E Sch) id c :
  JsMap.get N.eqb id (RenderSystem._components rs) = Some c ->
  exists rs1,
    RenderSystem.only_logged
      (map StageRemoveChild (RenderSystem.staged_objects c)) rs rs1 /\
    RenderSystem.removeComponent id rs
      = mkRes (Returned tt)
              (RenderSystem.with_components
                 (JsMap.delete N.eqb (component_entityId c)
                               (RenderSystem._components rs1)) rs1) [].
Proof.
  intros Hg. unfold RenderSystem.removeComponent.
  rewrite (bind_eq _ _ _ _ _ _ (getComponent_found rs id c Hg)).
  cbn [result final events app].
  destruct c as [sh | sc | tc].
  - exists (RenderSystem.logged [StageRemoveChild (ShapeRenderComponent.graphics sh)] rs).
    split; [apply only_logged_logged | reflexivity].
  - unfold RenderSystem._removeSpriteComponent, RenderSystem.staged_objects.
    destruct (SpriteRenderComponent.stagedSprite sc) as [s|].
    + exists (RenderSystem.logged [StageRemoveChild s] rs).
      split; [apply only_logged_logged | reflexivity].
    + exists rs. split; [apply only_logged_refl | reflexivity].
  - unfold RenderSystem._removeTiledRegionComponent.
    destruct (unstage_tiles_logs tc rs) as (Hr & Hl).
    destruct (RenderSystem.unstage_tiles tc rs) as [res rs1 evs] eqn:Eu.
    assert (Hev : evs = []).
    { clear -Eu. revert Eu. unfold RenderSystem.unstage_tiles.
      destruct (TiledRegionRenderComponent.stagedSprites tc) as [key|];
        [|intros [= _ _ <-]; reflexivity].
      destruct (JsMap.get String.eqb key _) as [sprites|];
        [|intros [= _ _ <-]; reflexivity].
      revert rs res rs1 evs.
      induction sprites as [|s sprites IH]; intros rs res rs1 evs; simpl.
      - intros [= _ _ <-]. reflexivity.
      - unfold bind at 1. cbn [RenderSystem.pixi modify result final events].
        destruct (forEach _ sprites _) as [res' rs' evs'] eqn:Ef.
        apply IH in Ef. subst evs'. intros [= _ _ <-]. reflexivity. }
    cbn [result final] in Hr, Hl. subst res evs.
    exists rs1. split; [exact Hl|].
    rewrite (bind_eq _ _ _ _ _ _ Eu). reflexivity.
Qed.

(** X16.  [removeComponent] of an entity that has a render component
    returns; afterwards the entity has none, the number of components is
    one less, and the components of all other entities are as before.  The
    only calls made to PIXI are [removeChild] for the display objects the
    component had on the stage (the graphics of a shape, the staged sprite
    of a sprite component, the staged tiles of a tiled region), so none of
    them is a child of the stage afterwards, whatever the stage held
    before; the sprite sheet, the scheduler and the entity manager are not
    touched. *)
Theorem removeComponent_unregisters (rs : RenderSystem.t E Sch)
  (id : EntityId) (c : RenderComponent) (stage : list DisplayObject) :
  RenderSystem.well_keyed rs ->
  JsMap.get N.eqb id (RenderSystem._components rs) = Some c ->
  let r := RenderSystem.removeComponent id rs in
  let after := RenderSystem._components (final r) in
  result r = Returned tt /\
  after = JsMap.delete N.eqb id (RenderSystem._components rs) /\
  JsMap.has N.eqb id after = false /\
  S (JsMap.size after) = JsMap.size (RenderSystem._components rs) /\
  (forall k, k <> id ->
             JsMap.get N.eqb k after
             = JsMap.get N.eqb k (RenderSystem._components rs)) /\
  RenderSystem.log (final r)
    = RenderSystem.log rs
      ++ map StageRemoveChild (RenderSystem.staged_objects c) /\
  (forall child, In child (RenderSystem.staged_objects c) ->
                 ~ In child (RenderSystem.stage_after
                               (RenderSystem.log (final r)) stage)) /\
  RenderSystem._em (final r) = RenderSystem._em rs /\
  RenderSystem._scheduler (final r) = RenderSystem._scheduler rs /\
  RenderSystem._spriteSheet (final r) = RenderSystem._spriteSheet rs.
Proof.
  intros (Hn & Hk) Hg. cbv zeta.
  destruct (remove_unstages_then_deletes rs id c Hg) as (rs1 & Hl & Hr).
  rewrite Hr. cbn [result final RenderSystem._components
                   RenderSystem.with_components RenderSystem.log
                   RenderSystem._em RenderSystem._scheduler
                   RenderSystem._spriteSheet].
  destruct Hl as (C1 & E1 & S1 & P1 & _ & L1).
  rewrite C1, E1, S1, P1, L1.
  rewrite (Hk id c (get_In N.eqb N_eqb_eq id c _ Hg)).
  split; [reflexivity|]. split; [reflexivity|]. split.
  { unfold JsMap.has. rewrite (get_delete_same N.eqb N_eqb_eq); auto. }
  split.
  { apply (size_delete N.eqb). unfold JsMap.has. rewrite Hg. reflexivity. }
  split.
  { intros k Hne. apply (get_delete_other N.eqb N_eqb_eq). exact Hne. }
  split; [reflexivity|]. split; [|repeat split].
  intros child Hin. rewrite stage_after_app, unstaged_all. tauto.
Qed.
End RemoveComponentFacts.

(** ** Changing the image of a sprite component *)

Section SetCurrentImageFacts.
Context {E Sch : Type} `{ClientEntityManager E} `{Scheduler Sch} `{Pixi}.
Variable BLOCK_SZ : Q.

(** [_onEntityMoved] moves what is staged and nothing else: the registry
    and the children of the stage are as before; it throws only if the
    entity manager does. *)
Lemma onEntityMoved_effect (rs : RenderSystem.t E Sch) id :
  let r := RenderSystem._onEntityMoved BLOCK_SZ id rs in
  RenderSystem._components (final r) = RenderSystem._components rs /\
  (forall stage,
      RenderSystem.stage_after (RenderSystem.log (final r)) stage
      = RenderSystem.stage_after (RenderSystem.log rs) stage) /\
  result r
    = (if JsMap.has N.eqb id (RenderSystem._components rs) then
         match em_getSpatialComponent id (RenderSystem._em rs) with
         | Returned _ => Returned tt
         | Thrown e => Thrown e
         end
       else Returned tt).
Proof.
  cbv zeta.
  assert (Hrun : forall o rs',
             (RenderSystem._onEntityMoved BLOCK_SZ id rs = mkRes o rs' [] ->
              RenderSystem._components rs' = RenderSystem._components rs /\
              (forall stage,
                  RenderSystem.stage_after (RenderSystem.log rs') stage
                  = RenderSystem.stage_after (RenderSystem.log rs) stage) /\
              o = (if JsMap.has N.eqb id (RenderSystem._components rs) then
                     match em_getSpatialComponent id (RenderSystem._em rs) with
                     | Returned _ => Returned tt
                     | Thrown e => Thrown e
                     end
                   else Returned tt)) ->
             RenderSystem._onEntityMoved BLOCK_SZ id rs = mkRes o rs' [] ->
             RenderSystem._components
               (final (RenderSystem._onEntityMoved BLOCK_SZ id rs))
             = RenderSystem._components rs /\
             (forall stage,
                 RenderSystem.stage_after
                   (RenderSystem.log
                      (final (RenderSystem._onEntityMoved BLOCK_SZ id rs))) stage
                 = RenderSystem.stage_after (RenderSystem.log rs) stage) /\
             result (RenderSystem._onEntityMoved BLOCK_SZ id rs)
             = (if JsMap.has N.eqb id (RenderSystem._components rs) then
                  match em_getSpatialComponent id (RenderSystem._em rs) with
                  | Returned _ => Returned tt
                  | Thrown e => Thrown e
                  end
                else Returned tt)).
  { intros o rs' Hfacts Heq. rewrite Heq. apply Hfacts. exact Heq. }
  unfold JsMap.has in *.
  destruct (JsMap.get N.eqb id (RenderSystem._components rs)) as [c|] eqn:Hg.
  2:{ apply (Hrun (Returned tt) rs); [intros _; repeat split|].
      unfold RenderSystem._onEntityMoved, RenderSystem.hasComponent, bind, gets,
        JsMap.has.
      cbn [result final events]. rewrite Hg. reflexivity. }
  destruct (em_getSpatialComponent id (RenderSystem._em rs)) as [sp|e] eqn:Em.
  2:{ apply (Hrun (Thrown e) rs); [intros _; repeat split|].
      unfold RenderSystem._onEntityMoved, RenderSystem.hasComponent, bind, gets,
        JsMap.has, RenderSystem.em.
      cbn [result final events]. rewrite Hg. cbn [result final events].
      rewrite Em. reflexivity. }
  assert (Hstart : forall k : ClientSpatialComponent.t -> RenderComponent
                               -> Eff (RenderSystem.t E Sch) unit,
             (present <- RenderSystem.hasComponent id ;;
              if (present : bool) then
                spatialComp <- RenderSystem.em (em_getSpatialComponent id) ;;
                c_ <- RenderSystem.getComponent id ;;
                k spatialComp c_
              else ret tt) rs
             = mkRes (result (k sp c rs)) (final (k sp c rs)) (events (k sp c rs))).
  { intros k.
    rewrite (bind_eq _ _ _ _ _ _ (hasComponent_get rs id)).
    cbn [result final events app]. rewrite Hg.
    assert (Eq : RenderSystem.em (em_getSpatialComponent id) rs
                 = mkRes (Returned sp) rs [])
      by (unfold RenderSystem.em; rewrite Em; reflexivity).
    rewrite (bind_eq _ _ _ _ _ _ Eq). cbn [result final events app].
    rewrite (bind_eq _ _ _ _ _ _ (getComponent_found rs id c Hg)).
    reflexivity. }
  unfold RenderSystem._onEntityMoved. rewrite Hstart.
  cbn [result final events].
  destruct c as [sh | sc | tc]; [| |repeat split].
  - split; [reflexivity|]. split; [|reflexivity].
    intros stage. cbn. rewrite !stage_after_app. reflexivity.
  - destruct (SpriteRenderComponent.stagedSprite sc) as [s|]; [|repeat split].
    split; [reflexivity|]. split; [|reflexivity].
    intros stage. cbn. rewrite !stage_after_app. reflexivity.
Qed.

Lemma In_stage_added child l stage :
  In child (RenderSystem.stage_after (l ++ [StageAddChild child]) stage).
Proof.
  rewrite stage_after_app. simpl. apply in_or_app. right. left. reflexivity.
Qed.

Lemma not_In_stage_swapped old child l stage :
  old <> child ->
  ~ In old (RenderSystem.stage_after
              ((l ++ [StageRemoveChild old]) ++ [StageAddChild child]) stage).
Proof.
  intros Hne. rewrite !stage_after_app. simpl. intros Hin.
  apply in_app_or in Hin. destruct Hin as [Hin | [Heq | []]]; [|congruence].
  apply In_without in Hin. destruct Hin as (Hin & _).
  apply In_without in Hin. destruct Hin as (_ & Hn). apply Hn. reflexivity.
Qed.

Lemma not_In_stage_removed old l stage :
  ~ In old (RenderSystem.stage_after (l ++ [StageRemoveChild old]) stage).
Proof.
  rewrite stage_after_app. simpl. intros Hin.
  apply In_without in Hin. destruct Hin as (_ & Hn). apply Hn. reflexivity.
Qed.

(** X17.  [setCurrentImage] on a sprite component, when the scheduler
    lets go of the handle of the active animation.  If the component has a
    static sprite of that name, the sprite becomes the staged sprite and a
    child of the stage, and the sprite staged before, if it is another one,
    is no longer a child of the stage; the call throws only if the entity
    manager has no spatial component to give.  If the component has no
    static sprite of that name, the call throws "Component has no sprite
    with name <name>" after it has taken the staged sprite off the stage:
    the component still records that sprite as staged, but it is no longer
    a child of the stage. *)
Theorem setCurrentImage_swaps_sprite (rs : RenderSystem.t E Sch)
  (id : EntityId) (sc : SpriteRenderComponent.t) (name : string)
  (stage : list DisplayObject) :
  RenderSystem.well_keyed rs ->
  JsMap.get N.eqb id (RenderSystem._components rs) = Some (SpriteComponent sc) ->
  (forall an, SpriteRenderComponent.activeAnimation sc = Some an ->
              fst (scheduler_removeFunction (Animation.setEndFrameFnHandle an)
                                            (RenderSystem._scheduler rs))
              = Returned tt) ->
  let r := RenderSystem.setCurrentImage BLOCK_SZ id name rs in
  let children := RenderSystem.stage_after (RenderSystem.log (final r)) stage in
  match JsMap.get String.eqb name (SpriteRenderComponent.staticSprites sc) with
  | Some sprite =>
      JsMap.get N.eqb id (RenderSystem._components (final r))
        = Some (SpriteComponent
                  (SpriteRenderComponent.with_stagedSprite (Some sprite) sc)) /\
      In sprite children /\
      (forall old, SpriteRenderComponent.stagedSprite sc = Some old ->
                   old <> sprite -> ~ In old children) /\
      result r = match em_getSpatialComponent id (RenderSystem._em rs) with
                 | Returned _ => Returned tt
                 | Thrown e => Thrown e
                 end
  | None =>
      result r = Thrown ("Component has no sprite with name " ++ name)%string /\
      JsMap.get N.eqb id (RenderSystem._components (final r))
        = Some (SpriteComponent sc) /\
      (forall old, SpriteRenderComponent.stagedSprite sc = Some old ->
                   ~ In old children)
  end.
Proof.
  intros (Hn & Hk) Hg Hsched. cbv zeta.
  assert (Hid : SpriteRenderComponent.entityId sc = id)
    by exact (Hk id (SpriteComponent sc) (get_In N.eqb N_eqb_eq id _ _ Hg)).
  unfold RenderSystem.setCurrentImage.
  rewrite (bind_eq _ _ _ _ _ _ (getComponent_found rs id _ Hg)).
  cbn [result final events app].
  unfold RenderSystem._spriteCompSetActiveSprite.
  (* the staged sprite is taken off *)
  assert (Hoff : exists rs1,
             match SpriteRenderComponent.stagedSprite sc with
             | Some stagedSprite => RenderSystem.pixi (StageRemoveChild stagedSprite)
             | None => ret tt
             end rs = mkRes (Returned tt) rs1 [] /\
             RenderSystem.only_logged
               (map StageRemoveChild
                    (RenderSystem.staged_objects (SpriteComponent sc))) rs rs1).
  { unfold RenderSystem.staged_objects.
    destruct (SpriteRenderComponent.stagedSprite sc) as [old|].
    - eexists. split; [reflexivity | apply only_logged_logged].
    - exists rs. split; [reflexivity | apply only_logged_refl]. }
  destruct Hoff as (rs1 & E1 & (C1 & M1 & S1 & P1 & _ & L1)).
  rewrite (bind_eq _ _ _ _ _ _ E1). cbn [result final events app].
  (* the scheduler lets go of the handle *)
  assert (Hgo : exists rs2,
             match SpriteRenderComponent.activeAnimation sc with
             | Some activeAnimation =>
                 RenderSystem.scheduler
                   (scheduler_removeFunction
                      (Animation.setEndFrameFnHandle activeAnimation))
             | None => ret tt
             end rs1 = mkRes (Returned tt) rs2 [] /\
             RenderSystem._components rs2 = RenderSystem._components rs1 /\
             RenderSystem._em rs2 = RenderSystem._em rs1 /\
             RenderSystem.log rs2 = RenderSystem.log rs1).
  { destruct (SpriteRenderComponent.activeAnimation sc) as [an|].
    - specialize (Hsched an eq_refl). unfold RenderSystem.scheduler.
      rewrite S1.
      destruct (scheduler_removeFunction _ (RenderSystem._scheduler rs))
        as [o sch]. simpl in Hsched. subst o.
      eexists. split; [reflexivity | repeat split].
    - exists rs1. split; [reflexivity | repeat split]. }
  destruct Hgo as (rs2 & E2 & C2 & M2 & L2).
  rewrite (bind_eq _ _ _ _ _ _ E2). cbn [result final events app].
  destruct (JsMap.get String.eqb name (SpriteRenderComponent.staticSprites sc))
    as [sprite|] eqn:Es.
  - (* the named sprite is staged and recorded *)
    set (sc' := SpriteRenderComponent.with_stagedSprite (Some sprite) sc).
    set (rs4 := RenderSystem.with_components
                  (JsMap.set N.eqb id (SpriteComponent sc')
                             (RenderSystem._components rs2))
                  (RenderSystem.logged [StageAddChild sprite] rs2)).
    assert (E3 : (RenderSystem.pixi (StageAddChild sprite) ;;
                  RenderSystem.store (SpriteComponent sc')) rs2
                 = mkRes (Returned tt) rs4 []).
    { unfold rs4. rewrite <- Hid. reflexivity. }
    rewrite (bind_eq _ _ _ _ _ _ E3). cbn [result final events app].
    rewrite Hid.
    destruct (onEntityMoved_effect rs4 id) as (C5 & L5 & R5).
    cbv zeta in C5, L5, R5.
    assert (G4 : JsMap.get N.eqb id (RenderSystem._components rs4)
                 = Some (SpriteComponent sc'))
      by apply (get_set_same N.eqb N_eqb_eq).
    assert (L4 : RenderSystem.log rs4
                 = (RenderSystem.log rs
                    ++ map StageRemoveChild
                         (RenderSystem.staged_objects (SpriteComponent sc)))
                   ++ [StageAddChild sprite]).
    { unfold rs4. cbn. rewrite L2, L1. reflexivity. }
    rewrite C5, G4, L5, L4. unfold JsMap.has in R5. rewrite G4 in R5.
    split; [reflexivity|]. split; [apply In_stage_added|]. split.
    + intros old Hold Hne. unfold RenderSystem.staged_objects.
      rewrite Hold. simpl map. apply not_In_stage_swapped. exact Hne.
    + rewrite R5. unfold rs4. cbn [RenderSystem._em RenderSystem.with_components
                                    RenderSystem.logged].
      rewrite M2, M1. reflexivity.
  - (* no sprite of that name *)
    assert (E3 : RenderSystem.throw (A := unit)
                   ("Component has no sprite with name " ++ name)%string rs2
                 = mkRes (Thrown ("Component has no sprite with name " ++ name)%string)
                         rs2 []) by reflexivity.
    rewrite (bind_eq_thrown _ _ _ _ _ _ E3). cbn [result final events].
    split; [reflexivity|]. split.
    + rewrite C2, C1. exact Hg.
    + intros old Hold. rewrite L2, L1. unfold RenderSystem.staged_objects.
      rewrite Hold. simpl map. apply not_In_stage_removed.
Qed.
End SetCurrentImageFacts.

(** ** Adding a new sprite component *)

Section NewSpriteFacts.
Context {E Sch : Type} `{ClientEntityManager E} `{Scheduler Sch} `{Pixi}.
Variable BLOCK_SZ : Q.

Lemma bind_returned {S A B} (m : Eff S A) (f : A -> Eff S B) (s : S) (b : B) :
  result (bind m f s) = Returned b ->
  exists a, result (m s) = Returned a /\
            result (f a (final (m s))) = Returned b /\
            final (bind m f s) = final (f a (final (m s))).
Proof.
  unfold bind. destruct (m s) as [[a|e] s1 evs]; simpl; [eauto | discriminate].
Qed.

Lemma add_animation_returned c anim (rs : RenderSystem.t E Sch) c' :
  result (RenderSystem.add_animation c anim rs) = Returned c' ->
  (exists m, c' = SpriteRenderComponent.with_animatedSprites m c) /\
  RenderSystem._em (final (RenderSystem.add_animation c anim rs))
    = RenderSystem._em rs /\
  RenderSystem._spriteSheet (final (RenderSystem.add_animation c anim rs))
    = RenderSystem._spriteSheet rs.
Proof.
  unfold RenderSystem.add_animation, bind, gets. simpl.
  destruct (RenderSystem._spriteSheet rs) as [sheet|] eqn:Es; simpl;
    [|discriminate].
  destruct (pixi_AnimatedSprite _) as [len|e]; simpl; [|discriminate].
  intros [= <-]. rewrite ?Es.
  split; [eexists; reflexivity | split; reflexivity].
Qed.

Lemma add_static_returned c imgDesc (rs : RenderSystem.t E Sch) c' :
  result (RenderSystem.add_static c imgDesc rs) = Returned c' ->
  (exists sprite,
      c' = SpriteRenderComponent.with_staticSprites
             (JsMap.set String.eqb (StaticImage.name imgDesc) sprite
                        (SpriteRenderComponent.staticSprites c)) c) /\
  (exists sheet, RenderSystem._spriteSheet rs = Some sheet) /\
  RenderSystem._em (final (RenderSystem.add_static c imgDesc rs))
    = RenderSystem._em rs /\
  RenderSystem._spriteSheet (final (RenderSystem.add_static c imgDesc rs))
    = RenderSystem._spriteSheet rs.
Proof.
  unfold RenderSystem.add_static, bind, gets. simpl.
  destruct (RenderSystem._spriteSheet rs) as [sheet|] eqn:Es; simpl;
    [|discriminate].
  intros [= <-]. rewrite ?Es.
  split; [eexists; reflexivity|]. split; [eexists; reflexivity|].
  split; reflexivity.
Qed.

Lemma animations_loop_returned anims : forall c (rs : RenderSystem.t E Sch) c',
  result (RenderSystem.forEach_on RenderSystem.add_animation anims c rs)
    = Returned c' ->
  SpriteRenderComponent.entityId c' = SpriteRenderComponent.entityId c /\
  SpriteRenderComponent.staticImages c' = SpriteRenderComponent.staticImages c /\
  SpriteRenderComponent.initialImage c' = SpriteRenderComponent.initialImage c /\
  SpriteRenderComponent.staticSprites c' = SpriteRenderComponent.staticSprites c /\
  RenderSystem._em
    (final (RenderSystem.forEach_on RenderSystem.add_animation anims c rs))
    = RenderSystem._em rs /\
  RenderSystem._spriteSheet
    (final (RenderSystem.forEach_on RenderSystem.add_animation anims c rs))
    = RenderSystem._spriteSheet rs.
Proof.
  induction anims as [|anim anims IH]; intros c rs c'; cbn [RenderSystem.forEach_on].
  - intros [= <-]. repeat split.
  - intros Hr. apply bind_returned in Hr. destruct Hr as (c1 & Hc1 & Hr & Hf).
    rewrite Hf.
    destruct (add_animation_returned c anim rs c1 Hc1) as ((m & ->) & Em & Es).
    destruct (IH _ _ _ Hr) as (I1 & I2 & I3 & I4 & I5 & I6).
    rewrite I1, I2, I3, I4, I5, I6, Em, Es. repeat split.
Qed.

Lemma get_set_some name k (v : DisplayObject) m :
  JsMap.get String.eqb name (JsMap.set String.eqb k v m) <> None ->
  name = k \/ JsMap.get String.eqb name m <> None.
Proof.
  intros Hg. destruct (String.eqb_spec name k) as [-> | Hne]; [auto|].
  right. rewrite (get_set_other String.eqb string_eqb_eq) in Hg; auto.
Qed.

Lemma statics_loop_returned imgs : forall c (rs : RenderSystem.t E Sch) c',
  result (RenderSystem.forEach_on RenderSystem.add_static imgs c rs)
    = Returned c' ->
  SpriteRenderComponent.entityId c' = SpriteRenderComponent.entityId c /\
  SpriteRenderComponent.initialImage c' = SpriteRenderComponent.initialImage c /\
  (forall name,
      JsMap.get String.eqb name (SpriteRenderComponent.staticSprites c') <> None ->
      In name (map StaticImage.name imgs) \/
      JsMap.get String.eqb name (SpriteRenderComponent.staticSprites c) <> None) /\
  (imgs <> [] -> exists sheet, RenderSystem._spriteSheet rs = Some sheet) /\
  RenderSystem._em
    (final (RenderSystem.forEach_on RenderSystem.add_static imgs c rs))
    = RenderSystem._em rs.
Proof.
  induction imgs as [|img imgs IH]; intros c rs c'; cbn [RenderSystem.forEach_on].
  - intros [= <-]. repeat split; auto. intros Hn. contradiction.
  - intros Hr. apply bind_returned in Hr. destruct Hr as (c1 & Hc1 & Hr & Hf).
    rewrite Hf.
    destruct (add_static_returned c img rs c1 Hc1)
      as ((sprite & ->) & Hsheet & Em & _).
    destruct (IH _ _ _ Hr) as (I1 & I2 & I3 & _ & I5).
    rewrite I1, I2, I5, Em.
    split; [reflexivity|]. split; [reflexivity|]. split; [|auto].
    intros name Hg. destruct (I3 name Hg) as [Hin | Hg1].
    + left. right. exact Hin.
    + cbn [SpriteRenderComponent.staticSprites
             SpriteRenderComponent.with_staticSprites] in Hg1.
      destruct (get_set_some _ _ _ _ Hg1) as [-> | Hg0]; [|auto].
      left. left. reflexivity.
Qed.

Lemma setActive_returned c name (rs : RenderSystem.t E Sch) :
  result (RenderSystem._spriteCompSetActiveSprite BLOCK_SZ c name false rs)
    = Returned tt ->
  JsMap.get String.eqb name (SpriteRenderComponent.staticSprites c) <> None /\
  exists spatialComp,
    em_getSpatialComponent (SpriteRenderComponent.entityId c) (RenderSystem._em rs)
    = Returned spatialComp.
Proof.
  unfold RenderSystem._spriteCompSetActiveSprite. intros Hr.
  apply bind_returned in Hr. destruct Hr as ([] & _ & Hr & _).
  assert (Em1 : RenderSystem._em
                  (final (match SpriteRenderComponent.stagedSprite c with
                          | Some stagedSprite =>
                              RenderSystem.pixi (StageRemoveChild stagedSprite)
                          | None => ret tt
                          end rs)) = RenderSystem._em rs)
    by (destruct (SpriteRenderComponent.stagedSprite c); reflexivity).
  revert Hr Em1. generalize (final (match SpriteRenderComponent.stagedSprite c with
                          | Some stagedSprite =>
                              RenderSystem.pixi (StageRemoveChild stagedSprite)
                          | None => ret tt
                          end rs)) as rs1.
  intros rs1 Hr Em1.
  apply bind_returned in Hr. destruct Hr as ([] & _ & Hr & _).
  assert (Em2 : RenderSystem._em
                  (final (match SpriteRenderComponent.activeAnimation c with
                          | Some activeAnimation =>
                              RenderSystem.scheduler
                                (scheduler_removeFunction
                                   (Animation.setEndFrameFnHandle activeAnimation))
                          | None => ret tt
                          end rs1)) = RenderSystem._em rs1).
  { destruct (SpriteRenderComponent.activeAnimation c); [|reflexivity].
    unfold RenderSystem.scheduler.
    destruct (scheduler_removeFunction _ _); reflexivity. }
  revert Hr Em2. generalize (final (match SpriteRenderComponent.activeAnimation c with
                          | Some activeAnimation =>
                              RenderSystem.scheduler
                                (scheduler_removeFunction
                                   (Animation.setEndFrameFnHandle activeAnimation))
                          | None => ret tt
                          end rs1)) as rs2.
  intros rs2 Hr Em2.
  apply bind_returned in Hr. destruct Hr as ([] & Hc3 & Hr & _).
  destruct (JsMap.get String.eqb name (SpriteRenderComponent.staticSprites c))
    as [sprite|]; [|discriminate].
  split; [discriminate|].
  pose proof (onEntityMoved_effect BLOCK_SZ
                (final ((RenderSystem.pixi (StageAddChild sprite) ;;
                         RenderSystem.store
                           (SpriteComponent
                              (SpriteRenderComponent.with_stagedSprite
                                 (Some sprite) c))) rs2))
                (SpriteRenderComponent.entityId c)) as (_ & _ & R5).
  cbv zeta in R5. rewrite Hr in R5.
  cbn [final bind RenderSystem.pixi RenderSystem.store modify result
       RenderSystem._components RenderSystem.with_components
       RenderSystem.logged RenderSystem._em component_entityId
       SpriteRenderComponent.entityId
       SpriteRenderComponent.with_stagedSprite] in R5.
  unfold JsMap.has in R5.
  rewrite (get_set_same N.eqb N_eqb_eq) in R5.
  rewrite Em2, Em1 in R5.
  destruct (em_getSpatialComponent _ _) as [sp|e]; [eauto | discriminate].
Qed.

(** X18.  [addComponent] of a new sprite component returns only if a
    sprite sheet has been set, the component's initial image is one of its
    static images, and the entity manager already has a spatial component
    for the entity; in every other case it throws. *)
Theorem new_sprite_component_requirements (rs : RenderSystem.t E Sch)
  (entityId : EntityId) (staticImages : list StaticImage.t)
  (animations : list AnimationDesc.t) (initialImage : string) :
  let c := SpriteRenderComponent.constructor entityId staticImages animations
                                             initialImage in
  result (RenderSystem.addComponent BLOCK_SZ (SpriteComponent c) rs)
    = Returned tt ->
  In initialImage (map StaticImage.name staticImages) /\
  (exists sheet, RenderSystem._spriteSheet rs = Some sheet) /\
  (exists spatialComp,
      em_getSpatialComponent entityId (RenderSystem._em rs) = Returned spatialComp).
Proof.
  cbv zeta. unfold RenderSystem.addComponent. intros Hr.
  apply bind_returned in Hr. destruct Hr as ([] & _ & Hr & _).
  revert Hr.
  set (c := SpriteRenderComponent.constructor entityId staticImages animations
                                              initialImage).
  set (rs1 := final (RenderSystem.store (SpriteComponent c) rs)).
  assert (Em1 : RenderSystem._em rs1 = RenderSystem._em rs) by reflexivity.
  assert (Es1 : RenderSystem._spriteSheet rs1 = RenderSystem._spriteSheet rs)
    by reflexivity.
  clearbody rs1.
  unfold RenderSystem._addSpriteComponent. intros Hr.
  apply bind_returned in Hr. destruct Hr as (c1 & Hc1 & Hr & _).
  destruct (animations_loop_returned _ _ _ _ Hc1) as (A1 & A2 & A3 & A4 & A5 & A6).
  revert Hr A5 A6.
  generalize (final (RenderSystem.forEach_on RenderSystem.add_animation
                       (SpriteRenderComponent.animDescs c) c rs1)) as rs2.
  intros rs2 Hr A5 A6.
  apply bind_returned in Hr. destruct Hr as (c2 & Hc2 & Hr & _).
  destruct (statics_loop_returned _ _ _ _ Hc2) as (B1 & B2 & B3 & B4 & B5).
  revert Hr B5.
  generalize (final (RenderSystem.forEach_on RenderSystem.add_static
                       (SpriteRenderComponent.staticImages c1) c1 rs2)) as rs3.
  intros rs3 Hr B5.
  destruct (setActive_returned _ _ _ Hr) as (Hinit & (sp & Hsp)).
  rewrite B2, A3 in Hinit. rewrite B1, A1, B5, A5, Em1 in Hsp.
  rewrite A2 in B3, B4.
  assert (Hin : In initialImage (map StaticImage.name staticImages)).
  { destruct (B3 _ Hinit) as [Hin | Hg]; [exact Hin|].
    rewrite A4 in Hg. exfalso. apply Hg. reflexivity. }
  split; [exact Hin|]. split; [|exists sp; exact Hsp].
  rewrite <- Es1, <- A6. apply B4.
  change (staticImages <> []). intros ->. destruct Hin.
Qed.
End NewSpriteFacts.


(** ** Shapes and tiled regions *)

Lemma staged_all (children : list DisplayObject) : forall stage x,
  In x (RenderSystem.stage_after (map StageAddChild children) stage) <->
  In x stage \/ In x children.
Proof.
  induction children as [|c cs IH]; intros stage x; simpl.
  - tauto.
  - rewrite IH, in_app_iff, In_without. simpl. split.
    + intros [[(Hin & _) | [<- | []]] | Hin]; auto.
    + intros [Hin | [<- | Hin]]; auto.
      destruct (N.eq_dec x c) as [-> | Hne]; auto.
Qed.

Section ShapeAndTileFacts.
Context {E Sch : Type} `{ClientEntityManager E} `{Scheduler Sch} `{Pixi}.
Variable BLOCK_SZ : Q.

(** [_onEntityMoved] for an entity with a shape component: the graphics is
    given its pivot, its position and its rotation, in this order, from
    what the entity manager answers; if the entity manager throws, nothing
    was done. *)
Lemma onEntityMoved_shape (rs : RenderSystem.t E Sch) id sh :
  JsMap.get N.eqb id (RenderSystem._components rs) = Some (ShapeComponent sh) ->
  RenderSystem._onEntityMoved BLOCK_SZ id rs
  = match em_getSpatialComponent id (RenderSystem._em rs) with
    | Returned spatialComp =>
        let graphics := ShapeRenderComponent.graphics sh in
        mkRes (Returned tt)
          (RenderSystem.logged
             [PivotSet graphics (BLOCK_SZ * (1 # 2)) (BLOCK_SZ * (1 # 2));
              PositionSet graphics
                (ClientSpatialComponent.x spatialComp + BLOCK_SZ * (1 # 2))
                (ClientSpatialComponent.y spatialComp + BLOCK_SZ * (1 # 2));
              SetRotation graphics (ClientSpatialComponent.angle spatialComp)]
             rs) []
    | Thrown e => mkRes (Thrown e) rs []
    end.
Proof.
  intros Hg. unfold RenderSystem._onEntityMoved.
  rewrite (bind_eq _ _ _ _ _ _ (hasComponent_get rs id)).
  cbn [result final events app]. rewrite Hg.
  destruct (em_getSpatialComponent id (RenderSystem._em rs)) as [sp|e] eqn:Em.
  - assert (Eq : RenderSystem.em (em_getSpatialComponent id) rs
                 = mkRes (Returned sp) rs [])
      by (unfold RenderSystem.em; rewrite Em; reflexivity).
    rewrite (bind_eq _ _ _ _ _ _ Eq). cbn [result final events app].
    rewrite (bind_eq _ _ _ _ _ _ (getComponent_found rs id _ Hg)).
    cbn [result final events app].
    unfold bind, RenderSystem.pixi, modify, RenderSystem.logged.
    cbn. rewrite <- !app_assoc. reflexivity.
  - assert (Eq : RenderSystem.em (em_getSpatialComponent id) rs
                 = mkRes (Thrown e) rs [])
      by (unfold RenderSystem.em; rewrite Em; reflexivity).
    rewrite (bind_eq_thrown _ _ _ _ _ _ Eq). reflexivity.
Qed.

(** X19.  [addComponent] of a shape component.  For a circle or a
    rectangle the calls made to PIXI are, in this order: [beginFill] with
    the colour's value, [drawCircle(0, 0, radius)] or
    [drawRect(0, 0, width, height)], [endFill], [stage.addChild] of the
    graphics, and then, if the entity manager has a spatial component for
    the entity, the pivot, the position and the rotation of the graphics;
    the graphics is a child of the stage afterwards and the call throws
    only if the entity manager does.  For a shape of any other type the
    call throws "Render system doesn't support shapes of type <type>"
    after [beginFill], its only call: the fill is never ended, nothing is
    drawn and the graphics is not put on the stage.  In every case the
    component stays registered. *)
Theorem addComponent_draws_shape (rs : RenderSystem.t E Sch)
  (sh : ShapeRenderComponent.t) (stage : list DisplayObject) :
  let r := RenderSystem.addComponent BLOCK_SZ (ShapeComponent sh) rs in
  let id := ShapeRenderComponent.entityId sh in
  let graphics := ShapeRenderComponent.graphics sh in
  let fill := BeginFill graphics (Colour.value (ShapeRenderComponent.colour sh)) in
  let asked := em_getSpatialComponent id (RenderSystem._em rs) in
  let placed :=
    match asked with
    | Returned spatialComp =>
        [PivotSet graphics (BLOCK_SZ * (1 # 2)) (BLOCK_SZ * (1 # 2));
         PositionSet graphics
           (ClientSpatialComponent.x spatialComp + BLOCK_SZ * (1 # 2))
           (ClientSpatialComponent.y spatialComp + BLOCK_SZ * (1 # 2));
         SetRotation graphics (ClientSpatialComponent.angle spatialComp)]
    | Thrown _ => []
    end in
  let moved := match asked with
               | Returned _ => Returned tt
               | Thrown e => Thrown e
               end in
  let children := RenderSystem.stage_after (RenderSystem.log (final r)) stage in
  RenderSystem._components (final r)
    = JsMap.set N.eqb id (ShapeComponent sh) (RenderSystem._components rs) /\
  JsMap.get N.eqb id (RenderSystem._components (final r))
    = Some (ShapeComponent sh) /\
  match ShapeRenderComponent.shape sh with
  | Circle radius =>
      RenderSystem.log (final r)
        = RenderSystem.log rs
          ++ [fill; DrawCircle graphics 0 0 radius; EndFill graphics;
              StageAddChild graphics] ++ placed /\
      In graphics children /\
      result r = moved
  | Rectangle width height =>
      RenderSystem.log (final r)
        = RenderSystem.log rs
          ++ [fill; DrawRect graphics 0 0 width height; EndFill graphics;
              StageAddChild graphics] ++ placed /\
      In graphics children /\
      result r = moved
  | OtherShape type =>
      RenderSystem.log (final r) = RenderSystem.log rs ++ [fill] /\
      result r = Thrown ("Render system doesn't support shapes of type "
                         ++ show type)%string
  end.
Proof.
  cbv zeta. unfold RenderSystem.addComponent.
  set (id := ShapeRenderComponent.entityId sh).
  set (rs1 := RenderSystem.with_components
                (JsMap.set N.eqb id (ShapeComponent sh)
                           (RenderSystem._components rs)) rs).
  assert (Hstore : RenderSystem.store (ShapeComponent sh) rs
                   = mkRes (Returned tt) rs1 []) by reflexivity.
  rewrite (bind_eq _ _ _ _ _ _ Hstore). cbn [result final events app].
  assert (G1 : JsMap.get N.eqb id (RenderSystem._components rs1)
               = Some (ShapeComponent sh))
    by apply (get_set_same N.eqb N_eqb_eq).
  unfold RenderSystem._addShapeComponent. fold id.
  set (g := ShapeRenderComponent.graphics sh).
  set (fill := BeginFill g (Colour.value (ShapeRenderComponent.colour sh))).
  rewrite (bind_eq _ _ _ _ _ _
             (eq_refl : RenderSystem.pixi fill rs1
                        = mkRes (Returned tt) (RenderSystem.logged [fill] rs1) [])).
  cbn [result final events app].
  (* what follows the drawing *)
  assert (Hdrawn : forall draw,
             let rs4 := RenderSystem.logged [StageAddChild g]
                          (RenderSystem.logged [EndFill g]
                             (RenderSystem.logged [draw]
                                (RenderSystem.logged [fill] rs1))) in
             let r := RenderSystem._onEntityMoved BLOCK_SZ id rs4 in
             let asked := em_getSpatialComponent id (RenderSystem._em rs) in
             RenderSystem._components (final r)
               = JsMap.set N.eqb id (ShapeComponent sh)
                           (RenderSystem._components rs) /\
             JsMap.get N.eqb id (RenderSystem._components (final r))
               = Some (ShapeComponent sh) /\
             RenderSystem.log (final r)
               = RenderSystem.log rs
                 ++ [fill; draw; EndFill g; StageAddChild g]
                 ++ match asked with
                    | Returned spatialComp =>
                        [PivotSet g (BLOCK_SZ * (1 # 2)) (BLOCK_SZ * (1 # 2));
                         PositionSet g
                           (ClientSpatialComponent.x spatialComp
                            + BLOCK_SZ * (1 # 2))
                           (ClientSpatialComponent.y spatialComp
                            + BLOCK_SZ * (1 # 2));
                         SetRotation g (ClientSpatialComponent.angle spatialComp)]
                    | Thrown _ => []
                    end /\
             In g (RenderSystem.stage_after (RenderSystem.log (final r)) stage) /\
             result r = match asked with
                        | Returned _ => Returned tt
                        | Thrown e => Thrown e
                        end).
  { intros draw rs4 r asked.
    assert (G4 : JsMap.get N.eqb id (RenderSystem._components rs4)
                 = Some (ShapeComponent sh)) by exact G1.
    pose proof (onEntityMoved_shape rs4 id sh G4) as Hm.
    change (RenderSystem._em rs4) with (RenderSystem._em rs) in Hm.
    fold asked in Hm. fold r in Hm. fold g in Hm.
    assert (L4 : RenderSystem.log rs4
                 = RenderSystem.log rs ++ [fill; draw; EndFill g; StageAddChild g]).
    { unfold rs4. cbn [RenderSystem.log RenderSystem.logged].
      change (RenderSystem.log rs1) with (RenderSystem.log rs).
      rewrite <- !app_assoc. reflexivity. }
    destruct asked as [sp|e]; rewrite Hm; cbv zeta;
      cbn [result final RenderSystem._components RenderSystem.log
           RenderSystem.logged]; rewrite L4.
    - split; [reflexivity|]. split; [exact G1|].
      split; [rewrite <- app_assoc; reflexivity|]. split; [|reflexivity].
      rewrite stage_after_app. cbn [RenderSystem.stage_after].
      change (RenderSystem.log rs ++ [fill; draw; EndFill g; StageAddChild g])
        with (RenderSystem.log rs ++ [fill; draw; EndFill g] ++ [StageAddChild g]).
      rewrite app_assoc. apply In_stage_added.
    - split; [reflexivity|]. split; [exact G1|].
      split; [rewrite app_nil_r; reflexivity|]. split; [|reflexivity].
      change (RenderSystem.log rs ++ [fill; draw; EndFill g; StageAddChild g])
        with (RenderSystem.log rs ++ [fill; draw; EndFill g] ++ [StageAddChild g]).
      rewrite app_assoc. apply In_stage_added. }
  destruct (ShapeRenderComponent.shape sh) as [radius | width height | type].
  - rewrite (bind_eq _ _ _ _ _ _
               (eq_refl : RenderSystem.pixi (DrawCircle g 0 0 radius)
                            (RenderSystem.logged [fill] rs1)
                          = mkRes (Returned tt)
                                  (RenderSystem.logged [DrawCircle g 0 0 radius]
                                     (RenderSystem.logged [fill] rs1)) [])).
    cbn [result final events app].
    rewrite (bind_eq _ _ _ _ _ _
               (eq_refl : RenderSystem.pixi (EndFill g) _
                          = mkRes (Returned tt) (RenderSystem.logged [EndFill g] _) [])).
    cbn [result final events app].
    rewrite (bind_eq _ _ _ _ _ _
               (eq_refl : RenderSystem.pixi (StageAddChild g) _
                          = mkRes (Returned tt)
                                  (RenderSystem.logged [StageAddChild g] _) [])).
    cbn [result final events app].
    destruct (Hdrawn (DrawCircle g 0 0 radius)) as (D0 & D1 & D2 & D3 & D4).
    cbv zeta in D0, D1, D2, D3, D4. auto.
  - rewrite (bind_eq _ _ _ _ _ _
               (eq_refl : RenderSystem.pixi (DrawRect g 0 0 width height)
                            (RenderSystem.logged [fill] rs1)
                          = mkRes (Returned tt)
                                  (RenderSystem.logged [DrawRect g 0 0 width height]
                                     (RenderSystem.logged [fill] rs1)) [])).
    cbn [result final events app].
    rewrite (bind_eq _ _ _ _ _ _
               (eq_refl : RenderSystem.pixi (EndFill g) _
                          = mkRes (Returned tt) (RenderSystem.logged [EndFill g] _) [])).
    cbn [result final events app].
    rewrite (bind_eq _ _ _ _ _ _
               (eq_refl : RenderSystem.pixi (StageAddChild g) _
                          = mkRes (Returned tt)
                                  (RenderSystem.logged [StageAddChild g] _) [])).
    cbn [result final events app].
    destruct (Hdrawn (DrawRect g 0 0 width height)) as (D0 & D1 & D2 & D3 & D4).
    cbv zeta in D0, D1, D2, D3, D4. auto.
  - assert (E3 : RenderSystem.throw (A := unit)
                   ("Render system doesn't support shapes of type "
                    ++ show type)%string (RenderSystem.logged [fill] rs1)
                 = mkRes (Thrown ("Render system doesn't support shapes of type "
                                  ++ show type)%string)
                         (RenderSystem.logged [fill] rs1) []) by reflexivity.
    rewrite (bind_eq_thrown _ _ _ _ _ _ E3). cbn [result final events].
    split; [reflexivity|]. split; [exact G1|]. split; reflexivity.
Qed.

(** X20.  [setCurrentImage] on a tiled region component always comes back
    to the tiles of one image.  If the component has tiles under that name,
    every one of them becomes a child of the stage, every tile staged
    before that is not among them is no longer a child, the component
    records the name as staged, and the call returns: the entity manager is
    not needed.  If it has no tiles under that name, the call throws
    "Component has no sprite with name <name>" after it has taken the staged
    tiles off the stage: the component still records the old name, but none
    of its tiles is a child of the stage. *)
Theorem setCurrentImage_swaps_tiles (rs : RenderSystem.t E Sch)
  (id : EntityId) (tc : TiledRegionRenderComponent.t) (name : string)
  (stage : list DisplayObject) :
  RenderSystem.well_keyed rs ->
  JsMap.get N.eqb id (RenderSystem._components rs)
    = Some (TiledRegionComponent tc) ->
  let r := RenderSystem.setCurrentImage BLOCK_SZ id name rs in
  let children := RenderSystem.stage_after (RenderSystem.log (final r)) stage in
  let old := RenderSystem.staged_objects (TiledRegionComponent tc) in
  match JsMap.get String.eqb name (TiledRegionRenderComponent.sprites tc) with
  | Some tiles =>
      result r = Returned tt /\
      JsMap.get N.eqb id (RenderSystem._components (final r))
        = Some (TiledRegionComponent
                  (TiledRegionRenderComponent.with_stagedSprites (Some name) tc)) /\
      (forall sprite, In sprite tiles -> In sprite children) /\
      (forall sprite, In sprite old -> ~ In sprite tiles -> ~ In sprite children)
  | None =>
      result r = Thrown ("Component has no sprite with name " ++ name)%string /\
      RenderSystem._components (final r) = RenderSystem._components rs /\
      (forall sprite, In sprite old -> ~ In sprite children)
  end.
Proof.
  intros (Hn & Hk) Hg. cbv zeta.
  assert (Hid : TiledRegionRenderComponent.entityId tc = id)
    by exact (Hk id (TiledRegionComponent tc) (get_In N.eqb N_eqb_eq id _ _ Hg)).
  unfold RenderSystem.setCurrentImage.
  rewrite (bind_eq _ _ _ _ _ _ (getComponent_found rs id _ Hg)).
  cbn [result final events app].
  unfold RenderSystem._tiledRegionCompSetActiveSprite.
  destruct (unstage_tiles_logs tc rs) as (Hr1 & Hl1).
  destruct (RenderSystem.unstage_tiles tc rs) as [res1 rs1 ev1] eqn:E1.
  cbn [result final] in Hr1, Hl1. subst res1.
  rewrite (bind_eq _ _ _ _ _ _ E1). cbn [result final events].
  destruct Hl1 as (C1 & _ & _ & _ & _ & L1).
  destruct (JsMap.get String.eqb name (TiledRegionRenderComponent.sprites tc))
    as [tiles|] eqn:Hname.
  - destruct (forEach_pixi StageAddChild tiles rs1) as (Hr2 & Hl2).
    destruct (forEach (fun sprite => RenderSystem.pixi (StageAddChild sprite))
                      tiles rs1) as [res2 rs2 ev2] eqn:E2.
    cbn [result final] in Hr2, Hl2. subst res2.
    rewrite (bind_eq _ _ _ _ _ _ E2). cbn [result final events].
    destruct Hl2 as (C2 & _ & _ & _ & _ & L2).
    unfold RenderSystem.store, modify. cbn [result final events].
    cbn [RenderSystem._components RenderSystem.with_components RenderSystem.log
         component_entityId TiledRegionRenderComponent.entityId
         TiledRegionRenderComponent.with_stagedSprites].
    rewrite Hid. split; [reflexivity|].
    split; [apply (get_set_same N.eqb N_eqb_eq)|].
    rewrite L2, L1, !stage_after_app.
    split.
    + intros sprite Hin. apply staged_all. right. exact Hin.
    + intros sprite Hold Hnew Hin. apply staged_all in Hin.
      destruct Hin as [Hin | Hin]; [|exact (Hnew Hin)].
      apply unstaged_all in Hin. destruct Hin as (_ & Hout). exact (Hout Hold).
  - assert (E3 : RenderSystem.throw (A := unit)
                   ("Component has no sprite with name " ++ name)%string rs1
                 = mkRes (Thrown ("Component has no sprite with name "
                                  ++ name)%string) rs1 []) by reflexivity.
    rewrite (bind_eq_thrown _ _ _ _ _ _ E3) || rewrite E3.
    cbn [result final events].
    split; [reflexivity|]. split; [exact C1|].
    intros sprite Hold Hin. rewrite L1, stage_after_app in Hin.
    apply unstaged_all in Hin. destruct Hin as (_ & Hout). exact (Hout Hold).
Qed.

Lemma built_refl (rs : RenderSystem.t E Sch) : RenderSystem.built 0 rs rs.
Proof.
  unfold RenderSystem.built. repeat split; try reflexivity.
  - rewrite N.add_0_r. reflexivity.
  - exists []. rewrite app_nil_r. split; reflexivity.
Qed.

Lemma built_trans n m (rs1 rs2 rs3 : RenderSystem.t E Sch) :
  RenderSystem.built n rs1 rs2 -> RenderSystem.built m rs2 rs3 ->
  RenderSystem.built (n + m) rs1 rs3.
Proof.
  intros (A1 & A2 & A3 & A4 & l1 & A5 & A6) (B1 & B2 & B3 & B4 & l2 & B5 & B6).
  unfold RenderSystem.built.
  rewrite B1, B2, B3, B4, A1, A2, A3, A4, B5, A5.
  repeat split; try reflexivity.
  - rewrite Nat2N.inj_add. lia.
  - exists (l1 ++ l2). rewrite app_assoc. split; [reflexivity|].
    intros stage. rewrite stage_after_app, A6, B6. reflexivity.
Qed.

Lemma tile_built texture place (rs : RenderSystem.t E Sch) :
  exists rs',
    RenderSystem.tile BLOCK_SZ texture place rs
      = mkRes (Returned (RenderSystem.made rs)) rs' [] /\
    RenderSystem.built 1 rs rs'.
Proof.
  destruct place as (j, span). eexists. split; [reflexivity|].
  unfold RenderSystem.built. cbn. repeat split.
  eexists. split; [rewrite <- app_assoc; reflexivity | reflexivity].
Qed.

Lemma collect_tiles texture places : forall rs : RenderSystem.t E Sch,
  exists tiles rs',
    RenderSystem.collect (RenderSystem.tile BLOCK_SZ texture) places rs
      = mkRes (Returned tiles) rs' [] /\
    List.length tiles = List.length places /\
    (forall sprite, In sprite tiles ->
       (RenderSystem.made rs <= sprite < RenderSystem.made rs')%N) /\
    RenderSystem.built (List.length places) rs rs'.
Proof.
  induction places as [|place places IH]; intros rs; cbn [RenderSystem.collect].
  - exists [], rs. split; [reflexivity|]. split; [reflexivity|].
    split; [intros ? []|]. apply built_refl.
  - destruct (tile_built texture place rs) as (rs1 & E1 & B1).
    rewrite (bind_eq _ _ _ _ _ _ E1). cbn [result final events app].
    destruct (IH rs1) as (tiles & rs2 & E2 & Hlen & Hfresh & B2).
    rewrite (bind_eq _ _ _ _ _ _ E2). cbn [result final events app].
    exists (RenderSystem.made rs :: tiles), rs2.
    split; [reflexivity|]. split; [simpl; rewrite Hlen; reflexivity|].
    pose proof B1 as (_ & _ & _ & M1 & _).
    pose proof B2 as (_ & _ & _ & M2 & _).
    split.
    + intros sprite [<- | Hin].
      * lia.
      * specialize (Hfresh sprite Hin). lia.
    + exact (built_trans 1 _ _ _ _ B1 B2).
Qed.

Lemma spans_length (region : Spans) :
  List.length (flat_map (fun row => map (pair (fst row)) (snd row)) region)
  = List.length (flat_map snd region).
Proof.
  induction region as [|row rows IH]; simpl; [reflexivity|].
  rewrite !length_app, length_map, IH. reflexivity.
Qed.

Lemma add_tiles_built (rs : RenderSystem.t E Sch) tc img sheet :
  RenderSystem._spriteSheet rs = Some sheet ->
  exists tiles rs',
    RenderSystem.add_tiles BLOCK_SZ tc img rs
      = mkRes (Returned
                 (TiledRegionRenderComponent.with_sprites
                    (JsMap.set String.eqb (StaticImage.name img) tiles
                               (TiledRegionRenderComponent.sprites tc)) tc))
              rs' [] /\
    List.length tiles
      = List.length (flat_map snd (TiledRegionRenderComponent.region tc)) /\
    (forall sprite, In sprite tiles ->
       (RenderSystem.made rs <= sprite < RenderSystem.made rs')%N) /\
    RenderSystem.built
      (List.length (flat_map snd (TiledRegionRenderComponent.region tc))) rs rs'.
Proof.
  intros Hsheet. unfold RenderSystem.add_tiles.
  rewrite (bind_eq _ _ _ _ _ _
             (eq_refl : gets RenderSystem._spriteSheet rs
                        = mkRes (Returned (RenderSystem._spriteSheet rs)) rs [])).
  cbn [result final events app]. rewrite Hsheet.
  destruct (collect_tiles
              (Spritesheet.textures sheet (StaticImage.name img))
              (flat_map (fun row => map (pair (fst row)) (snd row))
                        (TiledRegionRenderComponent.region tc)) rs)
    as (tiles & rs1 & E1 & Hlen & Hfresh & B1).
  rewrite spans_length in Hlen, B1.
  rewrite (bind_eq _ _ _ _ _ _ E1). cbn [result final events app].
  eexists tiles, _. split; [reflexivity|]. split; [exact Hlen|].
  split; [exact Hfresh | exact B1].
Qed.

Lemma tiles_loop_built imgs : forall (rs : RenderSystem.t E Sch) tc sheet,
  RenderSystem._spriteSheet rs = Some sheet ->
  let spans := List.length (flat_map snd (TiledRegionRenderComponent.region tc)) in
  exists tc' rs',
    RenderSystem.forEach_on (RenderSystem.add_tiles BLOCK_SZ) imgs tc rs
      = mkRes (Returned tc') rs' [] /\
    RenderSystem.built (List.length imgs * spans) rs rs' /\
    TiledRegionRenderComponent.entityId tc' = TiledRegionRenderComponent.entityId tc /\
    TiledRegionRenderComponent.stagedSprites tc'
      = TiledRegionRenderComponent.stagedSprites tc /\
    TiledRegionRenderComponent.region tc' = TiledRegionRenderComponent.region tc /\
    TiledRegionRenderComponent.initialImage tc'
      = TiledRegionRenderComponent.initialImage tc /\
    (forall name, In name (map StaticImage.name imgs) ->
       exists tiles,
         JsMap.get String.eqb name (TiledRegionRenderComponent.sprites tc')
           = Some tiles /\
         List.length tiles = spans /\
         forall sprite, In sprite tiles ->
           (RenderSystem.made rs <= sprite < RenderSystem.made rs')%N) /\
    (forall name, ~ In name (map StaticImage.name imgs) ->
       JsMap.get String.eqb name (TiledRegionRenderComponent.sprites tc')
       = JsMap.get String.eqb name (TiledRegionRenderComponent.sprites tc)).
Proof.
  induction imgs as [|img imgs IH]; intros rs tc sheet Hsheet spans;
    cbn [RenderSystem.forEach_on].
  - exists tc, rs. split; [reflexivity|]. split; [apply built_refl|].
    repeat split; try reflexivity. intros name [].
  - destruct (add_tiles_built rs tc img sheet Hsheet)
      as (tiles1 & rs1 & E1 & Hlen1 & Hfresh1 & B1).
    rewrite (bind_eq _ _ _ _ _ _ E1). cbn [result final events app].
    set (tc1 := TiledRegionRenderComponent.with_sprites
                  (JsMap.set String.eqb (StaticImage.name img) tiles1
                             (TiledRegionRenderComponent.sprites tc)) tc).
    assert (Hsheet1 : RenderSystem._spriteSheet rs1 = Some sheet).
    { destruct B1 as (_ & _ & S1 & _). rewrite S1. exact Hsheet. }
    destruct (IH rs1 tc1 sheet Hsheet1)
      as (tc' & rs' & E2 & B2 & Hid & Hst & Hreg & Hini & Hin & Hout).
    cbv zeta in B2, Hin. change (TiledRegionRenderComponent.region tc1)
      with (TiledRegionRenderComponent.region tc) in B2, Hin, Hreg.
    fold spans in B2, Hin, Hlen1, B1.
    exists tc', rs'. split; [rewrite E2; reflexivity|].
    split; [exact (built_trans _ _ _ _ _ B1 B2)|].
    split; [exact Hid|]. split; [exact Hst|]. split; [exact Hreg|].
    split; [exact Hini|].
    pose proof B1 as (_ & _ & _ & M1 & _).
    pose proof B2 as (_ & _ & _ & M2 & _).
    split.
    + intros name Hname.
      destruct (in_dec string_dec name (map StaticImage.name imgs)) as [Hrest | Hrest].
      * destruct (Hin name Hrest) as (tiles & G & L & F).
        exists tiles. split; [exact G|]. split; [exact L|].
        intros sprite Hs. specialize (F sprite Hs). lia.
      * destruct Hname as [Heq | Hname]; [|contradiction].
        exists tiles1. rewrite (Hout name Hrest). subst name.
        split; [apply (get_set_same String.eqb string_eqb_eq)|].
        split; [exact Hlen1|].
        intros sprite Hs. specialize (Hfresh1 sprite Hs). lia.
    + intros name Hname. rewrite (Hout name).
      * apply (get_set_other String.eqb string_eqb_eq).
        intros Heq. apply Hname. left. symmetry. exact Heq.
      * intros Hrest. apply Hname. right. exact Hrest.
Qed.

(** X21.  [addComponent] of a new tiled region component, when a sprite
    sheet has been set: one tiling sprite is made for every span of the
    region and every static image, whether the call returns or throws.  If
    the initial image is one of the static images, the call returns, the
    component is registered with the initial image recorded as staged, and
    its tiles, one for every span and all made during the call, are
    children of the stage.  If it is not, the call throws "Component has no
    sprite with name <initialImage>" and the children of the stage are as
    before. *)
Theorem new_tiled_region_tiles (rs : RenderSystem.t E Sch) (id : EntityId)
  (region : Spans) (staticImages : list StaticImage.t) (initialImage : string)
  (stage : list DisplayObject) :
  RenderSystem._spriteSheet rs <> None ->
  let c := TiledRegionRenderComponent.constructor id region staticImages
             initialImage in
  let r := RenderSystem.addComponent BLOCK_SZ (TiledRegionComponent c) rs in
  let spans := List.length (flat_map snd region) in
  let children := RenderSystem.stage_after (RenderSystem.log (final r)) stage in
  RenderSystem.made (final r)
    = (RenderSystem.made rs + N.of_nat (List.length staticImages * spans))%N /\
  (In initialImage (map StaticImage.name staticImages) ->
   result r = Returned tt /\
   exists c' tiles,
     JsMap.get N.eqb id (RenderSystem._components (final r))
       = Some (TiledRegionComponent c') /\
     TiledRegionRenderComponent.stagedSprites c' = Some initialImage /\
     JsMap.get String.eqb initialImage (TiledRegionRenderComponent.sprites c')
       = Some tiles /\
     List.length tiles = spans /\
     forall sprite, In sprite tiles ->
       (RenderSystem.made rs <= sprite < RenderSystem.made (final r))%N /\
       In sprite children) /\
  (~ In initialImage (map StaticImage.name staticImages) ->
   result r = Thrown ("Component has no sprite with name " ++ initialImage)%string /\
   children = RenderSystem.stage_after (RenderSystem.log rs) stage).
Proof.
  intros Hsheet. cbv zeta.
  destruct (RenderSystem._spriteSheet rs) as [sheet|] eqn:Es;
    [clear Hsheet | exfalso; apply Hsheet; reflexivity].
  set (c := TiledRegionRenderComponent.constructor id region staticImages
              initialImage).
  unfold RenderSystem.addComponent.
  set (rs1 := RenderSystem.with_components
                (JsMap.set N.eqb id (TiledRegionComponent c)
                           (RenderSystem._components rs)) rs).
  assert (Hstore : RenderSystem.store (TiledRegionComponent c) rs
                   = mkRes (Returned tt) rs1 []) by reflexivity.
  rewrite (bind_eq _ _ _ _ _ _ Hstore). cbn [result final events app].
  unfold RenderSystem._addTiledRegionComponent.
  change (TiledRegionRenderComponent.staticImages c) with staticImages.
  destruct (tiles_loop_built staticImages rs1 c sheet Es)
    as (c' & rs2 & E2 & B2 & Hid & Hst & Hreg & Hini & Hin & Hout).
  cbv zeta in B2, Hin.
  change (TiledRegionRenderComponent.region c) with region in B2, Hin.
  rewrite (bind_eq _ _ _ _ _ _ E2). cbn [result final events app].
  destruct B2 as (_ & _ & _ & M2 & calls & L2 & Q2).
  change (RenderSystem.made rs1) with (RenderSystem.made rs) in M2, Hin.
  change (RenderSystem.log rs1) with (RenderSystem.log rs) in L2.
  change (TiledRegionRenderComponent.initialImage c) with initialImage in Hini.
  change (TiledRegionRenderComponent.stagedSprites c) with (@None string) in Hst.
  change (TiledRegionRenderComponent.entityId c) with id in Hid.
  rewrite Hini.
  unfold RenderSystem._tiledRegionCompSetActiveSprite, RenderSystem.unstage_tiles.
  rewrite Hst.
  rewrite (bind_eq _ _ _ _ _ _ (eq_refl : ret tt rs2 = mkRes (Returned tt) rs2 [])).
  cbn [result final events app].
  destruct (in_dec string_dec initialImage (map StaticImage.name staticImages))
    as [Hyes | Hno].
  - destruct (Hin initialImage Hyes) as (tiles & G & Hlen & Hfresh).
    rewrite G.
    destruct (forEach_pixi StageAddChild tiles rs2) as (Hr3 & Hl3).
    destruct (forEach (fun sprite => RenderSystem.pixi (StageAddChild sprite))
                      tiles rs2) as [res3 rs3 ev3] eqn:E3.
    cbn [result final] in Hr3, Hl3. subst res3.
    rewrite (bind_eq _ _ _ _ _ _ E3). cbn [result final events].
    destruct Hl3 as (_ & _ & _ & _ & M3 & L3).
    unfold RenderSystem.store, modify. cbn [result final events].
    cbn [RenderSystem._components RenderSystem.with_components RenderSystem.log
         RenderSystem.made component_entityId TiledRegionRenderComponent.entityId
         TiledRegionRenderComponent.with_stagedSprites].
    rewrite Hid, M3, M2. split; [reflexivity|].
    split; [|intros Hno; contradiction].
    intros _. split; [reflexivity|].
    exists (TiledRegionRenderComponent.with_stagedSprites (Some initialImage) c'),
           tiles.
    split; [apply (get_set_same N.eqb N_eqb_eq)|].
    split; [reflexivity|]. split; [exact G|]. split; [exact Hlen|].
    intros sprite Hs. split; [rewrite <- M2; exact (Hfresh sprite Hs)|].
    rewrite L3, stage_after_app. apply staged_all. right. exact Hs.
  - rewrite (Hout initialImage Hno). change (TiledRegionRenderComponent.sprites c)
      with (@nil (string * list DisplayObject)).
    cbn [JsMap.get].
    unfold RenderSystem.throw. cbn [result final events].
    rewrite M2. split; [reflexivity|].
    split; [intros Hyes; contradiction|].
    intros _. split; [reflexivity|].
    rewrite L2, stage_after_app, Q2. reflexivity.
Qed.
End ShapeAndTileFacts.


(* ================================================================== *)
(** * More examples *)

Section MoreExamples.
Local Open Scope N_scope.

Lemma firing_attempts_pending_then_arrived_witness :
  map fst (attempts (events (Game.run_interval Game.interval_callback
                               [[MoveAction 1 0; OtherAction 7 2]] Ref.playing)))
    = [MoveAction 4 0; MoveAction 1 0; OtherAction 7 2] /\
  Game._actionQueue (final (Game.run_interval Game.interval_callback
                              [[MoveAction 1 0; OtherAction 7 2]] Ref.playing))
    = [].
Proof.
  destruct (@firing_attempts_pending_then_arrived Ref.World Ref.Registry
              Ref.world Ref.registry Ref.playing
              [MoveAction 1 0; OtherAction 7 2] ltac:(reflexivity))
    as (_ & Hret & _).
  apply Hret. vm_compute. reflexivity.
Defined.

Lemma colour_value_bounds_witness :
  (0 <= Colour.value
          (fold_left (Colour.assign Colour.minmax_clamp)
                     [Colour.AssignG (7 # 2)]
                     (Colour.constructor Colour.minmax_clamp (3 # 1) (1 # 2) (2 # 1) None))
     <= 69888)%Z.
Proof.
  apply (colour_value_bounds Colour.minmax_clamp minmax_clamps).
Defined.


Lemma loadMapData_describes_free_cells_witness :
  let md := Layout.loadMapData (R := RefRegion.t) 3 7 16 (@rev (N * N)) in
  ~ In (0, 6 * 16) (map Layout.position (Layout.entities md)) /\
  ~ In (1 * 16, 2 * 16) (map Layout.position (Layout.entities md)) /\
  In (1 * 16, 6 * 16) (map Layout.position (Layout.entities md)) /\
  map Layout.type (Layout.entities md) = repeat ROCK 5.
Proof.
  destruct (@loadMapData_describes_free_cells 3 7 16 (@rev (N * N))
              (fun l => Permutation_rev l) RefRegion.t RefRegion.region)
    as (Hin & _ & Htypes & _).
  split; [|split; [|split]].
  - intros Hc. apply Hin in Hc. destruct Hc as (c & r & (Hc & Hr & E) & Hcorner & _).
    injection E as Ec Er. apply Hcorner. lia.
  - intros Hc. apply Hin in Hc. destruct Hc as (c & r & (Hc & Hr & E) & _ & Hreg).
    injection E as Ec Er.
    assert (c = 1) by lia. assert (r = 2) by lia. subst c r.
    vm_compute in Hreg. discriminate.
  - apply Hin. exists 1, 6. repeat split; try reflexivity.
    intros (Hc & _). discriminate.
  - rewrite Htypes. vm_compute. reflexivity.
Defined.

Lemma staged_well_keyed : RenderSystem.well_keyed RefClient.staged.
Proof.
  apply (@serve_well_keyed unit unit RefClient.em RefClient.scheduler
           RefClient.pixi).
  apply constructor_well_keyed.
Qed.

Lemma staged_man :
  JsMap.get N.eqb 7 (RenderSystem._components RefClient.staged)
    = Some (SpriteComponent RefClient.man_staged).
Proof. vm_compute. reflexivity. Qed.

Lemma removeComponent_unregisters_witness :
  let r := RenderSystem.removeComponent 7 RefClient.staged in
  result r = Returned tt /\
  JsMap.has N.eqb 7 (RenderSystem._components (final r)) = false /\
  ~ In 1 (RenderSystem.stage_after (RenderSystem.log (final r)) []).
Proof.
  destruct (removeComponent_unregisters RefClient.staged 7
              (SpriteComponent RefClient.man_staged) []
              staged_well_keyed staged_man)
    as (Hr & _ & Hh & _ & _ & _ & Hs & _).
  split; [exact Hr|]. split; [exact Hh|].
  apply Hs. left. reflexivity.
Defined.

Lemma setCurrentImage_swaps_sprite_witness :
  let r := @RenderSystem.setCurrentImage unit unit RefClient.em
             RefClient.scheduler 16%Q 7 "dig" RefClient.staged in
  In 2 (RenderSystem.stage_after (RenderSystem.log (final r)) []) /\
  ~ In 1 (RenderSystem.stage_after (RenderSystem.log (final r)) []) /\
  result r = Returned tt.
Proof.
  destruct (@setCurrentImage_swaps_sprite unit unit RefClient.em
              RefClient.scheduler 16%Q RefClient.staged 7
              RefClient.man_staged "dig" []
              staged_well_keyed staged_man
              ltac:(intros an Ha; discriminate))
    as (_ & Hin & Hout & Hr).
  split; [exact Hin|]. split; [|exact Hr].
  apply (Hout 1); [reflexivity | discriminate].
Defined.

Lemma new_sprite_component_requirements_witness :
  In "man"%string (map StaticImage.name
                       [StaticImage.mk "man"; StaticImage.mk "dig"]) /\
  (exists sheet,
      RenderSystem._spriteSheet
        (final (RenderSystem.setSpriteSheet RefClient.sheet
                  (RenderSystem.constructor tt tt))) = Some sheet) /\
  (exists spatialComp,
      @em_getSpatialComponent unit RefClient.em 7 tt = Returned spatialComp).
Proof.
  apply (@new_sprite_component_requirements unit unit RefClient.em
           RefClient.scheduler RefClient.pixi 16%Q
           (final (RenderSystem.setSpriteSheet RefClient.sheet
                     (RenderSystem.constructor tt tt)))
           7 [StaticImage.mk "man"; StaticImage.mk "dig"]
           [AnimationDesc.mk 1%Q "run" None None] "man").
  vm_compute. reflexivity.
Defined.

Lemma tiled_well_keyed : RenderSystem.well_keyed RefClient.tiled.
Proof.
  apply (@serve_well_keyed unit unit RefClient.em RefClient.scheduler
           RefClient.pixi).
  apply constructor_well_keyed.
Qed.

Lemma tiled_field :
  JsMap.get N.eqb 9 (RenderSystem._components RefClient.tiled)
    = Some (TiledRegionComponent RefClient.field_staged).
Proof. vm_compute. reflexivity. Qed.

Lemma setCurrentImage_swaps_tiles_witness :
  let r := @RenderSystem.setCurrentImage unit unit RefClient.em
             RefClient.scheduler 16%Q 9 "dig" RefClient.tiled in
  result r = Returned tt /\
  In 4 (RenderSystem.stage_after (RenderSystem.log (final r)) []) /\
  ~ In 1 (RenderSystem.stage_after (RenderSystem.log (final r)) []).
Proof.
  destruct (@setCurrentImage_swaps_tiles unit unit RefClient.em
              RefClient.scheduler 16%Q RefClient.tiled 9
              RefClient.field_staged "dig" []
              tiled_well_keyed tiled_field)
    as (Hr & _ & Hin & Hout).
  split; [exact Hr|]. split.
  - apply Hin. right. left. reflexivity.
  - apply Hout.
    + right. left. reflexivity.
    + intros [Hc | [Hc | [Hc | []]]]; discriminate.
Defined.

Lemma new_tiled_region_tiles_witness :
  let rs := final (RenderSystem.setSpriteSheet RefClient.sheet
                     (RenderSystem.constructor tt tt)) in
  let r := @RenderSystem.addComponent unit unit RefClient.em
             RefClient.scheduler RefClient.pixi 16%Q
             (TiledRegionComponent RefClient.field) rs in
  RenderSystem._spriteSheet rs <> None /\
  RenderSystem.made (final r) = 6 /\
  result r = Returned tt.
Proof.
  assert (Hsheet : RenderSystem._spriteSheet
                     (final (RenderSystem.setSpriteSheet RefClient.sheet
                               (RenderSystem.constructor tt tt))) <> None)
    by discriminate.
  destruct (@new_tiled_region_tiles unit unit RefClient.em
              RefClient.scheduler RefClient.pixi 16%Q
              (final (RenderSystem.setSpriteSheet RefClient.sheet
                        (RenderSystem.constructor tt tt)))
              9 [(0%Q, [Span.mk 0 3; Span.mk 5 6]); (1%Q, [Span.mk 2 2])]
              [StaticImage.mk "man"; StaticImage.mk "dig"] "man" [] Hsheet)
    as (Hmade & Hyes & _).
  split; [exact Hsheet|]. split; [exact Hmade|].
  apply Hyes. left. reflexivity.
Defined.
End MoreExamples.
